(** * go-safe-browsing-api: list state engine, chunk codec and lookup pipeline

    A shallow embedding of the Go sources
    ([safebrowsinglist.go], [chunk.go], [safebrowsing.go], the cgo
    binding of the HAT-trie and the full-hash request engine) together
    with the properties of the specification that are checked against
    them.

    Conventions.  A Go [string] or [[]byte] holding raw bytes is a
    [list ascii]; Go text that is only compared (list names, URLs, chunk
    kinds, error messages) is a [string].  Go [int] values are [Z],
    [ChunkNum] ([uint32]) is [N].  A Go function that may return an
    error or panic returns a [Res]. *)

From Stdlib Require Import ZArith NArith QArith List Ascii String Lia Bool DecimalString.
From stdpp Require Import base list strings gmap sorting.

Import ListNotations.
Local Open Scope Z_scope.

Abbreviation bytes := (list ascii).

(** [b "text"] is the byte sequence of a Go string literal. *)
Definition b (s : string) : bytes := list_ascii_of_string s.

(** ** Go errors, results and panics *)

Inductive error : Type :=
| EOF                              (* io.EOF *)
| ErrOutOfDateHashes               (* the 45 minutes error of queryUrl *)
| Errorf (msg : string)            (* fmt.Errorf / errors.New *)
| ExtErr (msg : string).           (* an error handed back by os, gob, strconv or net/http *)

#[global] Instance error_eq_dec : EqDecision error.
Proof. solve_decision. Defined.

Inductive Res (A : Type) : Type :=
| Ok (a : A)
| Err (e : error)
| Panic (why : string).

Arguments Ok {A} a.
Arguments Err {A} e.
Arguments Panic {A} why.

Definition bind {A B} (r : Res A) (k : A -> Res B) : Res B :=
  match r with
  | Ok a => k a
  | Err e => Err e
  | Panic w => Panic w
  end.

Notation "'do' x <- r ; k" := (bind r (fun x => k))
  (at level 10, x name, r at level 100, k at level 200).

(** ** Byte strings: order and prefixes *)

(** Byte-wise lexicographic order, the order of [memcmp] followed by
    length. *)
Fixpoint bytes_ltb (x y : bytes) : bool :=
  match x, y with
  | [], [] => false
  | [], _ :: _ => true
  | _ :: _, [] => false
  | c :: x', d :: y' =>
      if (N_of_ascii c <? N_of_ascii d)%N then true
      else if (N_of_ascii c =? N_of_ascii d)%N then bytes_ltb x' y'
      else false
  end.

Definition bytes_lt (x y : bytes) : Prop := bytes_ltb x y = true.

(** Go slicing [s[lo:hi]]: panics unless [0 <= lo <= hi <= len(s)]. *)
Definition slice {A} (s : list A) (lo hi : Z) : Res (list A) :=
  if (0 <=? lo) && (lo <=? hi) && (hi <=? Z.of_nat (length s))
  then Ok (take (Z.to_nat (hi - lo)) (drop (Z.to_nat lo) s))
  else Panic "slice bounds out of range".

(** Go indexing [s[i]]: panics unless [0 <= i < len(s)]. *)
Definition index {A} (s : list A) (i : Z) : Res A :=
  if (0 <=? i) then
    match s !! Z.to_nat i with
    | Some a => Ok a
    | None => Panic "index out of range"
    end
  else Panic "index out of range".

Definition len {A} (s : list A) : Z := Z.of_nat (length s).

(** ** The HAT-trie binding ([hattrie.go]) *)

Module HatTrie.

Definition NUL : ascii := "000"%char.

(** [C.CString(key)] followed by [strlen(key)]: the bytes before the
    first NUL byte are the key the C side sees. *)
Fixpoint cstring (key : bytes) : bytes :=
  match key with
  | [] => []
  | c :: rest => if decide (c = NUL) then [] else c :: cstring rest
  end.

Definition value_t := Z.

(** Modelled from the spec: the HAT-trie library proper ([hat-trie.c]:
    [hattrie_create], [hattrie_get], [hattrie_tryget] and the
    [hattrie_iter_*] family) is not among the sources; only its hash
    table [ahtable] and the callers are.  The specification asks of
    the index a set of byte-string keys with [set], [delete],
    [contains] and an [iterate] yielding all keys; [ahtable.h]
    documents [get] as finding the key, inserting it if it does not
    exist, and [tryget] as returning a NULL pointer if it does not
    exist.  The trie is therefore a table of (key, value) slots kept in
    ascending key order, which is the order the sorted iterator
    ([hattrie_iter_begin(trie, true)]) walks. *)
Definition hattrie_t := list (bytes * value_t).

Definition hattrie_create : hattrie_t := [].

Fixpoint hattrie_tryget (t : hattrie_t) (key : bytes) : option value_t :=
  match t with
  | [] => None
  | (k, v) :: rest => if decide (key = k) then Some v else hattrie_tryget rest key
  end.

(** [hattrie_get] makes sure the slot exists; the pointer it returns is
    written through with [store]. *)
Fixpoint hattrie_get (t : hattrie_t) (key : bytes) : hattrie_t :=
  match t with
  | [] => [(key, 0)]
  | (k, v) :: rest =>
      if decide (key = k) then t
      else if bytes_ltb key k then (key, 0) :: t
      else (k, v) :: hattrie_get rest key
  end.

(** [*val = v] for the slot of [key]. *)
Fixpoint store (t : hattrie_t) (key : bytes) (v : value_t) : hattrie_t :=
  match t with
  | [] => []
  | (k, w) :: rest =>
      if decide (key = k) then (k, v) :: rest else (k, w) :: store rest key v
  end.

(** The keys the iterator walks, in order. *)
Definition hattrie_iter_begin (t : hattrie_t) : list bytes := map fst t.

(** *** The C helpers of the cgo preamble *)

(** [void set(hattrie_t* h, char* key)] *)
Definition C_set (h : hattrie_t) (key : bytes) : hattrie_t :=
  let k := cstring key in
  store (hattrie_get h k) k 1.

(** [int get(hattrie_t* h, char* key)] *)
Definition C_get (h : hattrie_t) (key : bytes) : Z :=
  match hattrie_tryget h (cstring key) with
  | Some v => v
  | None => 0
  end.

(** [void delete(hattrie_t* h, char* key)]: the slot is zeroed, the key
    stays in the trie. *)
Definition C_delete (h : hattrie_t) (key : bytes) : hattrie_t :=
  let k := cstring key in
  match hattrie_tryget h k with
  | Some _ => store h k 0
  | None => h
  end.

(** *** The Go methods *)

Definition NewTrie : hattrie_t := hattrie_create.

Definition Delete (h : hattrie_t) (key : bytes) : hattrie_t := C_delete h key.
Definition Set_ (h : hattrie_t) (key : bytes) : hattrie_t := C_set h key.
Definition Get (h : hattrie_t) (key : bytes) : bool := C_get h key =? 1.

(** A [HatTrieIterator] is the list of keys still to be visited. *)
Definition HatTrieIterator := list bytes.

Definition Iterator (h : hattrie_t) : HatTrieIterator := hattrie_iter_begin h.

(** [Next] returns the empty string when the iterator is finished;
    otherwise the current key read back as a C string
    ([hattrie_iter_key_string], [C.GoString]) and the advanced
    iterator. *)
Definition hattrie_iter_finished (i : HatTrieIterator) : bool :=
  match i with [] => true | _ :: _ => false end.

Definition Next (i : HatTrieIterator) : bytes * HatTrieIterator :=
  if hattrie_iter_finished i then ([], i)
  else match i with
       | [] => ([], i)
       | k :: rest => (cstring k, rest)
       end.

(** The keys an iterator yields by repeated [Next] until it is
    finished ([n] bounds the number of calls). *)
Fixpoint yields_upto (n : nat) (i : HatTrieIterator) : list bytes :=
  match n with
  | O => []
  | S n' =>
      if hattrie_iter_finished i then []
      else fst (Next i) :: yields_upto n' (snd (Next i))
  end.

Definition yields (i : HatTrieIterator) : list bytes :=
  yields_upto (length i) i.

(** The operations a client can perform on a trie. *)
Inductive op : Type :=
| OpSet (key : bytes)
| OpDelete (key : bytes).

Definition apply_op (h : hattrie_t) (o : op) : hattrie_t :=
  match o with
  | OpSet k => Set_ h k
  | OpDelete k => Delete h k
  end.

Definition run (ops : list op) : hattrie_t := fold_left apply_op ops NewTrie.

End HatTrie.

(** ** Chunks ([chunk.go]) *)

Definition ChunkNum := N.
Definition ChunkType := string.

Definition CHUNK_TYPE_ADD : ChunkType := "a".
Definition CHUNK_TYPE_SUB : ChunkType := "s".

Definition HostHash := bytes.
Definition LookupHash := bytes.

(** A Go map whose iteration order matters to the model is an association
    list with distinct keys: [range] visits it in list order, which stands
    for whichever order the Go runtime picks. *)
Fixpoint aget {K V} `{EqDecision K} (m : list (K * V)) (k : K) : option V :=
  match m with
  | [] => None
  | (k', v) :: rest => if decide (k = k') then Some v else aget rest k
  end.

Fixpoint aset {K V} `{EqDecision K} (m : list (K * V)) (k : K) (v : V) : list (K * V) :=
  match m with
  | [] => [(k, v)]
  | (k', v') :: rest =>
      if decide (k = k') then (k', v) :: rest else (k', v') :: aset rest k v
  end.

Record Chunk : Type := mkChunk {
  cChunkNum : ChunkNum;
  cChunkType : ChunkType;
  HashLen : Z;
  ChunkLen : Z;
  Hashes : list (HostHash * list LookupHash);
  AddChunkNums : list (HostHash * list N)
}.

(** ** The range codec ([range.go]) *)

Module Range.

(** Decimal text of a chunk number ([strconv.Itoa] / [%d]). *)
Definition show_N (n : N) : string := NilEmpty.string_of_uint (N.to_uint n).

(** The maximal runs of consecutive numbers of a list, read left to right:
    [runs_from lo hi rest] has the run [lo..hi] open. *)
Fixpoint runs_from (lo hi : N) (rest : list N) : list (N * N) :=
  match rest with
  | [] => [(lo, hi)]
  | n :: rest' =>
      if (n =? hi + 1)%N then runs_from lo n rest'
      else (lo, hi) :: runs_from n n rest'
  end.

Definition runs (l : list N) : list (N * N) :=
  match l with
  | [] => []
  | n :: rest => runs_from n n rest
  end.

Definition show_run (r : N * N) : string :=
  if (fst r =? snd r)%N then show_N (fst r)
  else (show_N (fst r) +:+ "-" +:+ show_N (snd r))%string.

(** The chunk numbers of a [map[ChunkNum]bool], ascending. *)
Definition sorted_keys (m : gmap ChunkNum bool) : list N :=
  merge_sort N.le (elements (dom m)).

Definition chunk_runs (m : gmap ChunkNum bool) : list (N * N) :=
  runs (sorted_keys m).

(** Modelled from the spec: [buildChunkRanges] of [range.go] is not among
    the sources (its test [range_test.go] is).  The specification: emit a
    set as a sorted list of maximal contiguous runs, singletons formatted
    as [N], runs as [A-B], joined by commas; the empty set gives the empty
    string.  [TestBuildChunkList] fixes the order as numeric
    ([{1,5,6,7,10}] gives ["1,5-7,10"]). *)
Definition buildChunkRanges (m : gmap ChunkNum bool) : string :=
  String.concat "," (map show_run (chunk_runs m)).

(** A run list mentions [n] when one of its runs spans it. *)
Definition covers (rs : list (N * N)) (n : N) : Prop :=
  Exists (fun r => (fst r <= n)%N /\ (n <= snd r)%N) rs.

End Range.

(** ** The list state engine ([safebrowsinglist.go]) *)

Module ListEngine.

Import HatTrie.

Record SafeBrowsingList : Type := mkList {
  Name : string;
  FileName : string;
  DataRedirects : list string;
  DeleteChunks : gmap ChunkType (gmap ChunkNum bool);
  ChunkRanges : gmap ChunkType string;
  HashPrefixLen : Z;
  Lookup : hattrie_t;
  FullHashRequested : hattrie_t;
  FullHashes : hattrie_t
}.

Definition with_tries (ssl : SafeBrowsingList) (hpl : Z) (lk fh : hattrie_t) : SafeBrowsingList :=
  mkList (Name ssl) (FileName ssl) (DataRedirects ssl) (DeleteChunks ssl)
         (ChunkRanges ssl) hpl lk (FullHashRequested ssl) fh.

Definition newSafeBrowsingList (name filename : string) : SafeBrowsingList :=
  mkList name filename [] 
         (<[CHUNK_TYPE_SUB := ∅]> (<[CHUNK_TYPE_ADD := ∅]> ∅))
         ∅ 0 NewTrie NewTrie NewTrie.

(** The loop of [updateLookupMap] that clears the full hashes under a
    subtracted prefix:
    [for key := i.Next(); key != ""; key = i.Next()]. The recursion is on
    the iterator; [cstring k] is what [Next] hands back for the slot [k]. *)
Fixpoint sweepFullHashes (lookup : bytes) (i : HatTrieIterator) (fh : hattrie_t)
  : Res hattrie_t :=
  match i with
  | [] => Ok fh
  | k :: rest =>
      let key := cstring k in
      if decide (key = []) then Ok fh
      else
        do keyPrefix <- slice key 0 (len lookup);
        sweepFullHashes lookup rest
          (if decide (keyPrefix = lookup) then Delete fh key else fh)
  end.

(** The body of the inner loop of [updateLookupMap]: one hash of one host
    of a chunk.  The state is [(HashPrefixLen, Lookup, FullHashes)]. *)
Definition applyHash (chunkType : ChunkType) (hashLen : Z) (hostHash : HostHash)
  (hash : LookupHash) (st : Z * hattrie_t * hattrie_t) : Res (Z * hattrie_t * hattrie_t) :=
  let '(hpl, lk, fh) := st in
  if len hash =? 32 then
    let lookupHash := hostHash ++ hash in
    if decide (chunkType = CHUNK_TYPE_ADD) then Ok (hpl, lk, Set_ fh lookupHash)
    else if decide (chunkType = CHUNK_TYPE_SUB) then Ok (hpl, lk, Delete fh lookupHash)
    else Ok st
  else
    do hpl' <- (if hpl =? 0 then Ok hashLen
                else if negb (hpl =? hashLen)
                     then Panic "Found more than 1 length hash in a single list, this is currently unsupported"
                     else Ok hpl);
    let lookup := hostHash ++ hash in
    if decide (chunkType = CHUNK_TYPE_ADD) then Ok (hpl', Set_ lk lookup, fh)
    else if decide (chunkType = CHUNK_TYPE_SUB) then
      do fh' <- sweepFullHashes lookup (Iterator fh) fh;
      Ok (hpl', Delete lk lookup, fh')
    else Ok (hpl', lk, fh).

Fixpoint applyHashes (chunkType : ChunkType) (hashLen : Z) (hostHash : HostHash)
  (hashes : list LookupHash) (st : Z * hattrie_t * hattrie_t) : Res (Z * hattrie_t * hattrie_t) :=
  match hashes with
  | [] => Ok st
  | hash :: rest =>
      do st' <- applyHash chunkType hashLen hostHash hash st;
      applyHashes chunkType hashLen hostHash rest st'
  end.

Fixpoint applyHosts (chunkType : ChunkType) (hashLen : Z)
  (hosts : list (HostHash * list LookupHash)) (st : Z * hattrie_t * hattrie_t)
  : Res (Z * hattrie_t * hattrie_t) :=
  match hosts with
  | [] => Ok st
  | (hostHash, hashes) :: rest =>
      do st' <- applyHashes chunkType hashLen hostHash hashes st;
      applyHosts chunkType hashLen rest st'
  end.

(** [func (ssl *SafeBrowsingList) updateLookupMap(chunk *Chunk)] *)
Definition updateLookupMap (ssl : SafeBrowsingList) (chunk : Chunk) : Res SafeBrowsingList :=
  do st <- applyHosts (cChunkType chunk) (HashLen chunk) (Hashes chunk)
                      (HashPrefixLen ssl, Lookup ssl, FullHashes ssl);
  let '(hpl, lk, fh) := st in
  Ok (with_tries ssl hpl lk fh).

(** *** The journal on disk *)

(** The journal file as the gob decoder reads it: the chunks it decodes, in
    order, and the error that ends the stream, [io.EOF] for an intact
    journal and anything else for a corrupt one. *)
Record Journal : Type := mkJournal {
  records : list Chunk;
  ending : error
}.

(** [dat] is the file [ssl.FileName] ([None]: it cannot be opened), [tmp]
    its sibling [ssl.FileName + ".tmp"] with the chunks encoded so far. *)
Record Disk : Type := mkDisk {
  dat : option Journal;
  tmp : option (list Chunk)
}.

(** The failures the operating system may answer with: of [os.Create], of
    the n-th [enc.Encode], of [os.Remove] and of [os.Rename]. *)
Record Faults : Type := mkFaults {
  create_err : option error;
  encode_err : nat -> option error;
  remove_err : option error;
  rename_err : option error
}.

Definition no_faults : Faults := mkFaults None (fun _ => None) None None.

(** How a call of [load] ends, and what it leaves behind. *)
Inductive status : Type :=
| Returned (err : option error)
| Panicked (why : string).

Record LoadOut : Type := mkOut {
  out_status : status;
  out_disk : Disk;
  out_ssl : SafeBrowsingList
}.

(** The locals of [load] that its two loops update. *)
Record Acc : Type := mkAcc {
  a_ssl : SafeBrowsingList;
  a_tmp : list Chunk;
  addChunkIndexes : gmap ChunkNum bool;
  subChunkIndexes : gmap ChunkNum bool
}.

Inductive Step : Type :=
| Continue (a : Acc)
| Stop (st : status) (a : Acc).

(** [_, exists := ssl.DeleteChunks[chunk.ChunkType][chunk.ChunkNum]] *)
Definition isDeleted (ssl : SafeBrowsingList) (chunk : Chunk) : bool :=
  match DeleteChunks ssl !! cChunkType chunk with
  | Some m => bool_decide (is_Some (m !! cChunkNum chunk))
  | None => false
  end.

(** The body shared by the two loops of [load]: skip a chunk marked for
    deletion, otherwise encode it into the [.tmp] file, note its number and
    apply it to the tries.  (The counters that only feed the log line are
    left out.) *)
Definition keepChunk (io : Faults) (a : Acc) (chunk : Chunk) : Step :=
  if isDeleted (a_ssl a) chunk then Continue a
  else
    match encode_err io (length (a_tmp a)) with
    | Some e => Stop (Returned (Some e)) a
    | None =>
        let tmp' := a_tmp a ++ [chunk] in
        let add' := if decide (cChunkType chunk = CHUNK_TYPE_ADD)
                    then <[cChunkNum chunk := true]> (addChunkIndexes a)
                    else addChunkIndexes a in
        let sub' := if decide (cChunkType chunk = CHUNK_TYPE_SUB)
                    then <[cChunkNum chunk := true]> (subChunkIndexes a)
                    else subChunkIndexes a in
        match updateLookupMap (a_ssl a) chunk with
        | Ok ssl' => Continue (mkAcc ssl' tmp' add' sub')
        | Err e => Stop (Returned (Some e)) (mkAcc (a_ssl a) tmp' add' sub')
        | Panic w => Stop (Panicked w) (mkAcc (a_ssl a) tmp' add' sub')
        end
    end.

Fixpoint keepChunks (io : Faults) (a : Acc) (chunks : list Chunk) : Step :=
  match chunks with
  | [] => Continue a
  | chunk :: rest =>
      match keepChunk io a chunk with
      | Continue a' => keepChunks io a' rest
      | Stop st a' => Stop st a'
      end
  end.

(** The first loop: replay the journal until [dec.Decode] fails, and give
    up unless it failed with [io.EOF]. *)
Definition replayJournal (io : Faults) (a : Acc) (j : Journal) : Step :=
  match keepChunks io a (records j) with
  | Continue a' =>
      if decide (ending j = EOF) then Continue a'
      else Stop (Returned (Some (ending j))) a'
  | Stop st a' => Stop st a'
  end.

Definition with_ranges (ssl : SafeBrowsingList) (add sub : gmap ChunkNum bool) : SafeBrowsingList :=
  mkList (Name ssl) (FileName ssl) (DataRedirects ssl)
         ∅
         (<[CHUNK_TYPE_SUB := Range.buildChunkRanges sub]>
            (<[CHUNK_TYPE_ADD := Range.buildChunkRanges add]> ∅))
         (HashPrefixLen ssl) (Lookup ssl) (FullHashRequested ssl) (FullHashes ssl).

(** The tail of [load]: close the files, remove the old journal, rename
    the [.tmp] file over it, publish the ranges and clear [DeleteChunks]. *)
Definition commit (io : Faults) (d : Disk) (a : Acc) : LoadOut :=
  let written := Some (a_tmp a) in
  match dat d, remove_err io with
  | Some _, Some e => mkOut (Returned (Some e)) (mkDisk (dat d) written) (a_ssl a)
  | _, _ =>
      match rename_err io with
      | Some e => mkOut (Returned (Some e)) (mkDisk None written) (a_ssl a)
      | None =>
          mkOut (Returned None)
                (mkDisk (Some (mkJournal (a_tmp a) EOF)) None)
                (with_ranges (a_ssl a) (addChunkIndexes a) (subChunkIndexes a))
      end
  end.

(** [func (ssl *SafeBrowsingList) load(newChunks []*Chunk) (err error)].
    The write lock is taken on entry and released on every return. *)
Definition load (io : Faults) (d : Disk) (ssl : SafeBrowsingList) (newChunks : list Chunk)
  : LoadOut :=
  match create_err io with
  | Some e => mkOut (Returned (Some (Errorf "Error opening file"))) d ssl
  | None =>
      let a0 := mkAcc ssl [] ∅ ∅ in
      let replay := match dat d with
                    | Some j => replayJournal io a0 j
                    | None => Continue a0
                    end in
      match replay with
      | Stop st a => mkOut st (mkDisk (dat d) (Some (a_tmp a))) (a_ssl a)
      | Continue a1 =>
          match keepChunks io a1 newChunks with
          | Stop st a => mkOut st (mkDisk (dat d) (Some (a_tmp a))) (a_ssl a)
          | Continue a2 => commit io d a2
          end
      end
  end.

(** [ssl.ChunkRanges[kind]], the empty string when the kind has none. *)
Definition rangesOf (ssl : SafeBrowsingList) (kind : ChunkType) : string :=
  default ""%string (ChunkRanges ssl !! kind).

(** The hashes of a chunk in the order [updateLookupMap] visits them. *)
Record Entry : Type := mkEntry {
  eType : ChunkType;
  eHashLen : Z;
  eHost : HostHash;
  eHash : LookupHash
}.

Definition entriesOf (chunk : Chunk) : list Entry :=
  flat_map (fun hh => map (mkEntry (cChunkType chunk) (HashLen chunk) (fst hh)) (snd hh))
           (Hashes chunk).

Definition applyEntry (st : Z * hattrie_t * hattrie_t) (e : Entry)
  : Res (Z * hattrie_t * hattrie_t) :=
  applyHash (eType e) (eHashLen e) (eHost e) (eHash e) st.

Fixpoint applyEntries (es : list Entry) (st : Z * hattrie_t * hattrie_t)
  : Res (Z * hattrie_t * hattrie_t) :=
  match es with
  | [] => Ok st
  | e :: rest => do st' <- applyEntry st e; applyEntries rest st'
  end.

(** The chunks of a list that are not marked for deletion. *)
Definition keptOf (ssl : SafeBrowsingList) (cs : list Chunk) : list Chunk :=
  filter (fun c => isDeleted ssl c = false) cs.

(** The chunks a [load] keeps: those of the journal and the new ones whose
    kind and number are not in [DeleteChunks]. *)
Definition survivors (ssl : SafeBrowsingList) (d : Disk) (newChunks : list Chunk) : list Chunk :=
  keptOf ssl (match dat d with Some j => records j | None => [] end ++ newChunks).

(** Some chunk of the list has this kind and number. *)
Definition numbered (kind : ChunkType) (n : ChunkNum) (cs : list Chunk) : Prop :=
  exists c, c ∈ cs /\ cChunkType c = kind /\ cChunkNum c = n.

(** *** The chunks of the scenarios of [safebrowsinglist_test.go] *)

Definition chunkAdd1 : Chunk :=
  mkChunk 1%N CHUNK_TYPE_ADD 4 0 [(b "test", [b "test"; b "1234"])] [].

Definition chunkSub1 : Chunk :=
  mkChunk 1%N CHUNK_TYPE_SUB 4 0 [(b "test", [b "test"])] [].

Definition chunkAdd2 : Chunk :=
  mkChunk 2%N CHUNK_TYPE_ADD 32 0
    [(b "test", [b "test1234123412341234123412341234";
                 b "12341234123412341234123412341234"])] [].

Definition chunkSub2 : Chunk :=
  mkChunk 2%N CHUNK_TYPE_SUB 4 0 [(b "test", [b "test"; b "1234"])] [].

Definition emptyDisk : Disk := mkDisk None None.

Definition freshList : SafeBrowsingList := newSafeBrowsingList "test" "test.dat".

(** A journal whose second record cannot be decoded. *)
Definition corruptJournal : Journal :=
  mkJournal [chunkAdd1] (ExtErr "unexpected EOF").

(** The state of scenario 3: both ADD and both SUB chunks in the journal,
    ADD 1, SUB 1 and SUB 2 marked for deletion. *)
Definition scenario3Disk : Disk :=
  mkDisk (Some (mkJournal [chunkAdd1; chunkSub1; chunkAdd2; chunkSub2] EOF)) None.

Definition scenario3List : SafeBrowsingList :=
  mkList "test" "test.dat" []
         (<[CHUNK_TYPE_SUB := <[2%N := true]> (<[1%N := true]> ∅)]>
            (<[CHUNK_TYPE_ADD := <[1%N := true]> ∅]> ∅))
         ∅ 4 NewTrie NewTrie NewTrie.

(** The part of a list that [updateLookupMap] works on. *)
Definition tries (ssl : SafeBrowsingList) : Z * hattrie_t * hattrie_t :=
  (HashPrefixLen ssl, Lookup ssl, FullHashes ssl).

(** The slots of a trie, as [Next] reads them back. *)
Definition keysOf (t : hattrie_t) : list bytes := map fst t.

(** No slot of the trie reads back as the empty string, the value by which
    [Next] signals the end of the iteration. *)
Definition noEmptyKey (t : hattrie_t) : Prop :=
  Forall (fun s => cstring s <> []) (keysOf t).

(** The entry adds a full hash, under a key that is not empty for the C
    side. *)
Definition addsFullHash (e : Entry) : Prop :=
  eType e = CHUNK_TYPE_ADD /\ len (eHash e) = 32.

Definition entryKey (e : Entry) : bytes := eHost e ++ eHash e.

Definition keyNotEmpty (e : Entry) : Prop :=
  addsFullHash e -> cstring (entryKey e) <> [].

(** The entry puts the key [k] (back) into the full-hash trie. *)
Definition addsFullHashKey (k : bytes) (e : Entry) : Prop :=
  addsFullHash e /\ cstring (entryKey e) = cstring k.

(** The entry puts the key [k] (back) into the prefix trie. *)
Definition addsPrefixKey (k : bytes) (e : Entry) : Prop :=
  eType e = CHUNK_TYPE_ADD /\ len (eHash e) <> 32 /\ cstring (entryKey e) = cstring k.

End ListEngine.

(** ** The chunk codec ([chunk.go]) *)

Module ChunkCodec.

(** Go [int] is taken to be 64 bits wide; [addi] is its addition. *)
Definition wrap64 (z : Z) : Z := (z + 2 ^ 63) mod 2 ^ 64 - 2 ^ 63.
Definition addi (x y : Z) : Z := wrap64 (x + y).

(** *** What the codec uses of [strings], [strconv] and [bufio] *)

Definition byteVal (c : ascii) : Z := Z.of_N (N_of_ascii c).

(** The ASCII white space [strings.TrimSpace] removes (the multi-byte
    Unicode spaces are not modelled). *)
Definition isSpace (c : ascii) : bool :=
  let n := byteVal c in
  ((9 <=? n) && (n <=? 13)) || (n =? 32).

Fixpoint trimLeft (s : bytes) : bytes :=
  match s with
  | [] => []
  | c :: rest => if isSpace c then trimLeft rest else s
  end.

Definition TrimSpace (s : bytes) : bytes :=
  rev (trimLeft (rev (trimLeft s))).

(** [strings.Split(s, sep)] for a one-byte separator. *)
Fixpoint Split (sep : ascii) (s : bytes) : list bytes :=
  match s with
  | [] => [[]]
  | c :: rest =>
      if decide (c = sep) then [] :: Split sep rest
      else match Split sep rest with
           | [] => [[c]]
           | p :: ps => (c :: p) :: ps
           end
  end.

Definition digitVal (c : ascii) : option Z :=
  let n := byteVal c in
  if (48 <=? n) && (n <=? 57) then Some (n - 48) else None.

Fixpoint digitsVal (acc : Z) (s : bytes) : option Z :=
  match s with
  | [] => Some acc
  | c :: rest =>
      match digitVal c with
      | Some d => digitsVal (acc * 10 + d) rest
      | None => None
      end
  end.

(** [strconv.ParseUint(s, 10, bitSize)] *)
Definition ParseUint (s : bytes) (bitSize : Z) : Res Z :=
  match s with
  | [] => Err (ExtErr "strconv.ParseUint: invalid syntax")
  | _ =>
      match digitsVal 0 s with
      | None => Err (ExtErr "strconv.ParseUint: invalid syntax")
      | Some v =>
          if v <? 2 ^ bitSize then Ok v
          else Err (ExtErr "strconv.ParseUint: value out of range")
      end
  end.

Definition inInt (v : Z) : bool := (- 2 ^ 63 <=? v) && (v <? 2 ^ 63).

Definition parseDigits (neg : bool) (s : bytes) : Res Z :=
  match s with
  | [] => Err (ExtErr "strconv.Atoi: invalid syntax")
  | _ =>
      match digitsVal 0 s with
      | None => Err (ExtErr "strconv.Atoi: invalid syntax")
      | Some v =>
          let v' := if neg then - v else v in
          if inInt v' then Ok v'
          else Err (ExtErr "strconv.Atoi: value out of range")
      end
  end.

(** [strconv.Atoi(s)] *)
Definition Atoi (s : bytes) : Res Z :=
  match s with
  | c :: rest =>
      if decide (c = "-"%char) then parseDigits true rest
      else if decide (c = "+"%char) then parseDigits false rest
      else parseDigits false s
  | [] => parseDigits false s
  end.

(** A [bufio.Reader] over a finite input: the bytes not yet consumed. *)
Definition Reader := bytes.

Fixpoint readUntil (delim : ascii) (buf : Reader) : option (bytes * Reader) :=
  match buf with
  | [] => None
  | c :: rest =>
      if decide (c = delim) then Some ([c], rest)
      else match readUntil delim rest with
           | Some (line, rest') => Some (c :: line, rest')
           | None => None
           end
  end.

(** [buf.ReadString(delim)]: the bytes up to and including the delimiter,
    or what is left together with [io.EOF]. *)
Definition ReadString (delim : ascii) (buf : Reader) : bytes * option error * Reader :=
  match readUntil delim buf with
  | Some (line, rest) => (line, None, rest)
  | None => (buf, Some EOF, [])
  end.

Definition newline : ascii := "010"%char.

(** *** [chunk.go] *)

Definition with_Hashes (c : Chunk) (hs : list (HostHash * list LookupHash)) : Chunk :=
  mkChunk (cChunkNum c) (cChunkType c) (HashLen c) (ChunkLen c) hs (AddChunkNums c).

Definition with_AddChunkNums (c : Chunk) (ns : list (HostHash * list N)) : Chunk :=
  mkChunk (cChunkNum c) (cChunkType c) (HashLen c) (ChunkLen c) (Hashes c) ns.

(** [append(m[k], v)] stored back under [k]. *)
Definition appendTo {V} (m : list (bytes * list V)) (k : bytes) (v : V) : list (bytes * list V) :=
  aset m k (default [] (aget m k) ++ [v]).

(** [func parseChunkHeader(header string)], returning a chunk or an error *)
Definition parseChunkHeader (header : bytes) : Res Chunk :=
  let header := TrimSpace header in
  let headerParts := Split ":"%char header in
  match headerParts with
  | [kind; num; hlen; clen] =>
      match ParseUint num 32 with
      | Ok chunkNum =>
          match Atoi hlen with
          | Ok hashLen =>
              match Atoi clen with
              | Ok chunkLen =>
                  Ok (mkChunk (Z.to_N chunkNum) (string_of_list_ascii kind)
                              hashLen chunkLen [] [])
              | _ => Err (Errorf "Bad chunklen")
              end
          | _ => Err (Errorf "Bad hash len.")
          end
      | _ => Err (Errorf "Bad chunk num.")
      end
  | _ => Err (Errorf "Unexpected header")
  end.

(** [func readSlice(buf *bufio.Reader, numBytes int) (out []byte, err error)]:
    [make([]byte, 0, numBytes)] panics on a negative capacity; the loop then
    reads until [numBytes] bytes are there or the input ends, which for a
    finite input is [io.EOF] exactly when fewer bytes are left. *)
Definition readSlice (buf : Reader) (numBytes : Z) : Res (bytes * Reader) :=
  if numBytes <? 0 then Panic "makeslice: cap out of range"
  else
    let n := Z.to_nat numBytes in
    if (n <=? length buf)%nat then Ok (take n buf, drop n buf)
    else Err EOF.

Fixpoint bigEndian (acc : N) (bs : bytes) : N :=
  match bs with
  | [] => acc
  | c :: rest => bigEndian (acc * 256 + N_of_ascii c)%N rest
  end.

(** [func readChunkNumber(chunkBytes []byte, x int) (uint32, error)] *)
Definition readChunkNumber (chunkBytes : bytes) (x : Z) : Res N :=
  do addChunkNumBytes <- slice chunkBytes x (addi x 4);
  Ok (bigEndian 0 addChunkNumBytes).

Definition unexpectedEnd : error := Errorf "Unexpected end of chunk".

(** The origin add-chunk number in front of an entry of a SUB chunk. *)
Definition readAddChunkNum (chunk : Chunk) (chunkBytes : bytes) (hostKey : HostHash) (x : Z)
  : Res (Chunk * Z) :=
  if decide (cChunkType chunk = CHUNK_TYPE_SUB) then
    if addi x 4 >? len chunkBytes then Err unexpectedEnd
    else
      do addChunkNum <- readChunkNumber chunkBytes x;
      Ok (with_AddChunkNums chunk (appendTo (AddChunkNums chunk) hostKey addChunkNum),
          addi x 4)
  else Ok (chunk, x).

(** [for y := uint(0); y < count; y++ { ... }] *)
Fixpoint readEntries (count : nat) (chunk : Chunk) (chunkBytes : bytes) (hostKey : HostHash)
  (x : Z) : Res (Chunk * Z) :=
  match count with
  | O => Ok (chunk, x)
  | S count' =>
      do cx <- readAddChunkNum chunk chunkBytes hostKey x;
      let '(chunk1, x1) := cx in
      if addi x1 (HashLen chunk1) >? len chunkBytes then Err unexpectedEnd
      else
        do prefix <- slice chunkBytes x1 (addi x1 (HashLen chunk1));
        readEntries count'
          (with_Hashes chunk1 (appendTo (Hashes chunk1) hostKey prefix))
          chunkBytes hostKey (addi x1 (HashLen chunk1))
  end.

(** One turn of the loop of [ReadChunk]: the host-record at offset [x]. *)
Definition readHostRecord (chunk : Chunk) (chunkBytes : bytes) (x : Z) : Res (Chunk * Z) :=
  if addi x 4 >? len chunkBytes then Err unexpectedEnd
  else
    do hostKey <- slice chunkBytes x (addi x 4);
    let x := addi x 4 in
    let chunk :=
      match aget (Hashes chunk) hostKey with
      | Some _ => chunk
      | None =>
          let chunk' := with_Hashes chunk (aset (Hashes chunk) hostKey []) in
          if decide (cChunkType chunk = CHUNK_TYPE_SUB)
          then with_AddChunkNums chunk' (aset (AddChunkNums chunk') hostKey [])
          else chunk'
      end in
    if x >? len chunkBytes then Err unexpectedEnd
    else
      do countByte <- index chunkBytes x;
      let count := byteVal countByte in
      let x := addi x 1 in
      if count =? 0 then
        let chunk := with_Hashes chunk (appendTo (Hashes chunk) hostKey hostKey) in
        readAddChunkNum chunk chunkBytes hostKey x
      else readEntries (Z.to_nat count) chunk chunkBytes hostKey x.

(** [for x := 0; x < chunk.ChunkLen; { ... }].  Every turn moves [x]
    forward, so [fuel] turns are enough when [fuel] is at least
    [ChunkLen]. *)
Fixpoint readRecords (fuel : nat) (chunk : Chunk) (chunkBytes : bytes) (x : Z) : Res Chunk :=
  if x <? ChunkLen chunk then
    match fuel with
    | O => Panic "readRecords: out of fuel"
    | S fuel' =>
        do cx <- readHostRecord chunk chunkBytes x;
        readRecords fuel' (fst cx) chunkBytes (snd cx)
    end
  else Ok chunk.

(** [func ReadChunk(buf *bufio.Reader) (chunk *Chunk, err error)] *)
Definition ReadChunk (buf : Reader) : Res (Chunk * Reader) :=
  let '(header, err, buf1) := ReadString newline buf in
  match err with
  | Some e => Err e
  | None =>
      do hdr <- slice header 0 (len header - 1);
      do chunk <- parseChunkHeader hdr;
      match readSlice buf1 (ChunkLen chunk) with
      | Ok (chunkBytes, buf2) =>
          do chunk' <- readRecords (Z.to_nat (ChunkLen chunk)) chunk chunkBytes 0;
          Ok (chunk', buf2)
      | Err e => Err (Errorf "Unexpected end of chunk")
      | Panic w => Panic w
      end
  end.

(** [make([]T, 0, n)] *)
Definition makeCap (n : Z) : Res unit :=
  if n <? 0 then Panic "makeslice: cap out of range" else Ok tt.

(** [for x := 0; x < chunkLen/chunk.HashLen; x++ { ... }] *)
Fixpoint readFullHashes (count : nat) (x : Z) (respBytes : bytes) (acc : list LookupHash)
  : Res (list LookupHash) :=
  match count with
  | O => Ok acc
  | S count' =>
      let startByte := x * 32 in
      if startByte + 32 >? len respBytes then Err unexpectedEnd
      else
        do hashResp <- slice respBytes startByte (startByte + 32);
        readFullHashes count' (x + 1) respBytes (acc ++ [hashResp])
  end.

(** [func ReadFullHashChunk(buf *bufio.Reader, host HostHash) (chunk *Chunk, err error)] *)
Definition ReadFullHashChunk (buf : Reader) (host : HostHash) : Res (Chunk * Reader) :=
  let '(header, _, buf1) := ReadString newline buf in
  if len header =? 0 then Err EOF
  else
    let bits := Split ":"%char (TrimSpace header) in
    do bits1 <- index bits 1;
    match ParseUint bits1 32 with
    | Ok chunkNum64 =>
        do bits2 <- index bits 2;
        match Atoi bits2 with
        | Ok chunkLen =>
            do _ <- makeCap (Z.quot chunkLen 32);
            do rb <- readSlice buf1 chunkLen;
            let '(respBytes, buf2) := rb in
            do hashes <- readFullHashes (Z.to_nat (Z.quot chunkLen 32)) 0 respBytes [];
            Ok (mkChunk (Z.to_N chunkNum64) CHUNK_TYPE_ADD 32 chunkLen [(host, hashes)] [],
                buf2)
        | Err e => Err e
        | Panic w => Panic w
        end
    | Err e => Err e
    | Panic w => Panic w
    end.

(** The panics of the readers are those of Go's slicing and indexing. *)
Definition goPanic (w : string) : Prop :=
  w = "slice bounds out of range"%string \/ w = "index out of range"%string.

(** *** The inputs of [chunk_test.go] and of the claims *)

Definition hostOnes : bytes := ["001"; "001"; "001"; "001"]%char.

(** The host-only ADD chunk: header [a:9:4:5], body [01 01 01 01 00]. *)
Definition hostOnlyAdd : bytes := b "a:9:4:5" ++ [newline] ++ hostOnes ++ ["000"%char].

(** A host-only SUB chunk with the origin add-chunk number 7. *)
Definition hostOnlySub : bytes :=
  b "s:9:4:9" ++ [newline] ++ hostOnes ++ ["000"; "000"; "000"; "000"; "007"]%char.

(** A chunk whose length field is negative. *)
Definition negativeChunkLen : bytes := b "a:9:4:-1" ++ [newline].

(** A chunk whose body ends right after a host key. *)
Definition missingCount : bytes := b "a:9:4:4" ++ [newline] ++ hostOnes.

(** A full-hash header line with two fields. *)
Definition twoFields : bytes := b "goog-malware-shavar:9" ++ [newline].

(** A full-hash header whose length field is negative. *)
Definition negativeFullHashLen : bytes := b "goog-malware-shavar:9:-32" ++ [newline].

End ChunkCodec.

(** ** The redirect list ([safebrowsing.go]) *)

Module Redirects.

Import ChunkCodec.

(** Modelled from the spec: [parseChunkRange] of [range.go] is not among
    the sources (its test [range_test.go] is).  The specification: parse
    ["1-3,5,7-9"] into the set of chunk numbers it lists, the empty string
    into the empty set.  A piece whose bounds are in descending order
    contributes nothing. *)
Definition parseBound (s : bytes) : Res N :=
  match ParseUint s 32 with
  | Ok v => Ok (Z.to_N v)
  | Err e => Err e
  | Panic w => Panic w
  end.

Definition addRun (lo hi : N) (m : gmap ChunkNum bool) : gmap ChunkNum bool :=
  fold_right (fun i acc => <[(lo + N.of_nat i)%N := true]> acc) m
             (seq 0 (N.to_nat (hi + 1 - lo))).

Definition parsePiece (piece : bytes) (m : gmap ChunkNum bool) : Res (gmap ChunkNum bool) :=
  match Split "-"%char piece with
  | [single] => do n <- parseBound single; Ok (<[n := true]> m)
  | [first; last] =>
      do lo <- parseBound first;
      do hi <- parseBound last;
      Ok (addRun lo hi m)
  | _ => Err (Errorf "Invalid chunk range")
  end.

Fixpoint parsePieces (pieces : list bytes) (m : gmap ChunkNum bool) : Res (gmap ChunkNum bool) :=
  match pieces with
  | [] => Ok m
  | piece :: rest => do m' <- parsePiece piece m; parsePieces rest m'
  end.

Definition parseChunkRange (rangeString : bytes) : Res (gmap ChunkNum bool) :=
  match rangeString with
  | [] => Ok ∅
  | _ => parsePieces (Split ","%char rangeString) ∅
  end.

(** [bufio.ScanLines]: the lines of the input without their end-of-line
    marker; a last line needs no newline. *)
Definition dropCR (line : bytes) : bytes :=
  match rev line with
  | c :: rest => if decide (c = "013"%char) then rev rest else line
  | [] => line
  end.

Fixpoint scanLinesFrom (cur : bytes) (s : bytes) : list bytes :=
  match s with
  | [] => match cur with [] => [] | _ => [dropCR (rev cur)] end
  | c :: rest =>
      if decide (c = newline) then dropCR (rev cur) :: scanLinesFrom [] rest
      else scanLinesFrom (c :: cur) rest
  end.

Definition ScanLines (s : bytes) : list bytes := scanLinesFrom [] s.

(** [strings.SplitN(line, sep, 2)] *)
Definition SplitN2 (sep : ascii) (s : bytes) : list bytes :=
  match readUntil sep s with
  | Some (front, back) => [take (length front - 1) front; back]
  | None => [s]
  end.

(** A [map[ChunkType]map[ChunkNum]bool]. *)
Abbreviation DeleteMap := (gmap ChunkType (gmap ChunkNum bool)).

(** What [processRedirectList] touches of a [*SafeBrowsingList].  The field
    [DeleteChunks] is a Go map, a reference to a map object that several
    lists may share: it is kept as the address of the object in [heap]. *)
Record ListRef : Type := mkListRef {
  DataRedirects : list string;
  DeleteChunks : nat
}.

Record SafeBrowsing : Type := mkSB {
  UpdateDelay : Z;
  Lists : gmap string ListRef;
  heap : list DeleteMap
}.

Definition emptyDeletes : DeleteMap :=
  <[CHUNK_TYPE_SUB := ∅]> (<[CHUNK_TYPE_ADD := ∅]> ∅).

Definition nilDeref : string := "invalid memory address or nil pointer dereference".

(** [ss.Lists[name].DataRedirects = redirects; ss.Lists[name].DeleteChunks = deletes] *)
Definition saveList (ss : SafeBrowsing) (name : string) (redirects : list string)
  (deletes : nat) : Res SafeBrowsing :=
  match Lists ss !! name with
  | None => Panic nilDeref
  | Some _ =>
      Ok (mkSB (UpdateDelay ss) (<[name := mkListRef redirects deletes]> (Lists ss)) (heap ss))
  end.

(** [ss.Lists[name].DeleteChunks[kind] = numbers] *)
Definition setDeletes (ss : SafeBrowsing) (name : string) (kind : ChunkType)
  (numbers : gmap ChunkNum bool) : Res SafeBrowsing :=
  match Lists ss !! name with
  | None => Panic nilDeref
  | Some l =>
      match heap ss !! DeleteChunks l with
      | None => Panic "assignment to entry in nil map"
      | Some dm =>
          Ok (mkSB (UpdateDelay ss) (Lists ss)
                   (<[DeleteChunks l := <[kind := numbers]> dm]> (heap ss)))
      end
  end.

(** The locals of the loop; [currentList] is [None] for the nil slice.
    [currentDeletes] is the map allocated before the loop: the
    [currentDeletes := make(...)] of the case ["i"] declares a new variable
    in the scope of that case and leaves this one as it is. *)
Record Locals : Type := mkLocals {
  l_ss : SafeBrowsing;
  currentList : option (list string);
  currentDeletes : nat;
  currentListName : string
}.

Inductive Turn : Type :=
| Goes (l : Locals)
| Returns (r : Res SafeBrowsing).

Definition text (s : bytes) : string := string_of_list_ascii s.

(** [bits[1]] *)
Definition withArg (bits : list bytes) (k : bytes -> Turn) : Turn :=
  match index bits 1 with
  | Ok arg => k arg
  | Err e => Returns (Err e)
  | Panic w => Returns (Panic w)
  end.

Definition goesWith (l : Locals) (r : Res SafeBrowsing) : Turn :=
  match r with
  | Ok ss' => Goes (mkLocals ss' (currentList l) (currentDeletes l) (currentListName l))
  | Err e => Returns (Err e)
  | Panic w => Returns (Panic w)
  end.

(** One line of the redirect list.  [again] stands for [ss.reset()]
    followed by [ss.requestRedirectList()]. *)
Definition processLine (again : SafeBrowsing -> Res SafeBrowsing) (l : Locals) (line : bytes)
  : Turn :=
  let bits := SplitN2 ":"%char line in
  match bits with
  | [] => Returns (Panic "index out of range")
  | key :: _ =>
      if decide (key = b "r") then Returns (again (l_ss l))
      else if decide (key = b "i") then
        match (match currentList l with
               | Some redirects =>
                   saveList (l_ss l) (currentListName l) redirects (currentDeletes l)
               | None => Ok (l_ss l)
               end) with
        | Ok ss' =>
            withArg bits (fun arg =>
              Goes (mkLocals ss' (Some []) (currentDeletes l) (text arg)))
        | Err e => Returns (Err e)
        | Panic w => Returns (Panic w)
        end
      else if decide (key = b "u") then
        withArg bits (fun arg =>
          Goes (mkLocals (l_ss l)
                         (Some (default [] (currentList l) ++ [("http://" +:+ text arg)%string]))
                         (currentDeletes l) (currentListName l)))
      else if decide (key = b "n") then
        withArg bits (fun arg =>
          match Atoi arg with
          | Ok updateDelay =>
              Goes (mkLocals (mkSB updateDelay (Lists (l_ss l)) (heap (l_ss l)))
                             (currentList l) (currentDeletes l) (currentListName l))
          | Err e => Returns (Err (Errorf "Unable to parse timeout"))
          | Panic w => Returns (Panic w)
          end)
      else if decide (key = b "e") then
        withArg bits (fun arg =>
          Returns (Err (Errorf ("Error recieved from server: " +:+ text arg)%string)))
      else if decide (key = b "ad") then
        withArg bits (fun arg =>
          match parseChunkRange arg with
          | Ok addDeletes =>
              goesWith l (setDeletes (l_ss l) (currentListName l) CHUNK_TYPE_ADD addDeletes)
          | Err e => Returns (Err (Errorf "Error parsing delete add chunks range"))
          | Panic w => Returns (Panic w)
          end)
      else if decide (key = b "sd") then
        withArg bits (fun arg =>
          match parseChunkRange arg with
          | Ok subDeletes =>
              goesWith l (setDeletes (l_ss l) (currentListName l) CHUNK_TYPE_SUB subDeletes)
          | Err e => Returns (Err (Errorf "Error parsing delete sub chunks range"))
          | Panic w => Returns (Panic w)
          end)
      else Goes l
  end.

Fixpoint processLines (again : SafeBrowsing -> Res SafeBrowsing) (l : Locals)
  (lines : list bytes) : Turn :=
  match lines with
  | [] => Goes l
  | line :: rest =>
      match processLine again l line with
      | Goes l' => processLines again l' rest
      | Returns r => Returns r
      end
  end.

(** [func (ss *SafeBrowsing) processRedirectList(buf io.Reader) error]: the
    scanner hands out [lines] and ends with [scanErr]. *)
Definition processRedirectList (again : SafeBrowsing -> Res SafeBrowsing)
  (ss : SafeBrowsing) (lines : list bytes) (scanErr : option error) : Res SafeBrowsing :=
  let l0 := mkLocals (mkSB (UpdateDelay ss) (Lists ss) (heap ss ++ [emptyDeletes]))
                     None (length (heap ss)) "" in
  match processLines again l0 lines with
  | Returns r => r
  | Goes l =>
      do ss' <- saveList (l_ss l) (currentListName l)
                         (default [] (currentList l)) (currentDeletes l);
      match scanErr with
      | Some e => Err (Errorf "Unable to parse list response")
      | None => Ok ss'
      end
  end.

(** [ss.Lists[name].DeleteChunks[kind]], read through the reference. *)
Definition deleteChunksOf (ss : SafeBrowsing) (name : string) (kind : ChunkType)
  : option (gmap ChunkNum bool) :=
  match Lists ss !! name with
  | Some l =>
      match heap ss !! DeleteChunks l with
      | Some dm => dm !! kind
      | None => None
      end
  | None => None
  end.

Definition dataRedirectsOf (ss : SafeBrowsing) (name : string) : option (list string) :=
  match Lists ss !! name with
  | Some l => Some (DataRedirects l)
  | None => None
  end.

(** *** The redirect list of scenario 4 *)

Definition scenario4 : bytes :=
  b "n:1200" ++ [newline] ++
  b "i:phish" ++ [newline] ++
  b "u:cache.example/first" ++ [newline] ++
  b "u:cache.example/first_1" ++ [newline] ++
  b "sd:1,2" ++ [newline] ++
  b "i:malware" ++ [newline] ++
  b "u:cache.example/second" ++ [newline] ++
  b "ad:1-2,4-5,7" ++ [newline] ++
  b "sd:2-6".

(** Two lists as [newSafeBrowsingList] makes them, each with a
    [DeleteChunks] map of its own. *)
Definition twoLists : SafeBrowsing :=
  mkSB 0 (<["malware" := mkListRef [] 1]> (<["phish" := mkListRef [] 0]> ∅))
       [emptyDeletes; emptyDeletes].

Definition noReset (ss : SafeBrowsing) : Res SafeBrowsing := Ok ss.

Definition numbers (l : list N) : gmap ChunkNum bool :=
  fold_right (fun n acc => <[n := true]> acc) ∅ l.

End Redirects.

(** ** The lookup pipeline and the full-hash request engine *)

Module Query.

Import HatTrie.

(** Modelled from the spec: the constant [PREFIX_4B_SZ] is declared in a
    file that is not among the sources; the specification takes the
    prefix to be the first 4 bytes of the hash. *)
Definition PREFIX_4B_SZ : Z := 4.

(** Instants and durations are counted in nanoseconds, as [time.Duration]
    does. *)
Definition second : Z := 1000000000.
Definition minute : Z := 60 * second.

Record FullHashCache : Type := mkFullHashCache {
  CreationDate : Z;
  CacheLifeTime : Z
}.

Record SafeBrowsingList : Type := mkList {
  Lookup : hattrie_t;
  FullHashRequested : hattrie_t;
  FullHashes : hattrie_t;
  Cache : gmap bytes FullHashCache
}.

Record Response : Type := mkResponse {
  StatusCode : Z;
  Body : bytes;
  BodyErr : option string      (* the error of [ioutil.ReadAll(response.Body)] *)
}.

(** What the engine does towards the outside, in order: a [gethash]
    request handed to the transport for the prefixes of a list, together
    with the [FullHashRequested] trie of that list at that moment; a prefix
    marked as requested; a back-off task started with [go]; a request
    repeated by the back-off task. *)
Inductive Event : Type :=
| Requested (listName : string) (body : bytes) (prefixes : list LookupHash) (marked : hattrie_t)
| Marked (listName : string) (prefix : LookupHash)
| Spawned (url : string) (body : bytes)
| Retried (url : string) (body : bytes).

(** [Lists] is a Go map; the order of the association list is the order in
    which [range] visits it. *)
Record SafeBrowsing : Type := mkSB {
  Key : string;
  Client : string;
  AppVersion : string;
  ProtocolVersion : string;
  LastUpdated : Z;
  Lists : list (string * SafeBrowsingList);
  trace : list Event
}.

Definition with_Lists (sb : SafeBrowsing) (lists : list (string * SafeBrowsingList)) : SafeBrowsing :=
  mkSB (Key sb) (Client sb) (AppVersion sb) (ProtocolVersion sb) (LastUpdated sb)
       lists (trace sb).

Definition emit (sb : SafeBrowsing) (e : Event) : SafeBrowsing :=
  mkSB (Key sb) (Client sb) (AppVersion sb) (ProtocolVersion sb) (LastUpdated sb)
       (Lists sb) (trace sb ++ [e]).

Definition setList (sb : SafeBrowsing) (listName : string) (sbl : SafeBrowsingList) : SafeBrowsing :=
  with_Lists sb (aset (Lists sb) listName sbl).

(** The [gethash] requests a trace holds. *)
Definition isRequest (e : Event) : bool :=
  match e with
  | Requested _ _ _ _ | Retried _ _ => true
  | _ => false
  end.

Definition requestCount (sb : SafeBrowsing) : nat :=
  length (List.filter isRequest (trace sb)).

(** How a collaborator outside the sources ends: with a value, with an
    error it made up itself, or with a panic. *)
Inductive Ext (A : Type) : Type :=
| Done (a : A)
| Failed (msg : string)
| Crashed (why : string).

Arguments Done {A} a.
Arguments Failed {A} msg.
Arguments Crashed {A} why.

(** What a candidate scan of one list ends with: a hit, or the prefixes
    whose full hashes have to be asked for ([keysToLookupMap]). *)
Inductive Scan : Type :=
| Found (fullHashMatch : bool) (sbl : SafeBrowsingList)
| Missed (keysToLookupMap : list LookupHash) (sbl : SafeBrowsingList).

(** [keysToLookupMap[prefix] = true] *)
Definition addKey (keys : list LookupHash) (prefix : LookupHash) : list LookupHash :=
  if decide (prefix ∈ keys) then keys else keys ++ [prefix].

(** [response.StatusCode] through a [*http.Response] that may be nil. *)
Definition statusOf (response : option Response) : Res Z :=
  match response with
  | Some r => Ok (StatusCode r)
  | None => Panic "invalid memory address or nil pointer dereference"
  end.

(** [response.StatusCode = code] *)
Definition setStatus (response : option Response) (code : Z) : Res (option Response) :=
  match response with
  | Some r => Ok (Some (mkResponse code (Body r) (BodyErr r)))
  | None => Panic "invalid memory address or nil pointer dereference"
  end.

Section Pipeline.

(** The globals, the clock and the collaborators that are not among the
    sources: [Canonicalize] and [GenerateTestCandidates] of the URL
    canonicalizer, SHA-256, the transport [sb.request] (its first argument
    counts the requests made before) and [processFullHashes], which stores
    the answer of the server in the lists. *)
Variable OfflineMode : bool.
Variable now : Z.
Variable Canonicalize : bytes -> bytes.
Variable GenerateTestCandidates : bytes -> list bytes.
Variable getHash : bytes -> LookupHash.
Variable request : nat -> string -> bytes -> Response + string.
Variable processFullHashes :
  bytes -> list (string * SafeBrowsingList) -> Ext (list (string * SafeBrowsingList)).

(** [func (sb *SafeBrowsing) IsUpToDate() bool] *)
Definition IsUpToDate (sb : SafeBrowsing) : bool :=
  negb OfflineMode && (now - LastUpdated sb <? 45 * minute).

(** [func (fhc *FullHashCache) checkValidity() bool] *)
Definition checkValidity (fhc : FullHashCache) : bool :=
  now - CreationDate fhc <? ChunkCodec.wrap64 (CacheLifeTime fhc * second).

(** The eviction at the head of the candidate loop. *)
Definition evictStale (fullLookupHash lookupHash : bytes) (sbl : SafeBrowsingList)
  : SafeBrowsingList :=
  match Cache sbl !! fullLookupHash with
  | Some fhc =>
      if checkValidity fhc then sbl
      else mkList (Lookup sbl)
                  (Delete (FullHashRequested sbl) lookupHash)
                  (Delete (FullHashes sbl) fullLookupHash)
                  (delete fullLookupHash (Cache sbl))
  | None => sbl
  end.

(** [for _, url := range urls { ... }] of [queryUrl], for one list. *)
Fixpoint scanCandidates (matchFullHash : bool) (urls : list bytes) (sbl : SafeBrowsingList)
  (keysToLookupMap : list LookupHash) : Res Scan :=
  match urls with
  | [] => Ok (Missed keysToLookupMap sbl)
  | url :: rest =>
      let urlHash := getHash url in
      do prefix <- slice urlHash 0 PREFIX_4B_SZ;
      let sbl := evictStale urlHash prefix sbl in
      if Get (FullHashes sbl) urlHash then Ok (Found true sbl)
      else if Get (Lookup sbl) prefix then
        if negb matchFullHash || OfflineMode then Ok (Found false sbl)
        else if Get (FullHashRequested sbl) prefix
             then scanCandidates matchFullHash rest sbl keysToLookupMap
             else scanCandidates matchFullHash rest sbl (addKey keysToLookupMap prefix)
      else scanCandidates matchFullHash rest sbl keysToLookupMap
  end.

(** The first loop of [requestFullHashes]: the prefixes written one after
    the other, all of one length. *)
Fixpoint writePrefixes (prefixes : list LookupHash) (buf : bytes) (firstPrefixLen : Z)
  : Res (bytes * Z) :=
  match prefixes with
  | [] => Ok (buf, firstPrefixLen)
  | prefix :: rest =>
      let buf := buf ++ prefix in
      let firstPrefixLen := if firstPrefixLen =? 0 then len prefix else firstPrefixLen in
      if negb (firstPrefixLen =? len prefix)
      then Err (Errorf "Attempted to used variable length hashes in lookup!")
      else writePrefixes rest buf firstPrefixLen
  end.

Definition showZ (z : Z) : bytes := b (Range.show_N (Z.to_N z)).

Definition gethashBody (buf : bytes) (firstPrefixLen : Z) : bytes :=
  showZ firstPrefixLen ++ b ":" ++ showZ (len buf) ++ [ChunkCodec.newline] ++ buf.

Definition gethashUrl (sb : SafeBrowsing) : string :=
  ("https://safebrowsing.google.com/safebrowsing/gethash?client=" +:+ Client sb
   +:+ "&key=" +:+ Key sb +:+ "&appver=" +:+ AppVersion sb
   +:+ "&pver=" +:+ ProtocolVersion sb)%string.

(** [sb.Lists[list].FullHashRequested.Set(string(prefix))] for every
    prefix. *)
Fixpoint markRequested (sb : SafeBrowsing) (listName : string) (prefixes : list LookupHash)
  : Res SafeBrowsing :=
  match prefixes with
  | [] => Ok sb
  | prefix :: rest =>
      match aget (Lists sb) listName with
      | None => Panic "invalid memory address or nil pointer dereference"
      | Some sbl =>
          let sbl' := mkList (Lookup sbl) (Set_ (FullHashRequested sbl) prefix)
                             (FullHashes sbl) (Cache sbl) in
          markRequested (emit (setList sb listName sbl') (Marked listName prefix)) listName rest
      end
  end.

Definition markedOf (sb : SafeBrowsing) (listName : string) : hattrie_t :=
  match aget (Lists sb) listName with
  | Some sbl => FullHashRequested sbl
  | None => NewTrie
  end.

(** What [requestFullHashes] does with the answer of the server. *)
Definition handleResponse (sb : SafeBrowsing) (url : string) (body : bytes)
  (response : Response) : Res unit * SafeBrowsing :=
  if negb (StatusCode response =? 200) then
    if StatusCode response =? 503
    then (Err (Errorf "Service temporarily Unavailable"), emit sb (Spawned url body))
    else (Err (Errorf "Unable to lookup full hash, server returned an error"), sb)
  else
    match BodyErr response with
    | Some msg => (Err (ExtErr msg), sb)
    | None =>
        match processFullHashes (Body response) (Lists sb) with
        | Done lists => (Ok tt, with_Lists sb lists)
        | Failed msg => (Err (Errorf msg), sb)
        | Crashed why => (Panic why, sb)
        end
    end.

(** [func (sb *SafeBrowsing) requestFullHashes(list string, prefixes map[LookupHash]bool) error] *)
Definition requestFullHashes (sb : SafeBrowsing) (listName : string) (prefixes : list LookupHash)
  : Res unit * SafeBrowsing :=
  match prefixes with
  | [] => (Ok tt, sb)
  | _ =>
      match writePrefixes prefixes [] 0 with
      | Ok (buf, firstPrefixLen) =>
          let body := gethashBody buf firstPrefixLen in
          let url := gethashUrl sb in
          let sb1 := emit sb (Requested listName body prefixes (markedOf sb listName)) in
          match request (requestCount sb) url body with
          | inr msg => (Err (ExtErr msg), sb1)
          | inl response =>
              match markRequested sb1 listName prefixes with
              | Ok sb2 => handleResponse sb2 url body response
              | Err e => (Err e, sb1)
              | Panic why => (Panic why, sb1)
              end
          end
      | Err e => (Err e, sb)
      | Panic why => (Panic why, sb)
      end
  end.

(** The second look at the full hashes, after the request. *)
Definition recheck (sb : SafeBrowsing) (listName : string) (urls : list bytes) : bool :=
  match aget (Lists sb) listName with
  | Some sbl => existsb (fun url => Get (FullHashes sbl) (getHash url)) urls
  | None => false
  end.

(** [for list, sbl := range sb.Lists { ... }] of [queryUrl]; [names] are
    the lists still to visit. *)
Fixpoint queryLists (matchFullHash : bool) (urls : list bytes) (names : list string)
  (sb : SafeBrowsing) : Res (string * bool) * SafeBrowsing :=
  match names with
  | [] => (Ok (""%string, false), sb)
  | listName :: rest =>
      match aget (Lists sb) listName with
      | None => queryLists matchFullHash urls rest sb
      | Some sbl =>
          match scanCandidates matchFullHash urls sbl [] with
          | Ok (Found fullHashMatch sbl') => (Ok (listName, fullHashMatch), setList sb listName sbl')
          | Ok (Missed [] sbl') => queryLists matchFullHash urls rest (setList sb listName sbl')
          | Ok (Missed keysToLookupMap sbl') =>
              match requestFullHashes (setList sb listName sbl') listName keysToLookupMap with
              | (Ok _, sb') =>
                  if recheck sb' listName urls then (Ok (listName, true), sb')
                  else queryLists matchFullHash urls rest sb'
              | (Err e, sb') => (Err e, sb')
              | (Panic why, sb') => (Panic why, sb')
              end
          | Err e => (Err e, sb)
          | Panic why => (Panic why, sb)
          end
      end
  end.

(** [func (sb *SafeBrowsing) queryUrl(url string, matchFullHash bool)
    (list string, fullHashMatch bool, err error)] *)
Definition queryUrl (sb : SafeBrowsing) (url : bytes) (matchFullHash : bool)
  : Res (string * bool) * SafeBrowsing :=
  if matchFullHash && negb (IsUpToDate sb) then (Err ErrOutOfDateHashes, sb)
  else
    let url := Canonicalize url in
    let urls := GenerateTestCandidates url in
    queryLists matchFullHash urls (map fst (Lists sb)) sb.

(** [func (sb *SafeBrowsing) IsListed(url string) (list string, err error)] *)
Definition IsListed (sb : SafeBrowsing) (url : bytes) : Res string * SafeBrowsing :=
  match queryUrl sb url true with
  | (Ok (listName, _), sb') => (Ok listName, sb')
  | (Err e, sb') => (Err e, sb')
  | (Panic why, sb') => (Panic why, sb')
  end.

(** [func (sb *SafeBrowsing) MightBeListed(url string)
    (list string, fullHashMatch bool, err error)] *)
Definition MightBeListed (sb : SafeBrowsing) (url : bytes) : Res (string * bool) * SafeBrowsing :=
  queryUrl sb url false.

(** *** The back-off task *)

(** [for x := 0; response.StatusCode == 503; x++ { ... }]: [None] is
    returned when the task gives up after 480 minutes; the sleep is left
    out.  At most 17 turns pass before [mins] exceeds 480. *)
Fixpoint backOffLoop (fuel : nat) (randomFloat : Q) (url : string) (body : bytes)
  (x : Z) (response : option Response) (sb : SafeBrowsing)
  : Res (option Response) * SafeBrowsing :=
  match statusOf response with
  | Ok code =>
      if code =? 503 then
        match fuel with
        | O => (Panic "backOffLoop: out of fuel", sb)
        | S fuel' =>
            let mins := (30 * (randomFloat + 1) * inject_Z x + 1)%Q in
            if negb (Qle_bool mins 480) then (Ok None, sb)
            else
              let sb1 := emit sb (Retried url body) in
              match request (requestCount sb) url body with
              | inl r => backOffLoop fuel' randomFloat url body (x + 1) (Some r) sb1
              | inr _ => backOffLoop fuel' randomFloat url body (x + 1) None sb1
              end
        end
      else (Ok response, sb)
  | Err e => (Err e, sb)
  | Panic why => (Panic why, sb)
  end.

(** [func (sb *SafeBrowsing) doFullHashBackOffRequest(url string, body string)]:
    [retries] bounds the calls the function makes to itself when the
    answer cannot be processed. *)
Fixpoint doFullHashBackOffRequest (retries : nat) (randomFloat : Q) (sb : SafeBrowsing)
  (url : string) (body : bytes) : Res unit * SafeBrowsing :=
  let response : option Response := None in          (* var response *http.Response *)
  match setStatus response 503 with                  (* response.StatusCode = 503 *)
  | Ok response =>
      match backOffLoop 18 randomFloat url body 0 response sb with
      | (Ok (Some r), sb1) =>
          match processFullHashes (Body r) (Lists sb1) with
          | Done lists => (Ok tt, with_Lists sb1 lists)
          | Failed _ =>
              match retries with
              | O => (Panic "doFullHashBackOffRequest: out of fuel", sb1)
              | S retries' => doFullHashBackOffRequest retries' randomFloat sb1 url body
              end
          | Crashed why => (Panic why, sb1)
          end
      | (Ok None, sb1) => (Ok tt, sb1)
      | (Err e, sb1) => (Err e, sb1)
      | (Panic why, sb1) => (Panic why, sb1)
      end
  | Err e => (Err e, sb)
  | Panic why => (Panic why, sb)
  end.

End Pipeline.

(** *** The data of [TestUrlListed] *)

(** SHA-256 of ["test.com/"], the one candidate of ["http://test.com/"]. *)
Definition hashOfTestCom : bytes :=
  ["052"; "014"; "170"; "022"; "206"; "175"; "036"; "111";
   "164"; "175"; "063"; "000"; "227"; "049"; "009"; "209";
   "031"; "245"; "221"; "057"; "030"; "159"; "075"; "200";
   "023"; "183"; "106"; "115"; "253"; "036"; "093"; "203"]%char.

(** The collaborators as far as the URL ["http://test.com/"] needs them:
    it is canonical already, has the one candidate ["test.com/"], and that
    hashes to [hashOfTestCom]. *)
Definition canonicalizeTestCom (url : bytes) : bytes := url.

Definition candidatesTestCom (url : bytes) : list bytes :=
  if decide (url = b "http://test.com/") then [b "test.com/"] else [].

Definition hashTestCom (url : bytes) : LookupHash :=
  if decide (url = b "test.com/") then hashOfTestCom else repeat "000"%char 32.

(** A transport that cannot reach the server, and one that answers 200
    with an empty body. *)
Definition unreachable (n : nat) (url : string) (body : bytes) : Response + string :=
  inr "dial tcp: connection refused"%string.

Definition answers200 (n : nat) (url : string) (body : bytes) : Response + string :=
  inl (mkResponse 200 [] None).

Definition storesNothing (data : bytes) (lists : list (string * SafeBrowsingList))
  : Ext (list (string * SafeBrowsingList)) := Done lists.

(** One list whose prefix trie holds the prefix of ["test.com/"], updated
    at instant 0. *)
Definition phishList : SafeBrowsingList :=
  mkList (Set_ NewTrie (take 4 hashOfTestCom)) NewTrie NewTrie ∅.

Definition testClient : SafeBrowsing :=
  mkSB "key" "api" "1.0" "3.0" 0 [("googpub-phish-shavar"%string, phishList)] [].

End Query.

(** ** Further parts of the sources *)

(** [%d] of [fmt] for a Go [int]. *)
Definition showInt (z : Z) : string :=
  if z <? 0 then ("-" +:+ Range.show_N (Z.to_N (- z)))%string else Range.show_N (Z.to_N z).

(** [fmt.Errorf("Unexpected server response code: %d", response.StatusCode)] *)
Definition unexpectedCode (code : Z) : error :=
  Errorf ("Unexpected server response code: " +:+ showInt code)%string.

(** ** What a decoded chunk looks like *)

Module ChunkShape.

(** [chunk.Hashes[h]] and [chunk.AddChunkNums[h]], empty for a host the
    map does not hold. *)
Definition hashesOf (c : Chunk) (h : HostHash) : list LookupHash :=
  default [] (aget (Hashes c) h).

Definition addChunkNumsOf (c : Chunk) (h : HostHash) : list N :=
  default [] (aget (AddChunkNums c) h).

(** [c'] has the header fields of [c]. *)
Definition sameHeader (c c' : Chunk) : Prop :=
  cChunkNum c' = cChunkNum c /\ cChunkType c' = cChunkType c /\
  HashLen c' = HashLen c /\ ChunkLen c' = ChunkLen c.

(** The invariant of the loop of [ReadChunk]: host keys are 4 bytes long,
    an entry is the host key itself or has the hash length of the header,
    a SUB chunk holds one add-chunk number per entry, any other chunk
    none, and the numbers fit 32 bits. *)
Record wellFormed (c : Chunk) : Prop := mkWellFormed {
  wf_hashes : forall h hs, aget (Hashes c) h = Some hs ->
      len h = 4 /\ Forall (fun p => p = h \/ len p = HashLen c) hs;
  wf_paired : cChunkType c = CHUNK_TYPE_SUB ->
      forall h, length (addChunkNumsOf c h) = length (hashesOf c h);
  wf_add : cChunkType c <> CHUNK_TYPE_SUB -> AddChunkNums c = [];
  wf_nums : forall h ns, aget (AddChunkNums c) h = Some ns ->
      Forall (fun n => (n < 2 ^ 32)%N) ns
}.

(** The host-only SUB chunk of [ChunkCodec.hostOnlySub], decoded. *)
Definition hostOnlySubChunk : Chunk :=
  mkChunk 9%N CHUNK_TYPE_SUB 4 9
          [(ChunkCodec.hostOnes, [ChunkCodec.hostOnes])] [(ChunkCodec.hostOnes, [7%N])].



End ChunkShape.

(** ** What the entries of a chunk do to the prefix trie *)

Module Entries.

Import HatTrie ListEngine.

(** The entry subtracts the prefix key [k] from the prefix trie. *)
Definition subsPrefixKey (k : bytes) (e : Entry) : Prop :=
  eType e = CHUNK_TYPE_SUB /\ len (eHash e) <> 32 /\ cstring (entryKey e) = cstring k.

(** The entry carries a hash prefix, not a full hash. *)
Definition isPrefixEntry (e : Entry) : Prop := len (eHash e) <> 32.

(** A list that holds the prefixes of ADD chunk 1 in memory and in its
    journal, with that chunk marked for deletion. *)
Definition staleList : SafeBrowsingList :=
  mkList "test" "test.dat" []
         (<[CHUNK_TYPE_SUB := ∅]> (<[CHUNK_TYPE_ADD := <[1%N := true]> ∅]> ∅))
         ∅ 4 (Set_ (Set_ NewTrie (b "testtest")) (b "test1234")) NewTrie NewTrie.

Definition staleDisk : Disk := mkDisk (Some (mkJournal [chunkAdd1] EOF)) None.

End Entries.

(** ** Downloading the redirects ([safebrowsinglist.go]) *)

Module Downloads.

Import ChunkCodec ListEngine.

(** [for { chunk, err := ReadChunk(buf); ... newChunks = append(newChunks, chunk) }]
    of [loadDataFromRedirectLists]: chunks are read until [ReadChunk]
    fails, and [io.EOF] ends the loop quietly.  Every chunk read consumes
    its header line, so one turn more than the body has bytes is
    enough. *)
Fixpoint readChunks (fuel : nat) (buf : Reader) (newChunks : list Chunk) : Res (list Chunk) :=
  match ReadChunk buf with
  | Ok (chunk, buf') =>
      match fuel with
      | O => Panic "readChunks: out of fuel"
      | S fuel' => readChunks fuel' buf' (newChunks ++ [chunk])
      end
  | Err e => if decide (e = EOF) then Ok newChunks else Err e
  | Panic w => Panic w
  end.

(** [for _, url := range ssl.DataRedirects { ... }]; [request] stands for
    the package function [request(url, "", false)], which is not among
    the sources; the body of its response is a finite byte sequence. *)
Fixpoint fetchRedirects (request : string -> Query.Response + string) (urls : list string)
  (newChunks : list Chunk) : Res (list Chunk) :=
  match urls with
  | [] => Ok newChunks
  | url :: rest =>
      match request url with
      | inr msg => Err (ExtErr msg)
      | inl response =>
          if negb (Query.StatusCode response =? 200)
          then Err (unexpectedCode (Query.StatusCode response))
          else
            do newChunks' <- readChunks (S (length (Query.Body response)))
                                        (Query.Body response) newChunks;
            fetchRedirects request rest newChunks'
      end
  end.

(** [func (ssl *SafeBrowsingList) loadDataFromRedirectLists() error] *)
Definition loadDataFromRedirectLists (request : string -> Query.Response + string)
  (io : Faults) (d : Disk) (ssl : SafeBrowsingList) : LoadOut :=
  if len (DataRedirects ssl) <? 1 then mkOut (Returned None) d ssl
  else
    match fetchRedirects request (DataRedirects ssl) [] with
    | Ok newChunks => load io d ssl newChunks
    | Err e => mkOut (Returned (Some e)) d ssl
    | Panic w => mkOut (Panicked w) d ssl
    end.

(** A list with one pending redirect, and two servers: one that answers
    404, one that answers with the two host-only chunks of [chunk.go]'s
    tests, one after the other. *)
Definition pendingList : SafeBrowsingList :=
  mkList "test" "test.dat" ["http://cache.example/first"%string]
         (<[CHUNK_TYPE_SUB := ∅]> (<[CHUNK_TYPE_ADD := ∅]> ∅))
         ∅ 0 HatTrie.NewTrie HatTrie.NewTrie HatTrie.NewTrie.

Definition answers404 (url : string) : Query.Response + string :=
  inl (Query.mkResponse 404 [] None).

Definition hostOnlyAddChunk : Chunk :=
  mkChunk 9%N CHUNK_TYPE_ADD 4 5 [(hostOnes, [hostOnes])] [].

Definition answersTwoChunks (url : string) : Query.Response + string :=
  inl (Query.mkResponse 200 (hostOnlyAdd ++ hostOnlySub) None).

End Downloads.

(** ** Ordering hashes by length ([safebrowsing.go]) *)

Module HashOrder.

(** Go's [a[i]] and [a[i] = v] on a slice, for an index that is not
    negative. *)
Definition at_ {A} (a : list A) (i : nat) : Res A :=
  match a !! i with
  | Some x => Ok x
  | None => Panic "index out of range"
  end.

Definition assign {A} (a : list A) (i : nat) (v : A) : Res (list A) :=
  if (i <? length a)%nat then Ok (<[i := v]> a) else Panic "index out of range".

(** [for j >= 0 && len(a[j]) < len(value) { a[j+1] = a[j]; j = j - 1 }].
    The counter [n] is [j + 1], so that [j >= 0] reads: [n] is a
    successor; the loop hands back the slice and [j + 1]. *)
Fixpoint shiftShorter (a : list LookupHash) (value : LookupHash) (n : nat)
  : Res (list LookupHash * nat) :=
  match n with
  | O => Ok (a, O)
  | S j =>
      do aj <- at_ a j;
      if len aj <? len value then
        do a' <- assign a (S j) aj;
        shiftShorter a' value j
      else Ok (a, S j)
  end.

(** [for i := 1; i < len(a); i++ { ... }]: [todo] counts the turns left,
    [len(a) - i]; the loop does not change [len(a)]. *)
Fixpoint insertEach (todo : nat) (i : nat) (a : list LookupHash) : Res (list LookupHash) :=
  match todo with
  | O => Ok a
  | S todo' =>
      do value <- at_ a i;
      do r <- shiftShorter a value i;          (* j := i - 1 *)
      do a' <- assign (fst r) (snd r) value;   (* a[j+1] = value *)
      insertEach todo' (S i) a'
  end.

(** [func insertionSortHashLength(a []LookupHash)] *)
Definition insertionSortHashLength (a : list LookupHash) : Res (list LookupHash) :=
  insertEach (length a - 1) 1 a.

(** Longest first. *)
Definition notShorter (x y : LookupHash) : Prop := len y <= len x.

End HashOrder.

(** ** The list of lists ([safebrowsing.go]) *)

Module ListOfLists.

Import ChunkCodec ListEngine.

(** [var SupportedLists map[string]bool] *)
Definition SupportedLists : gmap string bool :=
  <["googpub-phish-shavar"%string := true]> (<["goog-malware-shavar"%string := true]> ∅).

(** What [processSafeBrowsingLists] touches of a [*SafeBrowsing]; [Lists]
    is the map that [NewSafeBrowsing] makes. *)
Record SafeBrowsing : Type := mkSB {
  Key : string;
  Client : string;
  AppVersion : string;
  DataDir : string;
  Lists : gmap string SafeBrowsingList
}.

(** The body of the loop: one line of the answer of the server. *)
Definition addList (ss : SafeBrowsing) (line : bytes) : SafeBrowsing :=
  let listName := string_of_list_ascii line in
  match SupportedLists !! listName with
  | None => ss
  | Some _ =>
      let fileName := (DataDir ss +:+ "/" +:+ listName +:+ ".dat")%string in
      let tmpList := newSafeBrowsingList listName fileName in
      mkSB (Key ss) (Client ss) (AppVersion ss) (DataDir ss) (<[listName := tmpList]> (Lists ss))
  end.

(** [func (ss *SafeBrowsing) processSafeBrowsingLists(body io.Reader) (err error)]:
    [readErr] is the error of [buf.ReadFrom(body)], if any. *)
Definition processSafeBrowsingLists (ss : SafeBrowsing) (body : bytes) (readErr : option string)
  : Res SafeBrowsing :=
  match readErr with
  | Some msg => Err (Errorf ("Unable to read list data: " +:+ msg)%string)
  | None => Ok (fold_left addList (Split newline (TrimSpace body)) ss)
  end.

Definition listUrl (ss : SafeBrowsing) : string :=
  ("http://safebrowsing.clients.google.com/safebrowsing/list?client=" +:+ Client ss
   +:+ "&apikey=" +:+ Key ss +:+ "&appver=" +:+ AppVersion ss +:+ "&pver=2.2")%string.

(** [func (ss *SafeBrowsing) requestSafeBrowsingLists() (err error)] *)
Definition requestSafeBrowsingLists (request : string -> bytes -> Query.Response + string)
  (ss : SafeBrowsing) : Res SafeBrowsing :=
  match request (listUrl ss) [] with
  | inr msg => Err (ExtErr msg)
  | inl listresp =>
      if negb (Query.StatusCode listresp =? 200)
      then Err (unexpectedCode (Query.StatusCode listresp))
      else processSafeBrowsingLists ss (Query.Body listresp) (Query.BodyErr listresp)
  end.

(** The lines of the answer, as list names. *)
Definition namesIn (body : bytes) : list string :=
  map string_of_list_ascii (Split newline (TrimSpace body)).

(** The client and the answer of [TestSafeBrowsingLists]. *)
Definition noLists : SafeBrowsing := mkSB "key" "api" "1.0" "data" ∅.

Definition answersLists (url : string) (body : bytes) : Query.Response + string :=
  inl (Query.mkResponse 200
         (b "googpub-phish-shavar" ++ [newline] ++ b "goog-malware-shavar") None).

End ListOfLists.

(** ** The lines of a redirect list *)

Module RedirectLines.

Import Redirects.

(** [bits[0]] of a line of the redirect list. *)
Definition lineKey (line : bytes) : option bytes := head (SplitN2 ":"%char line).

End RedirectLines.

(** ** The answer to a full-hash request ([processFullHashes]) *)

Module FullHashResponse.

Import HatTrie ChunkCodec Query.

(** Go [int] multiplication. *)
Definition muli (x y : Z) : Z := wrap64 (x * y).

(** [strings.IndexByte(s, c)] *)
Fixpoint IndexByte (s : bytes) (c : ascii) : Z :=
  match s with
  | [] => -1
  | d :: rest =>
      if decide (d = c) then 0
      else let i := IndexByte rest c in
           if i =? -1 then -1 else i + 1
  end.

(** [sb.Lists]: [None] is the nil map. *)
Definition ListsMap : Type := option (list (string * SafeBrowsingList)).

(** [func newFullHashCache(creationDate time.Time, cacheLifeTime int) (fch *FullHashCache)] *)
Definition newFullHashCache (creationDate : Z) (cacheLifeTime : Z) : FullHashCache :=
  mkFullHashCache creationDate cacheLifeTime.

(** [fmt.Errorf("Malformated response: %s", header)] *)
Definition malformated (header : bytes) : error :=
  Errorf ("Malformated response: " +:+ string_of_list_ascii header)%string.

Section Engine.

(** [time.Now()], taken to read the same instant throughout the call. *)
Variable now : Z.

(** [for i := 0; (i + hashlen) <= hasheslen; i += hashlen { ... }] of
    [readFullHashChunk]; every turn moves [i] forward by 32.  The [Cache]
    of a list is a map that has been made, as the lists of
    [safebrowsing_test.go] are. *)
Fixpoint storeHashes (fuel : nat) (lists : ListsMap) (hashes : bytes) (listName : string)
  (cacheLifeTime : Z) (i : Z) : Res unit * ListsMap :=
  if addi i 32 <=? len hashes then
    match fuel with
    | O => (Panic "storeHashes: out of fuel", lists)
    | S fuel' =>
        match slice hashes i (addi i 32) with
        | Ok hash =>
            match lists with
            | None =>
                (Err (Errorf "Google safe browsing lists have not been initialized"), lists)
            | Some ls =>
                match aget ls listName with
                | None =>
                    (Err (Errorf ("Google safe browsing list (" +:+ listName +:+
                                  ") have not been initialized")%string), lists)
                | Some sbl =>
                    let sbl' := mkList (Lookup sbl) (FullHashRequested sbl)
                                       (Set_ (FullHashes sbl) hash)
                                       (<[hash := newFullHashCache now cacheLifeTime]>
                                          (Cache sbl)) in
                    storeHashes fuel' (Some (aset ls listName sbl')) hashes listName
                                cacheLifeTime (addi i 32)
                end
            end
        | Err e => (Err e, lists)
        | Panic w => (Panic w, lists)
        end
    end
  else (Ok tt, lists).

(** [func (sb *SafeBrowsing) readFullHashChunk(hashes string, list string,
    cacheLifeTime int) (err error)] *)
Definition readFullHashChunk (lists : ListsMap) (hashes : bytes) (listName : string)
  (cacheLifeTime : Z) : Res unit * ListsMap :=
  if bool_decide (hashes = []) || bool_decide (listName = ""%string)
  then (Err (Errorf "Imcomplete data to readFullHashChunck()"), lists)
  else storeHashes (S (length hashes)) lists hashes listName cacheLifeTime 0.

(** [for resp := 0; resp < num_resp; resp++ { ... }]: the metadata records
    behind the hashes are skipped; [todo] counts the turns left and the
    result is [rec_len]. *)
Fixpoint skipMetadata (todo : nat) (data header : bytes) (pos rec_len : Z) : Res Z :=
  match todo with
  | O => Ok rec_len
  | S todo' =>
      do rest <- slice data (addi pos rec_len) (len data);
      let nl_pos := IndexByte rest newline in
      if -1 =? nl_pos
      then Err (Errorf "Malformated response: unable to parse metadata length")
      else
        do field <- slice data (addi pos rec_len) (addi (addi pos rec_len) nl_pos);
        do len_meta <- Atoi field;
        if addi (addi (addi pos rec_len) nl_pos) len_meta >? len data
        then Err (malformated header)
        else skipMetadata todo' data header pos (addi rec_len (addi (addi nl_pos 1) len_meta))
  end.

(** One turn of the loop of [processFullHashes]: the record at [pos]; the
    result is [rec_len].  The error of [readFullHashChunk] is assigned to
    the [err] that [num_resp, err := strconv.Atoi(...)] declares in the
    body of the loop, a variable nothing reads afterwards. *)
Definition processRecord (lists : ListsMap) (data : bytes) (cacheLifeTime pos : Z)
  : Res Z * ListsMap :=
  match
    (do rest <- slice data pos (len data);
     let nl_pos := IndexByte rest newline in
     if -1 =? nl_pos
     then Err (Errorf "Malformated response: unable to find end of header")
     else
       do header <- slice data pos (addi pos nl_pos);
       let rec_len := addi (addi pos nl_pos) 1 in
       let headerArray := Split ":"%char header in
       let headerRecCount := len headerArray in
       if negb (3 =? headerRecCount) && negb (4 =? headerRecCount)
       then Err (malformated header)
       else
         do field2 <- index headerArray 2;
         do num_resp <- Atoi field2;
         if 0 >=? num_resp then Err (malformated header)
         else if addi pos (muli num_resp 32) >? len data then Err (malformated header)
         else
           do hashes <- slice data (addi nl_pos 1) (addi (addi nl_pos 1) (muli num_resp 32));
           let rec_len := addi rec_len (muli num_resp 32) in
           do rec_len <-
             (if 4 =? headerRecCount then
                do field3 <- index headerArray 3;
                if negb (bool_decide (b "m" = field3)) then Err (malformated header)
                else skipMetadata (Z.to_nat num_resp) data header pos rec_len
              else Ok rec_len);
           do field0 <- index headerArray 0;
           Ok (rec_len, hashes, field0))
  with
  | Ok (rec_len, hashes, field0) =>
      match readFullHashChunk lists hashes (string_of_list_ascii field0) cacheLifeTime with
      | (Panic w, lists') => (Panic w, lists')
      | (_, lists') => (Ok rec_len, lists')
      end
  | Err e => (Err e, lists)
  | Panic w => (Panic w, lists)
  end.

(** [for pos, rec_len := 0, 0; pos < len(data); pos += rec_len { ... }]
    followed by [return err], where [err] is the variable of the function
    scope, nil at this point.  Nothing bounds the number of turns:
    [None] says that the loop is still running after [fuel] of them. *)
Fixpoint processRecords (fuel : nat) (lists : ListsMap) (data : bytes) (cacheLifeTime pos : Z)
  : option (Res unit * ListsMap) :=
  if pos <? len data then
    match fuel with
    | O => None
    | S fuel' =>
        match processRecord lists data cacheLifeTime pos with
        | (Ok rec_len, lists') =>
            processRecords fuel' lists' data cacheLifeTime (addi pos rec_len)
        | (Err e, lists') => Some (Err e, lists')
        | (Panic w, lists') => Some (Panic w, lists')
        end
    end
  else Some (Ok tt, lists).

(** [func (sb *SafeBrowsing) processFullHashes(data string) error] *)
Definition processFullHashes (fuel : nat) (lists : ListsMap) (data : bytes)
  : option (Res unit * ListsMap) :=
  let pos := IndexByte data newline in
  if -1 =? pos then Some (Ok tt, lists)
  else
    match (do field <- slice data 0 pos;
           do cacheLifeTime <- Atoi field;
           do data' <- slice data (addi pos 1) (len data);
           Ok (cacheLifeTime, data')) with
    | Ok (cacheLifeTime, data') => processRecords fuel lists data' cacheLifeTime 0
    | Err e => Some (Err e, lists)
    | Panic w => Some (Panic w, lists)
    end.

End Engine.

(** The named list is not there: [sb.Lists] is nil or has no such entry. *)
Definition missing (lists : ListsMap) (name : string) : Prop :=
  match lists with
  | None => True
  | Some ls => aget ls name = None
  end.

(** What storing the hashes [hs] at the instant [now] with the life time
    [L] has made of a list: the hashes are members of [FullHashes] and
    cached, and nothing else is lost. *)
Definition storedIn (now : Z) (hs : list LookupHash) (L : Z) (sbl sbl' : SafeBrowsingList)
  : Prop :=
  Lookup sbl' = Lookup sbl /\
  FullHashRequested sbl' = FullHashRequested sbl /\
  (forall h, h ∈ hs ->
     Get (FullHashes sbl') h = true /\ Cache sbl' !! h = Some (newFullHashCache now L)) /\
  (forall k, Get (FullHashes sbl) k = true -> Get (FullHashes sbl') k = true) /\
  (forall k, Cache sbl !! k = Some (newFullHashCache now L) ->
             Cache sbl' !! k = Some (newFullHashCache now L)).

(** *** Answers of the server *)

Definition hashAs : LookupHash := repeat "A"%char 32.
Definition hashBs : LookupHash := repeat "B"%char 32.

Definition emptyList : SafeBrowsingList := mkList NewTrie NewTrie NewTrie ∅.

Definition malwareOnly : list (string * SafeBrowsingList) :=
  [("goog-malware-shavar"%string, emptyList)].

(** One record with one hash, cached for 600 seconds. *)
Definition oneRecord : bytes :=
  b "600" ++ newline :: b "goog-malware-shavar:32:1" ++ newline :: concat [hashAs].

(** The same record with its last byte missing. *)
Definition cutRecord : bytes :=
  b "600" ++ newline :: b "goog-malware-shavar:32:1" ++ newline :: take 31 hashAs.

(** Two records with headers of the same length. *)
Definition twoRecords : bytes :=
  b "600" ++ newline :: b "goog-malware-shavar:32:1" ++ newline :: concat [hashAs]
    ++ b "goog-phish-shavar:0032:1" ++ newline :: concat [hashBs].

(** A record with metadata whose length field is negative. *)
Definition negativeMetadata : bytes :=
  b "600" ++ newline :: b "goog-malware-shavar:32:1:m" ++ newline :: hashAs
    ++ b "-63" ++ newline :: [].

End FullHashResponse.

(** * Properties *)

(** ** Byte strings *)

Lemma N_of_ascii_inj (c d : ascii) : N_of_ascii c = N_of_ascii d -> c = d.
Proof.
  intros H. rewrite <- (ascii_N_embedding c), <- (ascii_N_embedding d).
  now rewrite H.
Qed.

Lemma bytes_ltb_irrefl (x : bytes) : bytes_ltb x x = false.
Proof.
  induction x as [|c x IH]; simpl; [reflexivity|].
  rewrite N.ltb_irrefl, N.eqb_refl. exact IH.
Qed.

Lemma bytes_ltb_trans (x y z : bytes) :
  bytes_ltb x y = true -> bytes_ltb y z = true -> bytes_ltb x z = true.
Proof.
  revert y z. induction x as [|c x IH]; intros [|d y] [|e z]; simpl; try congruence.
  destruct (N.ltb_spec (N_of_ascii c) (N_of_ascii d)) as [Hcd|Hcd];
  destruct (N.ltb_spec (N_of_ascii d) (N_of_ascii e)) as [Hde|Hde];
  destruct (N.ltb_spec (N_of_ascii c) (N_of_ascii e)) as [Hce|Hce];
  try reflexivity; try lia;
  destruct (N.eqb_spec (N_of_ascii c) (N_of_ascii d));
  destruct (N.eqb_spec (N_of_ascii d) (N_of_ascii e));
  destruct (N.eqb_spec (N_of_ascii c) (N_of_ascii e));
  try congruence; try lia.
  apply IH.
Qed.

Lemma bytes_ltb_total (x y : bytes) :
  bytes_ltb x y = false -> x <> y -> bytes_ltb y x = true.
Proof.
  revert y. induction x as [|c x IH]; intros [|d y]; simpl; try congruence.
  destruct (N.ltb_spec (N_of_ascii c) (N_of_ascii d)) as [Hcd|Hcd]; [congruence|].
  destruct (N.ltb_spec (N_of_ascii d) (N_of_ascii c)) as [Hdc|Hdc]; [reflexivity|].
  assert (Heq : N_of_ascii c = N_of_ascii d) by lia.
  rewrite Heq, N.eqb_refl. apply N_of_ascii_inj in Heq. subst d.
  intros Hlt Hne. apply IH; [exact Hlt|]. congruence.
Qed.

(** ** The HAT-trie *)

Module HatTrieFacts.

Import HatTrie.

Lemma cstring_idem (k : bytes) : cstring (cstring k) = cstring k.
Proof.
  induction k as [|c k IH]; simpl; [reflexivity|].
  destruct (decide (c = NUL)) as [|Hc]; simpl; [reflexivity|].
  destruct (decide (c = NUL)); [contradiction|]. now rewrite IH.
Qed.

Lemma cstring_prefix (k : bytes) : cstring k `prefix_of` k.
Proof.
  induction k as [|c k IH]; simpl; [reflexivity|].
  destruct (decide (c = NUL)); [apply prefix_nil|]. now apply prefix_cons.
Qed.

Lemma cstring_app_nul_free (x y : bytes) :
  cstring x = x -> cstring (x ++ y) = x ++ cstring y.
Proof.
  induction x as [|c x IH]; simpl; [reflexivity|].
  destruct (decide (c = NUL)); [discriminate|].
  intros H. injection H as H. now rewrite IH.
Qed.

Lemma tryget_get_same (t : hattrie_t) (k : bytes) :
  is_Some (hattrie_tryget (hattrie_get t k) k).
Proof.
  induction t as [|[k' v] t IH]; simpl.
  - rewrite decide_True by reflexivity. eauto.
  - destruct (decide (k = k')) as [->|Hne]; simpl.
    + rewrite decide_True by reflexivity. eauto.
    + destruct (bytes_ltb k k'); simpl.
      * rewrite decide_True by reflexivity. eauto.
      * rewrite decide_False by exact Hne. exact IH.
Qed.

Lemma tryget_get_other (t : hattrie_t) (k k' : bytes) :
  k <> k' -> hattrie_tryget (hattrie_get t k) k' = hattrie_tryget t k'.
Proof.
  intros Hne. induction t as [|[k0 v] t IH]; simpl.
  - rewrite decide_False by congruence. reflexivity.
  - destruct (decide (k = k0)) as [->|Hk]; simpl; [reflexivity|].
    destruct (bytes_ltb k k0); simpl.
    + rewrite (decide_False (P := k' = k)) by congruence. reflexivity.
    + destruct (decide (k' = k0)); [reflexivity|exact IH].
Qed.

Lemma tryget_store_same (t : hattrie_t) (k : bytes) (v : value_t) :
  is_Some (hattrie_tryget t k) -> hattrie_tryget (store t k v) k = Some v.
Proof.
  induction t as [|[k' w] t IH]; simpl; intros [x Hx]; [discriminate|].
  destruct (decide (k = k')) as [->|Hne]; simpl.
  - now rewrite decide_True.
  - rewrite decide_False by exact Hne. apply IH. eauto.
Qed.

Lemma tryget_store_other (t : hattrie_t) (k k' : bytes) (v : value_t) :
  k <> k' -> hattrie_tryget (store t k v) k' = hattrie_tryget t k'.
Proof.
  intros Hne. induction t as [|[k0 w] t IH]; simpl; [reflexivity|].
  destruct (decide (k = k0)) as [->|Hk]; simpl.
  - rewrite !(decide_False (P := k' = k0)) by congruence. reflexivity.
  - destruct (decide (k' = k0)); [reflexivity|exact IH].
Qed.

Lemma Get_Set_same (t : hattrie_t) (k : bytes) : Get (Set_ t k) k = true.
Proof.
  unfold Get, Set_, C_get, C_set.
  rewrite tryget_store_same by apply tryget_get_same. reflexivity.
Qed.

Lemma Get_Delete_same (t : hattrie_t) (k : bytes) : Get (Delete t k) k = false.
Proof.
  unfold Get, Delete, C_get, C_delete.
  destruct (hattrie_tryget t (cstring k)) as [v|] eqn:E.
  - rewrite tryget_store_same by (rewrite E; eauto). reflexivity.
  - rewrite E. reflexivity.
Qed.

(** Whether two keys are the same key for the C side decides whether an
    operation on one is seen through the other. *)
Lemma Get_Set_other (t : hattrie_t) (k k' : bytes) :
  cstring k <> cstring k' -> Get (Set_ t k) k' = Get t k'.
Proof.
  intros Hne. unfold Get, Set_, C_get, C_set.
  now rewrite tryget_store_other, tryget_get_other.
Qed.

Lemma Get_Delete_other (t : hattrie_t) (k k' : bytes) :
  cstring k <> cstring k' -> Get (Delete t k) k' = Get t k'.
Proof.
  intros Hne. unfold Get, Delete, C_get, C_delete.
  destruct (hattrie_tryget t (cstring k)); [|reflexivity].
  now rewrite tryget_store_other.
Qed.

(** A deletion never makes a key present. *)
Lemma Get_Delete_true (t : hattrie_t) (k k' : bytes) :
  Get (Delete t k) k' = true -> Get t k' = true.
Proof.
  destruct (decide (cstring k = cstring k')) as [Heq|Hne].
  - unfold Get, Delete, C_get, C_delete. rewrite <- Heq.
    destruct (hattrie_tryget t (cstring k)) as [v|] eqn:E.
    + rewrite tryget_store_same by (rewrite E; eauto). discriminate.
    + now rewrite E.
  - now rewrite Get_Delete_other.
Qed.

Lemma keys_store (t : hattrie_t) (k : bytes) (v : value_t) :
  map fst (store t k v) = map fst t.
Proof.
  induction t as [|[k' w] t IH]; simpl; [reflexivity|].
  destruct (decide (k = k')); simpl; [reflexivity|now rewrite IH].
Qed.

Lemma keys_get (t : hattrie_t) (k k' : bytes) :
  k' ∈ map fst (hattrie_get t k) <-> k' = k \/ k' ∈ map fst t.
Proof.
  induction t as [|[k0 w] t IH]; simpl.
  - rewrite list_elem_of_singleton. split; [now left|].
    intros [H|H]; [exact H|inversion H].
  - destruct (decide (k = k0)) as [->|Hne]; simpl.
    + rewrite !elem_of_cons. tauto.
    + destruct (bytes_ltb k k0); simpl.
      * rewrite !elem_of_cons. simpl. tauto.
      * rewrite !elem_of_cons, IH. tauto.
Qed.

Lemma sorted_get (t : hattrie_t) (k : bytes) :
  StronglySorted bytes_lt (map fst t) ->
  StronglySorted bytes_lt (map fst (hattrie_get t k)).
Proof.
  induction t as [|[k0 w] t IH]; simpl; intros Hs.
  - repeat constructor.
  - apply StronglySorted_inv in Hs as [Hs Hall].
    destruct (decide (k = k0)) as [->|Hne]; simpl; [now constructor|].
    destruct (bytes_ltb k k0) eqn:Hlt; simpl.
    + constructor; [now constructor|]. constructor; [exact Hlt|].
      eapply Forall_impl; [exact Hall|]. intros y Hy.
      eapply bytes_ltb_trans; [exact Hlt|exact Hy].
    + constructor; [now apply IH|].
      apply Forall_forall. intros y Hy.
      apply keys_get in Hy. destruct Hy as [->|Hy].
      * now apply bytes_ltb_total.
      * rewrite Forall_forall in Hall. now apply Hall.
Qed.

Lemma yields_upto_keys (n : nat) (i : HatTrieIterator) :
  (length i <= n)%nat -> yields_upto n i = map cstring i.
Proof.
  revert i. induction n as [|n IH]; intros [|k i] Hn; simpl in *; try reflexivity; try lia.
  f_equal. apply IH. lia.
Qed.

Lemma yields_Iterator (t : hattrie_t) :
  yields (Iterator t) = map cstring (map fst t).
Proof. unfold yields. now apply yields_upto_keys. Qed.

Lemma keys_apply_op (t : hattrie_t) (o : op) (k' : bytes) :
  k' ∈ map fst (apply_op t o) <->
  k' ∈ map fst t \/ (exists k, o = OpSet k /\ k' = cstring k).
Proof.
  destruct o as [k|k]; simpl.
  - unfold Set_, C_set. rewrite keys_store, keys_get. split.
    + intros [->|H]; [right; eauto|now left].
    + intros [H|(k0 & Hk0 & ->)]; [now right|]. injection Hk0 as ->. now left.
  - unfold Delete, C_delete.
    destruct (hattrie_tryget t (cstring k)); [rewrite keys_store|].
    + split; [now left|]. intros [H|(k0 & Hk0 & _)]; [exact H|discriminate].
    + split; [now left|]. intros [H|(k0 & Hk0 & _)]; [exact H|discriminate].
Qed.

Lemma sorted_apply_op (t : hattrie_t) (o : op) :
  StronglySorted bytes_lt (map fst t) ->
  StronglySorted bytes_lt (map fst (apply_op t o)).
Proof.
  intros Hs. destruct o as [k|k]; simpl.
  - unfold Set_, C_set. rewrite keys_store. now apply sorted_get.
  - unfold Delete, C_delete.
    destruct (hattrie_tryget t (cstring k)); [now rewrite keys_store|exact Hs].
Qed.

Lemma run_snoc (ops : list op) (o : op) : run (ops ++ [o]) = apply_op (run ops) o.
Proof. unfold run. now rewrite fold_left_app. Qed.

Lemma run_keys (ops : list op) (k' : bytes) :
  k' ∈ map fst (run ops) <-> exists k, OpSet k ∈ ops /\ k' = cstring k.
Proof.
  induction ops as [|o ops IH] using rev_ind.
  - simpl. split; [intros H; inversion H|intros (k & H & _); inversion H].
  - rewrite run_snoc, keys_apply_op, IH. split.
    + intros [(k & Hin & ->)|(k & -> & ->)]; exists k; split; try reflexivity;
        rewrite elem_of_app; [now left|right; now apply list_elem_of_singleton].
    + intros (k & Hin & ->). rewrite elem_of_app in Hin. destruct Hin as [Hin|Hin].
      * left. eauto.
      * right. apply list_elem_of_singleton in Hin. eauto.
Qed.

Lemma run_sorted (ops : list op) : StronglySorted bytes_lt (map fst (run ops)).
Proof.
  induction ops as [|o ops IH] using rev_ind.
  - constructor.
  - rewrite run_snoc. now apply sorted_apply_op.
Qed.

Lemma run_keys_cstring (ops : list op) :
  map cstring (map fst (run ops)) = map fst (run ops).
Proof.
  rewrite <- (map_id (map fst (run ops))) at 2.
  apply map_ext_in. intros k Hk. rewrite <- list_elem_of_In in Hk.
  apply run_keys in Hk. destruct Hk as (k0 & _ & ->). apply cstring_idem.
Qed.

End HatTrieFacts.

(** ** The range codec *)

Module RangeFacts.

Import Range.

Lemma runs_from_covers (lo hi : N) (rest : list N) (n : N) :
  covers (runs_from lo hi rest) n -> (lo <= n <= hi)%N \/ n ∈ rest.
Proof.
  unfold covers. revert lo hi. induction rest as [|x rest IH]; simpl; intros lo hi H.
  - apply Exists_cons in H as [H|H]; [now left|inversion H].
  - destruct (N.eqb_spec x (hi + 1)) as [->|Hx].
    + apply IH in H as [H|H].
      * destruct (decide (n = hi + 1)%N) as [->|Hn].
        -- right. apply elem_of_cons. now left.
        -- left. lia.
      * right. apply elem_of_cons. now right.
    + apply Exists_cons in H as [H|H]; [now left|].
      apply IH in H as [H|H]; right; apply elem_of_cons.
      * left. lia.
      * now right.
Qed.

Lemma runs_covers (l : list N) (n : N) : covers (runs l) n -> n ∈ l.
Proof.
  destruct l as [|x l]; simpl; intros H.
  - inversion H.
  - apply runs_from_covers in H as [H|H]; apply elem_of_cons.
    + left. lia.
    + now right.
Qed.

(** A number the run list of a set spans is a member of the set. *)
Lemma chunk_runs_covers (m : gmap ChunkNum bool) (n : N) :
  covers (chunk_runs m) n -> is_Some (m !! n).
Proof.
  unfold chunk_runs, sorted_keys. intros H. apply runs_covers in H.
  rewrite merge_sort_Permutation in H.
  apply elem_of_elements in H. now apply elem_of_dom in H.
Qed.

End RangeFacts.

(** ** The list state engine *)

Module ListEngineFacts.

Import HatTrie HatTrieFacts ListEngine.

Lemma keysOf_Delete (t : hattrie_t) (k : bytes) : keysOf (Delete t k) = keysOf t.
Proof.
  unfold keysOf, Delete, C_delete.
  destruct (hattrie_tryget t (cstring k)); [apply keys_store|reflexivity].
Qed.

Lemma keysOf_Set (t : hattrie_t) (k s : bytes) :
  s ∈ keysOf (Set_ t k) <-> s = cstring k \/ s ∈ keysOf t.
Proof. unfold keysOf, Set_, C_set. rewrite keys_store. apply keys_get. Qed.

Lemma tryget_key (t : hattrie_t) (k : bytes) (v : value_t) :
  hattrie_tryget t k = Some v -> k ∈ keysOf t.
Proof.
  induction t as [|[k' w] t IH]; simpl; [discriminate|].
  destruct (decide (k = k')) as [->|Hne]; intros H.
  - apply elem_of_cons. now left.
  - apply elem_of_cons. right. now apply IH.
Qed.

Lemma Get_true_key (t : hattrie_t) (k : bytes) :
  Get t k = true -> cstring k ∈ keysOf t.
Proof.
  unfold Get, C_get. destruct (hattrie_tryget t (cstring k)) as [v|] eqn:E.
  - intros _. eapply tryget_key, E.
  - discriminate.
Qed.

Lemma Get_cstring (t : hattrie_t) (k : bytes) : Get t (cstring k) = Get t k.
Proof. unfold Get, C_get. now rewrite cstring_idem. Qed.

(** *** The sweep over the full hashes *)

Lemma slice_prefix_Ok (key : bytes) (n : Z) (p : bytes) :
  slice key 0 n = Ok p -> 0 <= n <= len key /\ p = take (Z.to_nat n) key.
Proof.
  unfold slice, len. intros H.
  destruct (0 <=? 0) eqn:E0; [|discriminate].
  destruct (0 <=? n) eqn:E1; [|discriminate].
  destruct (n <=? Z.of_nat (length key)) eqn:E2; [|discriminate].
  simpl in H. injection H as <-.
  apply Z.leb_le in E1, E2. split; [lia|].
  now rewrite Z.sub_0_r, drop_0.
Qed.

Lemma sweep_keys (lookup : bytes) (i : HatTrieIterator) (fh fh' : hattrie_t) :
  sweepFullHashes lookup i fh = Ok fh' -> keysOf fh' = keysOf fh.
Proof.
  revert fh. induction i as [|s i IH]; simpl; intros fh H.
  - now injection H as <-.
  - destruct (decide (cstring s = [])); [now injection H as <-|].
    destruct (slice (cstring s) 0 (len lookup)) as [p| |]; simpl in H; try discriminate.
    apply IH in H. rewrite H.
    destruct (decide (p = lookup)); [apply keysOf_Delete|reflexivity].
Qed.

Lemma sweep_mono (lookup : bytes) (i : HatTrieIterator) (fh fh' : hattrie_t) (k : bytes) :
  sweepFullHashes lookup i fh = Ok fh' -> Get fh' k = true -> Get fh k = true.
Proof.
  revert fh. induction i as [|s i IH]; simpl; intros fh H Hk.
  - now injection H as <-.
  - destruct (decide (cstring s = [])); [now injection H as <-|].
    destruct (slice (cstring s) 0 (len lookup)) as [p| |]; simpl in H; try discriminate.
    specialize (IH _ H Hk).
    destruct (decide (p = lookup)); [eapply Get_Delete_true, IH|exact IH].
Qed.

Lemma sweep_clears (lookup : bytes) (i : HatTrieIterator) (fh fh' : hattrie_t) :
  sweepFullHashes lookup i fh = Ok fh' ->
  Forall (fun s => cstring s <> []) i ->
  forall s, s ∈ i ->
    len lookup <= len (cstring s) /\
    (take (length lookup) (cstring s) = lookup -> Get fh' (cstring s) = false).
Proof.
  revert fh. induction i as [|s0 i IH]; simpl; intros fh H Hne s Hs.
  - inversion Hs.
  - apply Forall_cons in Hne as [Hs0 Hne].
    destruct (decide (cstring s0 = [])); [contradiction|].
    destruct (slice (cstring s0) 0 (len lookup)) as [p| |] eqn:Hsl; simpl in H; try discriminate.
    apply slice_prefix_Ok in Hsl as [Hlen ->].
    replace (Z.to_nat (len lookup)) with (length lookup) in H
      by (unfold len; now rewrite Nat2Z.id).
    apply elem_of_cons in Hs as [->|Hs].
    + split; [lia|]. intros Hm.
      rewrite decide_True in H by exact Hm.
      destruct (Get fh' (cstring s0)) eqn:G; [|reflexivity].
      eapply sweep_mono in G; [|exact H].
      now rewrite Get_Delete_same in G.
    + eapply IH; eauto.
Qed.

(** Two prefixes of one byte string: the shorter one begins the longer. *)
Lemma prefix_take (x y k : bytes) :
  x `prefix_of` k -> y `prefix_of` k -> (length x <= length y)%nat ->
  take (length x) y = x.
Proof.
  intros [x' ->] [y' Hy] Hlen.
  assert (H : take (length x) (y ++ y') = take (length x) (x ++ x')) by now rewrite Hy.
  rewrite take_app_le in H by exact Hlen.
  rewrite take_app_le, firstn_all in H by lia. exact H.
Qed.

Lemma sweep_no_match (lookup : bytes) (fh fh' : hattrie_t) (k : bytes) :
  sweepFullHashes lookup (Iterator fh) fh = Ok fh' ->
  noEmptyKey fh ->
  lookup `prefix_of` k ->
  Get fh' k = false.
Proof.
  intros H Hne Hpre.
  destruct (Get fh' k) eqn:G; [|reflexivity].
  pose proof (Get_true_key _ _ G) as Hin.
  rewrite (sweep_keys _ _ _ _ H) in Hin.
  destruct (sweep_clears _ _ _ _ H Hne _ Hin) as [Hlen Hclr].
  rewrite cstring_idem in Hlen, Hclr. rewrite Get_cstring in Hclr.
  rewrite Hclr in G; [discriminate|].
  eapply prefix_take; [exact Hpre|apply cstring_prefix|unfold len in Hlen; lia].
Qed.

(** *** One entry of a chunk *)

Lemma applyHash_sub_prefix (hashLen : Z) (h : HostHash) (p : LookupHash)
  (st st' : Z * hattrie_t * hattrie_t) (k : bytes) :
  applyHash CHUNK_TYPE_SUB hashLen h p st = Ok st' ->
  len p <> 32 ->
  noEmptyKey st.2 ->
  Get st'.1.2 (h ++ p) = false /\
  ((h ++ p) `prefix_of` k -> Get st'.2 k = false).
Proof.
  destruct st as [[hpl lk] fh]. unfold applyHash. intros H Hlen Hne.
  destruct (Z.eqb_spec (len p) 32) as [|_]; [contradiction|].
  destruct (if hpl =? 0 then _ else _) as [hpl'| |]; simpl in H; try discriminate.
  destruct (sweepFullHashes (h ++ p) (Iterator fh) fh) as [fh'| |] eqn:Hsw;
    simpl in H; try discriminate.
  injection H as <-. simpl. split.
  - apply Get_Delete_same.
  - intros Hpre. eapply sweep_no_match; eauto.
Qed.

Lemma applyEntry_FullHashes (st st' : Z * hattrie_t * hattrie_t) (e : Entry) (k : bytes) :
  applyEntry st e = Ok st' ->
  Get st'.2 k = true ->
  Get st.2 k = true \/ addsFullHashKey k e.
Proof.
  destruct st as [[hpl lk] fh], e as [ct hl h p].
  unfold applyEntry, applyHash, addsFullHashKey, addsFullHash, entryKey. simpl.
  intros H Hk. destruct (Z.eqb_spec (len p) 32) as [H32|H32].
  - destruct (decide (ct = CHUNK_TYPE_ADD)) as [->|Hadd].
    + injection H as <-. simpl in Hk.
      destruct (decide (cstring (h ++ p) = cstring k)) as [Heq|Hneq]; [now right|].
      left. now rewrite Get_Set_other in Hk.
    + destruct (decide (ct = CHUNK_TYPE_SUB)); injection H as <-; simpl in Hk.
      * left. eapply Get_Delete_true, Hk.
      * now left.
  - destruct (if hpl =? 0 then _ else _) as [hpl'| |]; simpl in H; try discriminate.
    destruct (decide (ct = CHUNK_TYPE_ADD)).
    + injection H as <-. now left.
    + destruct (decide (ct = CHUNK_TYPE_SUB)).
      * destruct (sweepFullHashes (h ++ p) (Iterator fh) fh) as [fh'| |] eqn:Hsw;
          simpl in H; try discriminate.
        injection H as <-. left. eapply sweep_mono; eauto.
      * injection H as <-. now left.
Qed.

Lemma applyEntry_Lookup (st st' : Z * hattrie_t * hattrie_t) (e : Entry) (k : bytes) :
  applyEntry st e = Ok st' ->
  Get st'.1.2 k = true ->
  Get st.1.2 k = true \/ addsPrefixKey k e.
Proof.
  destruct st as [[hpl lk] fh], e as [ct hl h p].
  unfold applyEntry, applyHash, addsPrefixKey, entryKey. simpl.
  intros H Hk. destruct (Z.eqb_spec (len p) 32) as [H32|H32].
  - destruct (decide (ct = CHUNK_TYPE_ADD)); [injection H as <-; now left|].
    destruct (decide (ct = CHUNK_TYPE_SUB)); injection H as <-; now left.
  - destruct (if hpl =? 0 then _ else _) as [hpl'| |]; simpl in H; try discriminate.
    destruct (decide (ct = CHUNK_TYPE_ADD)) as [->|Hadd].
    + injection H as <-. simpl in Hk.
      destruct (decide (cstring (h ++ p) = cstring k)) as [Heq|Hneq]; [now right|].
      left. now rewrite Get_Set_other in Hk.
    + destruct (decide (ct = CHUNK_TYPE_SUB)).
      * destruct (sweepFullHashes (h ++ p) (Iterator fh) fh) as [fh'| |] eqn:Hsw;
          simpl in H; try discriminate.
        injection H as <-. left. eapply Get_Delete_true, Hk.
      * injection H as <-. now left.
Qed.

Lemma applyEntry_noEmptyKey (st st' : Z * hattrie_t * hattrie_t) (e : Entry) :
  applyEntry st e = Ok st' ->
  noEmptyKey st.2 -> keyNotEmpty e -> noEmptyKey st'.2.
Proof.
  destruct st as [[hpl lk] fh], e as [ct hl h p].
  unfold applyEntry, applyHash, keyNotEmpty, addsFullHash, entryKey, noEmptyKey. simpl.
  intros H Hne Hkey. destruct (Z.eqb_spec (len p) 32) as [H32|H32].
  - destruct (decide (ct = CHUNK_TYPE_ADD)) as [->|Hadd].
    + injection H as <-. simpl. apply Forall_forall. intros s Hs.
      apply keysOf_Set in Hs as [->|Hs].
      * rewrite cstring_idem. now apply Hkey.
      * rewrite Forall_forall in Hne. now apply Hne.
    + destruct (decide (ct = CHUNK_TYPE_SUB)); injection H as <-; simpl.
      * now rewrite keysOf_Delete.
      * exact Hne.
  - destruct (if hpl =? 0 then _ else _) as [hpl'| |]; simpl in H; try discriminate.
    destruct (decide (ct = CHUNK_TYPE_ADD)); [injection H as <-; exact Hne|].
    destruct (decide (ct = CHUNK_TYPE_SUB)); [|injection H as <-; exact Hne].
    destruct (sweepFullHashes (h ++ p) (Iterator fh) fh) as [fh'| |] eqn:Hsw;
      simpl in H; try discriminate.
    injection H as <-. simpl. now rewrite (sweep_keys _ _ _ _ Hsw).
Qed.

(** *** A run of entries *)

Lemma applyEntries_app (es1 es2 : list Entry) (st : Z * hattrie_t * hattrie_t) :
  applyEntries (es1 ++ es2) st =
  (do st' <- applyEntries es1 st; applyEntries es2 st').
Proof.
  revert st. induction es1 as [|e es1 IH]; simpl; intros st; [reflexivity|].
  unfold applyEntry. destruct (applyHash _ _ _ _ st); simpl; auto.
Qed.

Lemma applyHashes_entries ct hl h (hs : list LookupHash) (st : Z * hattrie_t * hattrie_t) :
  applyHashes ct hl h hs st = applyEntries (map (mkEntry ct hl h) hs) st.
Proof.
  revert st. induction hs as [|p hs IH]; simpl; intros st; [reflexivity|].
  unfold applyEntry. simpl. destruct (applyHash ct hl h p st); simpl; auto.
Qed.

Lemma applyHosts_entries ct hl (hosts : list (HostHash * list LookupHash))
  (st : Z * hattrie_t * hattrie_t) :
  applyHosts ct hl hosts st =
  applyEntries (flat_map (fun hh => map (mkEntry ct hl (fst hh)) (snd hh)) hosts) st.
Proof.
  revert st. induction hosts as [|[h hs] hosts IH]; simpl; intros st; [reflexivity|].
  rewrite applyEntries_app, <- applyHashes_entries.
  destruct (applyHashes ct hl h hs st); simpl; auto.
Qed.

Lemma updateLookupMap_Ok (ssl ssl' : SafeBrowsingList) (chunk : Chunk) :
  updateLookupMap ssl chunk = Ok ssl' ->
  applyEntries (entriesOf chunk) (tries ssl) = Ok (tries ssl') /\
  DeleteChunks ssl' = DeleteChunks ssl /\
  ChunkRanges ssl' = ChunkRanges ssl.
Proof.
  unfold updateLookupMap, entriesOf, tries. rewrite applyHosts_entries.
  destruct (applyEntries _ _) as [[[hpl lk] fh]| |]; simpl; try discriminate.
  intros H. injection H as <-. simpl. auto.
Qed.

Lemma applyEntries_noEmptyKey (es : list Entry) (st st' : Z * hattrie_t * hattrie_t) :
  applyEntries es st = Ok st' ->
  noEmptyKey st.2 -> Forall keyNotEmpty es -> noEmptyKey st'.2.
Proof.
  revert st. induction es as [|e es IH]; simpl; intros st H Hne Hall.
  - now injection H as <-.
  - apply Forall_cons in Hall as [He Hall].
    destruct (applyEntry st e) as [st1| |] eqn:E; simpl in H; try discriminate.
    eapply IH; eauto. eapply applyEntry_noEmptyKey; eauto.
Qed.

Lemma applyEntries_FullHashes (es : list Entry) (st st' : Z * hattrie_t * hattrie_t) (k : bytes) :
  applyEntries es st = Ok st' ->
  Forall (fun e => ~ addsFullHashKey k e) es ->
  Get st.2 k = false -> Get st'.2 k = false.
Proof.
  revert st. induction es as [|e es IH]; simpl; intros st H Hall Hk.
  - now injection H as <-.
  - apply Forall_cons in Hall as [He Hall].
    destruct (applyEntry st e) as [st1| |] eqn:E; simpl in H; try discriminate.
    eapply IH; eauto.
    destruct (Get st1.2 k) eqn:G; [|reflexivity].
    destruct (applyEntry_FullHashes _ _ _ _ E G); [congruence|contradiction].
Qed.

Lemma applyEntries_Lookup (es : list Entry) (st st' : Z * hattrie_t * hattrie_t) (k : bytes) :
  applyEntries es st = Ok st' ->
  Forall (fun e => ~ addsPrefixKey k e) es ->
  Get st.1.2 k = false -> Get st'.1.2 k = false.
Proof.
  revert st. induction es as [|e es IH]; simpl; intros st H Hall Hk.
  - now injection H as <-.
  - apply Forall_cons in Hall as [He Hall].
    destruct (applyEntry st e) as [st1| |] eqn:E; simpl in H; try discriminate.
    eapply IH; eauto.
    destruct (Get st1.1.2 k) eqn:G; [|reflexivity].
    destruct (applyEntry_Lookup _ _ _ _ E G); [congruence|contradiction].
Qed.

(** A subtracted prefix stays subtracted, and the full hashes under it stay
    cleared, until an entry puts them back. *)
Lemma applyEntries_sub_prefix (es1 es2 : list Entry) (e : Entry)
  (st st' : Z * hattrie_t * hattrie_t) (k : bytes) :
  applyEntries (es1 ++ e :: es2) st = Ok st' ->
  noEmptyKey st.2 -> Forall keyNotEmpty es1 ->
  eType e = CHUNK_TYPE_SUB -> len (eHash e) <> 32 ->
  entryKey e `prefix_of` k ->
  Forall (fun e' => ~ addsPrefixKey (entryKey e) e') es2 ->
  Forall (fun e' => ~ addsFullHashKey k e') es2 ->
  Get st'.1.2 (entryKey e) = false /\ Get st'.2 k = false.
Proof.
  intros H Hne Hes1 Hsub Hlen Hpre Hlk Hfh.
  rewrite applyEntries_app in H.
  destruct (applyEntries es1 st) as [st1| |] eqn:E1; simpl in H; try discriminate.
  destruct (applyEntry st1 e) as [st2| |] eqn:E2; simpl in H; try discriminate.
  pose proof (applyEntries_noEmptyKey _ _ _ E1 Hne Hes1) as Hne1.
  destruct e as [ct hl h p]. simpl in *. subst ct.
  unfold applyEntry in E2. simpl in E2.
  destruct (applyHash_sub_prefix _ _ _ _ _ k E2 Hlen Hne1) as [Hl Hf].
  split.
  - eapply applyEntries_Lookup; eauto.
  - eapply applyEntries_FullHashes; eauto.
Qed.

(** *** The loops of [load] *)

Lemma isDeleted_ext (s1 s2 : SafeBrowsingList) (c : Chunk) :
  DeleteChunks s1 = DeleteChunks s2 -> isDeleted s1 c = isDeleted s2 c.
Proof. unfold isDeleted. now intros ->. Qed.

Lemma keepChunks_app (io : Faults) (a : Acc) (cs1 cs2 : list Chunk) :
  keepChunks io a (cs1 ++ cs2) =
  match keepChunks io a cs1 with
  | Continue a' => keepChunks io a' cs2
  | Stop st a' => Stop st a'
  end.
Proof.
  revert a. induction cs1 as [|c cs1 IH]; simpl; intros a; [reflexivity|].
  destruct (keepChunk io a c); auto.
Qed.

Lemma keepChunks_Continue (io : Faults) (a a' : Acc) (cs : list Chunk) :
  keepChunks io a cs = Continue a' ->
  a_tmp a' = a_tmp a ++ keptOf (a_ssl a) cs /\
  DeleteChunks (a_ssl a') = DeleteChunks (a_ssl a) /\
  ChunkRanges (a_ssl a') = ChunkRanges (a_ssl a) /\
  applyEntries (flat_map entriesOf (keptOf (a_ssl a) cs)) (tries (a_ssl a))
    = Ok (tries (a_ssl a')) /\
  (forall n, is_Some (addChunkIndexes a' !! n) ->
     is_Some (addChunkIndexes a !! n) \/ numbered CHUNK_TYPE_ADD n (keptOf (a_ssl a) cs)) /\
  (forall n, is_Some (subChunkIndexes a' !! n) ->
     is_Some (subChunkIndexes a !! n) \/ numbered CHUNK_TYPE_SUB n (keptOf (a_ssl a) cs)).
Proof.
  revert a. induction cs as [|c cs IH]; simpl; intros a H.
  - injection H as <-. unfold keptOf. rewrite filter_nil, app_nil_r. simpl.
    repeat split; auto.
  - unfold keepChunk in H. unfold keptOf in *.
    destruct (isDeleted (a_ssl a) c) eqn:Hdel.
    + rewrite filter_cons_False by (rewrite Hdel; discriminate). now apply IH.
    + rewrite filter_cons_True by exact Hdel.
      destruct (encode_err io (length (a_tmp a))); [discriminate|].
      destruct (updateLookupMap (a_ssl a) c) as [ssl1| |] eqn:Hup; try discriminate.
      apply updateLookupMap_Ok in Hup as (Hap & Hdc & Hcr).
      apply IH in H as (Htmp & Hdc' & Hcr' & Hap' & Hadd & Hsub). simpl in *.
      assert (Hf : filter (fun c0 => isDeleted ssl1 c0 = false) cs
                   = filter (fun c0 => isDeleted (a_ssl a) c0 = false) cs).
      { apply list_filter_iff. intros c0. now rewrite (isDeleted_ext ssl1 (a_ssl a)). }
      rewrite Hf in *. repeat split.
      * rewrite Htmp, <- app_assoc. reflexivity.
      * congruence.
      * congruence.
      * rewrite applyEntries_app, Hap. simpl. exact Hap'.
      * intros n Hn. destruct (Hadd n Hn) as [Hold|(c0 & Hin & Ht & Hc)].
        -- destruct (decide (cChunkType c = CHUNK_TYPE_ADD)) as [Ht|Ht]; [|now left].
           destruct (decide (cChunkNum c = n)) as [<-|Hne].
           ++ right. exists c. split; [apply elem_of_cons; now left|auto].
           ++ left. now rewrite lookup_insert_ne in Hold.
        -- right. exists c0. split; [apply elem_of_cons; now right|auto].
      * intros n Hn. destruct (Hsub n Hn) as [Hold|(c0 & Hin & Ht & Hc)].
        -- destruct (decide (cChunkType c = CHUNK_TYPE_SUB)) as [Ht|Ht]; [|now left].
           destruct (decide (cChunkNum c = n)) as [<-|Hne].
           ++ right. exists c. split; [apply elem_of_cons; now left|auto].
           ++ left. now rewrite lookup_insert_ne in Hold.
        -- right. exists c0. split; [apply elem_of_cons; now right|auto].
Qed.

Lemma keepChunks_Stop (io : Faults) (a a' : Acc) (cs : list Chunk) (st : status) :
  keepChunks io a cs = Stop st a' -> st <> Returned None.
Proof.
  revert a. induction cs as [|c cs IH]; simpl; intros a H; [discriminate|].
  destruct (keepChunk io a c) as [a1|st1 a1] eqn:E; [eapply IH, H|].
  injection H as -> ->. unfold keepChunk in E.
  destruct (isDeleted (a_ssl a) c); [discriminate|].
  destruct (encode_err io (length (a_tmp a))); [injection E as <- _; discriminate|].
  destruct (updateLookupMap (a_ssl a) c); try discriminate;
    injection E as <- _; discriminate.
Qed.

(** What a successful [load] has done. *)
Lemma load_success (io : Faults) (d : Disk) (ssl : SafeBrowsingList) (newChunks : list Chunk) :
  out_status (load io d ssl newChunks) = Returned None ->
  exists a,
    keepChunks io (mkAcc ssl [] ∅ ∅)
               (match dat d with Some j => records j | None => [] end ++ newChunks)
      = Continue a /\
    load io d ssl newChunks =
      mkOut (Returned None) (mkDisk (Some (mkJournal (a_tmp a) EOF)) None)
            (with_ranges (a_ssl a) (addChunkIndexes a) (subChunkIndexes a)).
Proof.
  unfold load. destruct (create_err io); [discriminate|].
  rewrite keepChunks_app.
  destruct (dat d) as [j|] eqn:Hj.
  - unfold replayJournal.
    destruct (keepChunks io _ (records j)) as [a1|st a1] eqn:E1.
    2:{ simpl. intros ->. now apply keepChunks_Stop in E1. }
    destruct (decide (ending j = EOF)); [|simpl; discriminate].
    destruct (keepChunks io a1 newChunks) as [a2|st a2] eqn:E2.
    + unfold commit. rewrite Hj.
      destruct (remove_err io); [discriminate|].
      destruct (rename_err io); [discriminate|]. eauto.
    + simpl. intros ->. now apply keepChunks_Stop in E2.
  - simpl.
    destruct (keepChunks io _ newChunks) as [a2|st a2] eqn:E2.
    + unfold commit. rewrite Hj.
      destruct (remove_err io), (rename_err io); try discriminate; eauto.
    + simpl. intros ->. now apply keepChunks_Stop in E2.
Qed.

End ListEngineFacts.

(** ** The claims about the list state engine *)

Import HatTrie HatTrieFacts ListEngine ListEngineFacts.

(** C1, as stated, fails: a load that applies the SUB chunk 2 (prefixes
    "test" and "1234" under host "test", prefix length 4) and then the ADD
    chunk 2 ends with both full hashes present, although each begins with
    a prefix subtracted in this very load. *)
Lemma C1_counterexample_later_add :
  let out := load no_faults emptyDisk freshList [chunkSub2; chunkAdd2] in
  out_status out = Returned None /\
  HashPrefixLen (out_ssl out) = len (b "1234") /\
  Get (FullHashes (out_ssl out))
      (b "test" ++ b "12341234123412341234123412341234") = true.
Proof. vm_compute. repeat split; reflexivity. Qed.

(** C1, amended: when [load] returns successfully, a prefix entry [e]
    (host [h], hash [p] of a length other than 32) of a SUB chunk it
    applied is absent from the prefix trie, and [FullHashes.Get] is false
    for every key that begins with [h ++ p], both done by this one load,
    provided that no entry applied after [e] in the same load adds the
    prefix, respectively that key, again.  The sweep needs every slot of
    the full-hash trie to read back as a non-empty string, which is asked
    of the trie before the load and of the full hashes added before
    [e]. *)
Theorem C1_sub_prefix_clears_full_hashes
  (io : Faults) (d : Disk) (ssl : SafeBrowsingList) (newChunks : list Chunk)
  (es1 es2 : list Entry) (e : Entry) (k : bytes) :
  out_status (load io d ssl newChunks) = Returned None ->
  noEmptyKey (FullHashes ssl) ->
  flat_map entriesOf (survivors ssl d newChunks) = es1 ++ e :: es2 ->
  Forall keyNotEmpty es1 ->
  eType e = CHUNK_TYPE_SUB ->
  len (eHash e) <> 32 ->
  entryKey e `prefix_of` k ->
  Forall (fun e' => ~ addsPrefixKey (entryKey e) e') es2 ->
  Forall (fun e' => ~ addsFullHashKey k e') es2 ->
  Get (Lookup (out_ssl (load io d ssl newChunks))) (entryKey e) = false /\
  Get (FullHashes (out_ssl (load io d ssl newChunks))) k = false.
Proof.
  intros Hok Hne Hes Hes1 Hsub Hlen Hpre Hlk Hfh.
  destruct (load_success _ _ _ _ Hok) as (a & Hkeep & ->). simpl.
  apply keepChunks_Continue in Hkeep as (_ & _ & _ & Hap & _). simpl in Hap.
  unfold survivors in Hes. rewrite Hes in Hap.
  exact (applyEntries_sub_prefix _ _ _ _ _ _ Hap Hne Hes1 Hsub Hlen Hpre Hlk Hfh).
Qed.

Lemma C1_witness :
  Get (FullHashes (out_ssl (load no_faults emptyDisk freshList [chunkAdd2; chunkSub2])))
      (b "test" ++ b "test1234123412341234123412341234") = false.
Proof.
  refine (proj2 (C1_sub_prefix_clears_full_hashes no_faults emptyDisk freshList
            [chunkAdd2; chunkSub2]
            [mkEntry CHUNK_TYPE_ADD 32 (b "test") (b "test1234123412341234123412341234");
             mkEntry CHUNK_TYPE_ADD 32 (b "test") (b "12341234123412341234123412341234")]
            [mkEntry CHUNK_TYPE_SUB 4 (b "test") (b "1234")]
            (mkEntry CHUNK_TYPE_SUB 4 (b "test") (b "test"))
            (b "test" ++ b "test1234123412341234123412341234")
            _ _ _ _ _ _ _ _ _)).
  - vm_compute. reflexivity.
  - constructor.
  - vm_compute. reflexivity.
  - repeat constructor; intros _; vm_compute; discriminate.
  - reflexivity.
  - vm_compute. discriminate.
  - exists (b "1234123412341234123412341234"). reflexivity.
  - repeat constructor. intros [H _]. discriminate.
  - repeat constructor. intros [[H _] _]. discriminate.
Defined.

(** C2, as stated, fails in its last part: replaying a journal whose first
    record is the ADD chunk 1 and whose second record cannot be decoded
    returns the decoder's error and leaves the journal as it was, yet the
    prefix trie of the list, empty before, holds the prefixes of chunk 1
    afterwards. *)
Lemma C2_counterexample_partial_mutation :
  let out := load no_faults (mkDisk (Some corruptJournal) None) freshList [] in
  out_status out = Returned (Some (ExtErr "unexpected EOF")) /\
  dat (out_disk out) = Some corruptJournal /\
  Get (Lookup freshList) (b "test" ++ b "1234") = false /\
  Get (Lookup (out_ssl out)) (b "test" ++ b "1234") = true.
Proof. vm_compute. repeat split; reflexivity. Qed.

(** C2, amended: when the replay of the journal reaches a [Decode] that
    fails with an error other than [io.EOF], [load] returns that error,
    the journal file is left as it was (neither removed nor replaced by
    the [.tmp] file), [DeleteChunks] and [ChunkRanges] are unchanged, and
    the tries are those obtained by applying to the tries of before the
    chunks decoded so far that were not marked for deletion: they are
    not rolled back. *)
Theorem C2_decode_failure
  (io : Faults) (d : Disk) (ssl : SafeBrowsingList) (newChunks : list Chunk)
  (j : Journal) (a : Acc) :
  create_err io = None ->
  dat d = Some j ->
  ending j <> EOF ->
  keepChunks io (mkAcc ssl [] ∅ ∅) (records j) = Continue a ->
  out_status (load io d ssl newChunks) = Returned (Some (ending j)) /\
  dat (out_disk (load io d ssl newChunks)) = dat d /\
  DeleteChunks (out_ssl (load io d ssl newChunks)) = DeleteChunks ssl /\
  ChunkRanges (out_ssl (load io d ssl newChunks)) = ChunkRanges ssl /\
  applyEntries (flat_map entriesOf (keptOf ssl (records j))) (tries ssl)
    = Ok (tries (out_ssl (load io d ssl newChunks))).
Proof.
  intros Hc Hd He Hkeep. unfold load, replayJournal.
  rewrite Hc, Hd, Hkeep. rewrite decide_False by exact He. simpl.
  apply keepChunks_Continue in Hkeep as (_ & Hdc & Hcr & Hap & _). simpl in *.
  auto.
Qed.

Lemma C2_witness :
  out_status (load no_faults (mkDisk (Some corruptJournal) None) freshList [])
  = Returned (Some (ExtErr "unexpected EOF")).
Proof.
  refine (proj1 (C2_decode_failure no_faults (mkDisk (Some corruptJournal) None)
                   freshList [] corruptJournal _ _ _ _ _)).
  - reflexivity.
  - reflexivity.
  - discriminate.
  - vm_compute. reflexivity.
Defined.

(** C3: when [load] returns successfully, no chunk of the rewritten
    journal has a kind and number that were in [DeleteChunks] before the
    call, the range string published for that kind is built from a set of
    numbers that does not hold the number and none of its runs spans it,
    and [DeleteChunks] is empty. *)
Theorem C3_deleted_chunks_dropped
  (io : Faults) (d : Disk) (ssl : SafeBrowsingList) (newChunks : list Chunk)
  (kind : ChunkType) (n : ChunkNum) (m : gmap ChunkNum bool) :
  out_status (load io d ssl newChunks) = Returned None ->
  DeleteChunks ssl !! kind = Some m ->
  is_Some (m !! n) ->
  (exists j', dat (out_disk (load io d ssl newChunks)) = Some j' /\
              ending j' = EOF /\
              records j' = survivors ssl d newChunks /\
              ~ numbered kind n (records j')) /\
  (exists idx, rangesOf (out_ssl (load io d ssl newChunks)) kind
                 = Range.buildChunkRanges idx /\
               idx !! n = None /\
               ~ Range.covers (Range.chunk_runs idx) n) /\
  DeleteChunks (out_ssl (load io d ssl newChunks)) = ∅.
Proof.
  intros Hok Hm Hn.
  destruct (load_success _ _ _ _ Hok) as (a & Hkeep & ->). simpl.
  apply keepChunks_Continue in Hkeep as (Htmp & _ & _ & _ & Hadd & Hsub). simpl in *.
  fold (survivors ssl d newChunks) in Htmp, Hadd, Hsub.
  assert (Hgone : ~ numbered kind n (survivors ssl d newChunks)).
  { intros (c & Hin & <- & <-). unfold survivors, keptOf in Hin.
    apply list_elem_of_filter in Hin as [Hdel _].
    unfold isDeleted in Hdel. rewrite Hm in Hdel.
    now rewrite bool_decide_eq_false in Hdel. }
  split; [|split].
  - exists (mkJournal (a_tmp a) EOF). simpl. rewrite Htmp. auto.
  - assert (Hnone : forall idx : gmap ChunkNum bool,
               (is_Some (idx !! n) -> is_Some ((∅ : gmap ChunkNum bool) !! n)
                                      \/ numbered kind n (survivors ssl d newChunks)) ->
               idx !! n = None).
    { intros idx H. destruct (idx !! n) eqn:E; [|reflexivity].
      destruct H as [[x Hx]|H]; [eauto|now rewrite lookup_empty in Hx|contradiction]. }
    assert (Hcov : forall idx : gmap ChunkNum bool,
               idx !! n = None -> ~ Range.covers (Range.chunk_runs idx) n).
    { intros idx E Hc. apply RangeFacts.chunk_runs_covers in Hc.
      destruct Hc as [x Hx]. unfold ChunkNum in *. congruence. }
    unfold rangesOf, with_ranges. simpl.
    destruct (decide (kind = CHUNK_TYPE_SUB)) as [->|Hs].
    + rewrite lookup_insert_eq. simpl.
      exists (subChunkIndexes a). split; [reflexivity|].
      pose proof (Hnone _ (Hsub n)). auto.
    + rewrite lookup_insert_ne by congruence.
      destruct (decide (kind = CHUNK_TYPE_ADD)) as [->|Ha].
      * rewrite lookup_insert_eq. simpl.
        exists (addChunkIndexes a). split; [reflexivity|].
        pose proof (Hnone _ (Hadd n)). auto.
      * rewrite lookup_insert_ne by congruence. rewrite lookup_empty. simpl.
        exists ∅. split; [reflexivity|]. split; [apply lookup_empty|].
        apply Hcov, lookup_empty.
  - reflexivity.
Qed.

Lemma C3_witness :
  DeleteChunks (out_ssl (load no_faults scenario3Disk scenario3List [])) = ∅.
Proof.
  refine (proj2 (proj2 (C3_deleted_chunks_dropped no_faults scenario3Disk scenario3List []
                   CHUNK_TYPE_SUB 2%N (<[2%N := true]> (<[1%N := true]> ∅)) _ _ _))).
  - vm_compute. reflexivity.
  - vm_compute. reflexivity.
  - vm_compute. eauto.
Defined.

(** ** The chunk codec *)

Module ChunkCodecFacts.

Import ChunkCodec.

Lemma wrap64_small (z : Z) : - 2 ^ 63 <= z < 2 ^ 63 -> wrap64 z = z.
Proof. intros H. unfold wrap64. rewrite Z.mod_small; lia. Qed.

Lemma gtb_false (x y : Z) : x <= y -> (x >? y) = false.
Proof. intros H. rewrite Z.gtb_ltb. apply Z.ltb_ge. exact H. Qed.

Lemma slice_Ok_bounds {A} (s r : list A) (lo hi : Z) :
  slice s lo hi = Ok r -> 0 <= lo /\ lo <= hi /\ hi <= len s.
Proof.
  unfold slice, len.
  destruct (0 <=? lo) eqn:E0; [|discriminate].
  destruct (lo <=? hi) eqn:E1; [|discriminate].
  destruct (hi <=? Z.of_nat (length s)) eqn:E2; [|discriminate].
  intros _. apply Z.leb_le in E0, E1, E2. auto.
Qed.

Lemma index_Ok_bounds {A} (s : list A) (i : Z) (a : A) :
  index s i = Ok a -> 0 <= i < len s.
Proof.
  unfold index, len. destruct (0 <=? i) eqn:E0; [|discriminate].
  destruct (s !! Z.to_nat i) eqn:E; [|discriminate].
  intros _. apply Z.leb_le in E0. apply lookup_lt_Some in E. lia.
Qed.

Lemma aget_aset_same {K V} `{EqDecision K} (m : list (K * V)) (k : K) (v : V) :
  aget (aset m k v) k = Some v.
Proof.
  induction m as [|[k' v'] m IH]; simpl.
  - now rewrite decide_True.
  - destruct (decide (k = k')) as [->|Hne]; simpl.
    + now rewrite decide_True.
    + now rewrite decide_False.
Qed.

Lemma aget_appendTo {V} (m : list (bytes * list V)) (k : bytes) (v : V) :
  aget (appendTo m k v) k = Some (default [] (aget m k) ++ [v]).
Proof. apply aget_aset_same. Qed.

(** *** The loop of [ReadChunk] ends within its fuel *)

Lemma slice_Panic {A} (s : list A) (lo hi : Z) (w : string) :
  slice s lo hi = Panic w -> goPanic w.
Proof. unfold slice. destruct (_ && _); [discriminate|]. intros H. injection H as <-. now left. Qed.

Lemma index_Panic {A} (s : list A) (i : Z) (w : string) :
  index s i = Panic w -> goPanic w.
Proof.
  unfold index. destruct (0 <=? i); [destruct (s !! Z.to_nat i); [discriminate|]|];
    intros H; injection H as <-; now right.
Qed.

Lemma readAddChunkNum_spec (chunk : Chunk) (chunkBytes : bytes) (hostKey : HostHash) (x : Z) :
  0 <= x <= len chunkBytes -> len chunkBytes + 5 < 2 ^ 63 ->
  match readAddChunkNum chunk chunkBytes hostKey x with
  | Ok (chunk', x') =>
      x <= x' <= len chunkBytes /\ ChunkLen chunk' = ChunkLen chunk /\
      HashLen chunk' = HashLen chunk /\ cChunkType chunk' = cChunkType chunk
  | Err _ => True
  | Panic w => goPanic w
  end.
Proof.
  intros Hx Hbig. unfold readAddChunkNum, readChunkNumber.
  destruct (decide (cChunkType chunk = CHUNK_TYPE_SUB)) as [Hsub|Hadd];
    [|repeat split; try reflexivity; lia].
  assert (E : addi x 4 = x + 4) by (apply wrap64_small; lia). rewrite E.
  destruct (Z.gtb_spec (x + 4) (len chunkBytes)); [exact I|].
  destruct (slice chunkBytes x (x + 4)) as [r|e0|w] eqn:Hs; cbn [bind].
  - repeat split; try reflexivity; lia.
  - exact I.
  - eapply slice_Panic, Hs.
Qed.

Lemma readEntries_spec (count : nat) (chunk : Chunk) (chunkBytes : bytes)
  (hostKey : HostHash) (x : Z) :
  0 <= x <= len chunkBytes -> len chunkBytes + 5 < 2 ^ 63 ->
  match readEntries count chunk chunkBytes hostKey x with
  | Ok (chunk', x') => x <= x' <= len chunkBytes /\ ChunkLen chunk' = ChunkLen chunk
  | Err _ => True
  | Panic w => goPanic w
  end.
Proof.
  revert chunk x. induction count as [|count IH]; intros chunk x Hx Hbig; cbn [readEntries].
  - lia.
  - pose proof (readAddChunkNum_spec chunk chunkBytes hostKey x Hx Hbig) as H1.
    destruct (readAddChunkNum chunk chunkBytes hostKey x) as [[chunk1 x1]|e0|w];
      cbn [bind]; try exact H1.
    destruct H1 as (Hx1 & Hc1 & Hh1 & Ht1).
    destruct (addi x1 (HashLen chunk1) >? len chunkBytes); [exact I|].
    destruct (slice chunkBytes x1 (addi x1 (HashLen chunk1))) as [r|e0|w] eqn:Hs; cbn [bind].
    + apply slice_Ok_bounds in Hs as (_ & Hlo & Hhi).
      specialize (IH (with_Hashes chunk1 (appendTo (Hashes chunk1) hostKey r))
                     (addi x1 (HashLen chunk1)) ltac:(lia) Hbig).
      destruct (readEntries count _ chunkBytes hostKey _) as [[chunk' x']|e0|w]; try exact IH.
      cbn [ChunkLen with_Hashes] in IH. lia.
    + exact I.
    + eapply slice_Panic, Hs.
Qed.

Lemma readHostRecord_spec (chunk : Chunk) (chunkBytes : bytes) (x : Z) :
  0 <= x <= len chunkBytes -> len chunkBytes + 5 < 2 ^ 63 ->
  match readHostRecord chunk chunkBytes x with
  | Ok (chunk', x') => x < x' <= len chunkBytes /\ ChunkLen chunk' = ChunkLen chunk
  | Err _ => True
  | Panic w => goPanic w
  end.
Proof.
  intros Hx Hbig. unfold readHostRecord. cbv zeta.
  assert (E : addi x 4 = x + 4) by (apply wrap64_small; lia). rewrite E.
  destruct (Z.gtb_spec (x + 4) (len chunkBytes)); [exact I|].
  destruct (slice chunkBytes x (x + 4)) as [hostKey|e0|w] eqn:Hs; cbn [bind];
    [|exact I|eapply slice_Panic, Hs].
  destruct (index chunkBytes (x + 4)) as [c|e0|w] eqn:Hi; cbn [bind];
    [|exact I|eapply index_Panic, Hi].
  assert (E5 : addi (x + 4) 1 = x + 5)
    by (unfold addi; rewrite wrap64_small by lia; lia).
  rewrite E5.
  match goal with
  | |- context [with_Hashes ?c0 (appendTo _ _ _)] => set (chunk0 := c0)
  end.
  assert (H0 : ChunkLen chunk0 = ChunkLen chunk).
  { unfold chunk0. destruct (aget (Hashes chunk) hostKey); [reflexivity|].
    destruct (decide (cChunkType chunk = CHUNK_TYPE_SUB)); reflexivity. }
  apply index_Ok_bounds in Hi.
  destruct (byteVal c =? 0).
  - pose proof (readAddChunkNum_spec
                  (with_Hashes chunk0 (appendTo (Hashes chunk0) hostKey hostKey))
                  chunkBytes hostKey (x + 5) ltac:(lia) Hbig) as H1.
    destruct (readAddChunkNum _ chunkBytes hostKey (x + 5)) as [[chunk' x']|e0|w]; try exact H1.
    cbn [ChunkLen with_Hashes] in H1. lia.
  - pose proof (readEntries_spec (Z.to_nat (byteVal c)) chunk0 chunkBytes hostKey (x + 5)
                  ltac:(lia) Hbig) as H1.
    destruct (readEntries _ chunk0 chunkBytes hostKey (x + 5)) as [[chunk' x']|e0|w];
      try exact H1.
    lia.
Qed.

(** With as many turns as the chunk has bytes, the loop of [ReadChunk]
    never runs out of them: every turn that succeeds moves [x] forward. *)
Lemma readRecords_fuel (fuel : nat) (chunk : Chunk) (chunkBytes : bytes) (x : Z) :
  0 <= x <= len chunkBytes -> len chunkBytes + 5 < 2 ^ 63 ->
  (Z.to_nat (ChunkLen chunk - x) <= fuel)%nat ->
  match readRecords fuel chunk chunkBytes x with
  | Panic w => goPanic w
  | _ => True
  end.
Proof.
  revert chunk x. induction fuel as [|fuel IH]; intros chunk x Hx Hbig Hfuel;
    cbn [readRecords]; destruct (Z.ltb_spec x (ChunkLen chunk)); try exact I; try lia.
  pose proof (readHostRecord_spec chunk chunkBytes x Hx Hbig) as H1.
  destruct (readHostRecord chunk chunkBytes x) as [[chunk' x']|e0|w]; cbn [bind fst snd];
    try exact H1.
  destruct H1 as [Hx' Hc]. apply IH; [lia|exact Hbig|]. rewrite Hc. lia.
Qed.

Lemma readUntil_length (delim : ascii) (buf line rest : bytes) :
  readUntil delim buf = Some (line, rest) -> (length rest <= length buf)%nat.
Proof.
  revert line rest. induction buf as [|c buf IH]; cbn [readUntil]; intros line rest H;
    [discriminate|].
  destruct (decide (c = delim)).
  - injection H as <- <-. cbn. lia.
  - destruct (readUntil delim buf) as [[l r]|]; [|discriminate].
    injection H as <- <-. specialize (IH _ _ eq_refl). cbn. lia.
Qed.

Lemma parseChunkHeader_no_panic (header : bytes) (w : string) :
  parseChunkHeader header <> Panic w.
Proof.
  unfold parseChunkHeader.
  destruct (Split ":" (TrimSpace header)) as [|p1 [|p2 [|p3 [|p4 [|p5 ps]]]]]; try discriminate.
  destruct (ParseUint p2 32); try discriminate.
  destruct (Atoi p3); try discriminate.
  destruct (Atoi p4); discriminate.
Qed.

(** [ReadChunk] ends for every input, with a chunk, an error or one of
    Go's run-time panics. *)
Lemma ReadChunk_outcomes (buf : Reader) :
  len buf + 5 < 2 ^ 63 ->
  match ReadChunk buf with
  | Panic w => goPanic w \/ w = "makeslice: cap out of range"%string
  | _ => True
  end.
Proof.
  intros Hbig. unfold ReadChunk, ReadString.
  destruct (readUntil newline buf) as [[header buf1]|] eqn:Hr; [|exact I].
  apply readUntil_length in Hr.
  destruct (slice header 0 (len header - 1)) as [hdr|e0|w] eqn:Hs; cbn [bind];
    [|exact I|left; eapply slice_Panic, Hs].
  destruct (parseChunkHeader hdr) as [chunk|e0|w] eqn:Hp; cbn [bind];
    [|exact I|now apply parseChunkHeader_no_panic in Hp].
  unfold readSlice. destruct (Z.ltb_spec (ChunkLen chunk) 0) as [Hneg|Hpos]; [now right|].
  destruct (Nat.leb_spec (Z.to_nat (ChunkLen chunk)) (length buf1)) as [Hle|Hgt]; [|exact I].
  assert (Hlen : len (take (Z.to_nat (ChunkLen chunk)) buf1) = ChunkLen chunk).
  { unfold len. rewrite length_take. lia. }
  pose proof (readRecords_fuel (Z.to_nat (ChunkLen chunk)) chunk
                (take (Z.to_nat (ChunkLen chunk)) buf1) 0) as Hf.
  destruct (readRecords _ chunk _ 0) as [chunk'|e0|w]; cbn [bind]; try exact I.
  left. apply Hf; unfold len in *; try lia.
Qed.

End ChunkCodecFacts.

Import ChunkCodec ChunkCodecFacts.

(** Settles the tests on the kind of [chunk] that a context hypothesis
    decides. *)
Ltac resolve_kind chunk :=
  repeat (cbn [cChunkType with_Hashes with_AddChunkNums Hashes AddChunkNums];
          match goal with
          | |- context [decide (cChunkType chunk = CHUNK_TYPE_SUB)] =>
              destruct (decide (cChunkType chunk = CHUNK_TYPE_SUB)); try contradiction
          end);
  cbn [cChunkType with_Hashes with_AddChunkNums Hashes AddChunkNums].

(** C7: a host-record at offset [x] whose count byte is 0 records the host
    key itself as the entry of that host and, in a SUB chunk, consumes the
    four bytes after the count byte as the big-endian origin add-chunk
    number and records it for that host; the loop of [ReadChunk] then
    goes on with the record that starts behind them. *)
Theorem C7_host_only_record (chunk : Chunk) (chunkBytes : bytes) (x : Z) (hostKey : HostHash) :
  len chunkBytes + 9 < 2 ^ 63 ->
  slice chunkBytes x (x + 4) = Ok hostKey ->
  index chunkBytes (x + 4) = Ok "000"%char ->
  (cChunkType chunk <> CHUNK_TYPE_SUB ->
   exists chunk',
     readHostRecord chunk chunkBytes x = Ok (chunk', x + 5) /\
     aget (Hashes chunk') hostKey
       = Some (default [] (aget (Hashes chunk) hostKey) ++ [hostKey]) /\
     AddChunkNums chunk' = AddChunkNums chunk /\
     (forall fuel, x < ChunkLen chunk ->
        readRecords (S fuel) chunk chunkBytes x = readRecords fuel chunk' chunkBytes (x + 5))) /\
  (cChunkType chunk = CHUNK_TYPE_SUB ->
   forall num, slice chunkBytes (x + 5) (x + 9) = Ok num ->
   exists chunk',
     readHostRecord chunk chunkBytes x = Ok (chunk', x + 9) /\
     aget (Hashes chunk') hostKey
       = Some (default [] (aget (Hashes chunk) hostKey) ++ [hostKey]) /\
     aget (AddChunkNums chunk') hostKey
       = Some (match aget (Hashes chunk) hostKey with
               | Some _ => default [] (aget (AddChunkNums chunk) hostKey)
               | None => []
               end ++ [bigEndian 0 num]) /\
     (forall fuel, x < ChunkLen chunk ->
        readRecords (S fuel) chunk chunkBytes x = readRecords fuel chunk' chunkBytes (x + 9))).
Proof.
  intros Hbig Hhost Hcount.
  pose proof (slice_Ok_bounds _ _ _ _ Hhost) as (Hx0 & _ & Hx4).
  pose proof (index_Ok_bounds _ _ _ Hcount) as [_ Hx5].
  assert (Hlen : 0 <= len chunkBytes) by (unfold len; lia).
  assert (E4 : addi x 4 = x + 4) by (apply wrap64_small; lia).
  assert (E5 : addi (x + 4) 1 = x + 5)
    by (unfold addi; rewrite wrap64_small by lia; lia).
  assert (E9 : addi (x + 5) 4 = x + 9)
    by (unfold addi; rewrite wrap64_small by lia; lia).
  assert (G4 : (x + 4 >? len chunkBytes) = false) by (apply gtb_false; lia).
  split.
  - intros Hadd.
    assert (Hrec : exists chunk',
      readHostRecord chunk chunkBytes x = Ok (chunk', x + 5) /\
      aget (Hashes chunk') hostKey
        = Some (default [] (aget (Hashes chunk) hostKey) ++ [hostKey]) /\
      AddChunkNums chunk' = AddChunkNums chunk).
    { unfold readHostRecord. cbv zeta. rewrite E4, G4, Hhost. cbn [bind].
      rewrite Hcount.
      cbn [bind]. change (byteVal "000" =? 0) with true. cbv iota.
      rewrite E5. unfold readAddChunkNum.
      destruct (aget (Hashes chunk) hostKey) as [old|] eqn:Hold;
        resolve_kind chunk;
        (eexists; split; [reflexivity|]);
        cbn [cChunkType with_Hashes with_AddChunkNums Hashes AddChunkNums];
        rewrite aget_appendTo, ?aget_aset_same;
        split; first [reflexivity | repeat f_equal; exact Hold]. }
    destruct Hrec as (chunk' & Hr & Hh & Hn). exists chunk'. repeat split; auto.
    intros fuel Hlt. cbn [readRecords]. apply Z.ltb_lt in Hlt. rewrite Hlt, Hr. reflexivity.
  - intros Hsub num Hnum.
    pose proof (slice_Ok_bounds _ _ _ _ Hnum) as (_ & _ & Hx9).
    assert (G9 : (x + 9 >? len chunkBytes) = false) by (apply gtb_false; lia).
    assert (Hrec : exists chunk',
      readHostRecord chunk chunkBytes x = Ok (chunk', x + 9) /\
      aget (Hashes chunk') hostKey
        = Some (default [] (aget (Hashes chunk) hostKey) ++ [hostKey]) /\
      aget (AddChunkNums chunk') hostKey
        = Some (match aget (Hashes chunk) hostKey with
                | Some _ => default [] (aget (AddChunkNums chunk) hostKey)
                | None => []
                end ++ [bigEndian 0 num])).
    { unfold readHostRecord. cbv zeta. rewrite E4, G4, Hhost. cbn [bind].
      rewrite Hcount.
      cbn [bind]. change (byteVal "000" =? 0) with true. cbv iota.
      rewrite E5. unfold readAddChunkNum, readChunkNumber.
      destruct (aget (Hashes chunk) hostKey) as [old|] eqn:Hold;
        resolve_kind chunk;
        rewrite E9, G9, Hnum; cbn [bind];
        (eexists; split; [reflexivity|]);
        cbn [cChunkType with_Hashes with_AddChunkNums Hashes AddChunkNums];
        rewrite !aget_appendTo, ?aget_aset_same;
        split; first [reflexivity | repeat f_equal; exact Hold]. }
    destruct Hrec as (chunk' & Hr & Hh & Hn). exists chunk'. repeat split; auto.
    intros fuel Hlt. cbn [readRecords]. apply Z.ltb_lt in Hlt. rewrite Hlt, Hr. reflexivity.
Qed.

Lemma C7_witness :
  exists chunk',
    readHostRecord (mkChunk 9%N CHUNK_TYPE_SUB 4 9 [] [])
                   (hostOnes ++ ["000"; "000"; "000"; "000"; "007"]%char) 0
      = Ok (chunk', 9) /\
    aget (Hashes chunk') hostOnes = Some [hostOnes] /\
    aget (AddChunkNums chunk') hostOnes = Some [7%N].
Proof.
  destruct (proj2 (C7_host_only_record (mkChunk 9%N CHUNK_TYPE_SUB 4 9 [] [])
                     (hostOnes ++ ["000"; "000"; "000"; "000"; "007"]%char) 0 hostOnes
                     ltac:(vm_compute; reflexivity) ltac:(reflexivity) ltac:(reflexivity))
                  ltac:(reflexivity) ["000"; "000"; "000"; "007"]%char ltac:(reflexivity))
    as (chunk' & Hr & Hh & Hn & _).
  exists chunk'. auto.
Defined.

(** C9 fails on the code: the readers panic instead of returning an error
    on a negative length field ([make] with a negative capacity), on a
    body that ends right after a host key (the count byte is read at
    [len(chunkBytes)]), and on a full-hash header with fewer than three
    fields ([bits[2]] is read unchecked). *)
Theorem C9_readers_panic :
  ReadChunk negativeChunkLen = Panic "makeslice: cap out of range" /\
  ReadChunk missingCount = Panic "index out of range" /\
  ReadFullHashChunk twoFields hostOnes = Panic "index out of range" /\
  ReadFullHashChunk negativeFullHashLen hostOnes = Panic "makeslice: cap out of range".
Proof. vm_compute. repeat split; reflexivity. Qed.

(** ** The claim about the HAT-trie binding *)

(** C8, as stated, fails in its last part: a key that was set and then
    deleted is no longer a member, yet a subsequent iterator yields it. *)
Lemma C8_counterexample_deleted_key_yielded :
  Get (Delete (Set_ NewTrie (b "a")) (b "a")) (b "a") = false /\
  yields (Iterator (Delete (Set_ NewTrie (b "a")) (b "a"))) = [b "a"].
Proof. vm_compute. split; reflexivity. Qed.

(** C8, amended: for every trie and key, [Get] is true after [Set] and
    false after [Delete], whether or not the key was ever set; and for a
    trie built from [NewTrie] by any sequence of [Set] and [Delete] calls,
    the iterator yields, in ascending byte order, exactly the keys that
    were ever [Set], each as the C string up to its first NUL byte,
    whether or not they were deleted since: [Delete] zeroes the value of a
    key and keeps the key. *)
Theorem C8_set_get_delete_iterate (t : hattrie_t) (k : bytes) (ops : list op) :
  Get (Set_ t k) k = true /\
  Get (Delete t k) k = false /\
  StronglySorted bytes_lt (yields (Iterator (run ops))) /\
  (forall key, key ∈ yields (Iterator (run ops)) <->
               exists k', OpSet k' ∈ ops /\ key = cstring k').
Proof.
  split; [apply Get_Set_same|]. split; [apply Get_Delete_same|].
  rewrite yields_Iterator, run_keys_cstring. split.
  - apply run_sorted.
  - intros key. apply run_keys.
Qed.

(** ** The lookup pipeline and the full-hash request engine *)

Module QueryFacts.

Import HatTrie HatTrieFacts Query.

Lemma Get_Set_true (t : hattrie_t) (k k' : bytes) :
  Get t k' = true -> Get (Set_ t k) k' = true.
Proof.
  intros H. destruct (decide (cstring k = cstring k')) as [Heq|Hne].
  - rewrite <- (ListEngineFacts.Get_cstring _ k'), <- Heq, ListEngineFacts.Get_cstring.
    apply Get_Set_same.
  - now rewrite Get_Set_other.
Qed.

Lemma Get_Delete_false (t : hattrie_t) (k k' : bytes) :
  Get t k' = false -> Get (Delete t k) k' = false.
Proof.
  intros H. destruct (Get (Delete t k) k') eqn:E; [|reflexivity].
  apply Get_Delete_true in E. congruence.
Qed.

Section Pipeline.

Variable OfflineMode : bool.
Variable now : Z.
Variable Canonicalize : bytes -> bytes.
Variable GenerateTestCandidates : bytes -> list bytes.
Variable getHash : bytes -> LookupHash.
Variable request : nat -> string -> bytes -> Response + string.
Variable processFullHashes :
  bytes -> list (string * SafeBrowsingList) -> Ext (list (string * SafeBrowsingList)).

Local Abbreviation scan := (scanCandidates OfflineMode now getHash).
Local Abbreviation ask := (requestFullHashes request processFullHashes).
Local Abbreviation visit := (queryLists OfflineMode now getHash request processFullHashes).
Local Abbreviation query :=
  (queryUrl OfflineMode now Canonicalize GenerateTestCandidates getHash request
            processFullHashes).

(** *** The candidate scan *)

Lemma evictStale_marks (h p q : bytes) (sbl : SafeBrowsingList) :
  Get (FullHashRequested sbl) q = false ->
  Get (FullHashRequested (evictStale now h p sbl)) q = false.
Proof.
  intros H. unfold evictStale. destruct (Cache sbl !! h) as [fhc|]; [|exact H].
  destruct (checkValidity now fhc); [exact H|]. simpl. now apply Get_Delete_false.
Qed.

(** Every prefix a scan hands on is unmarked in the list it hands on. *)
Lemma scan_unmarked (m : bool) (urls : list bytes) (sbl sbl' : SafeBrowsingList)
  (keys keys' : list LookupHash) :
  scan m urls sbl keys = Ok (Missed keys' sbl') ->
  (forall p, p ∈ keys -> Get (FullHashRequested sbl) p = false) ->
  forall p, p ∈ keys' -> Get (FullHashRequested sbl') p = false.
Proof.
  revert sbl keys. induction urls as [|url urls IH]; simpl; intros sbl keys H Hkeys.
  - injection H as <- <-. exact Hkeys.
  - destruct (slice (getHash url) 0 PREFIX_4B_SZ) as [prefix| |]; simpl in H; try discriminate.
    set (sbl1 := evictStale now (getHash url) prefix sbl) in *.
    assert (Hkeys1 : forall p, p ∈ keys -> Get (FullHashRequested sbl1) p = false).
    { intros p Hp. apply evictStale_marks. now apply Hkeys. }
    destruct (Get (FullHashes sbl1) (getHash url)); [discriminate|].
    destruct (Get (Lookup sbl1) prefix); [|eapply IH; eauto].
    destruct (negb m || OfflineMode); [discriminate|].
    destruct (Get (FullHashRequested sbl1) prefix) eqn:Hreq; [eapply IH; eauto|].
    eapply IH; [exact H|]. intros p Hp. unfold addKey in Hp.
    case_decide; [now apply Hkeys1|].
    apply elem_of_app in Hp as [Hp|Hp]; [now apply Hkeys1|].
    apply list_elem_of_singleton in Hp. now subst p.
Qed.

(** A scan for [MightBeListed] hands on no prefix. *)
Lemma scan_quick (urls : list bytes) (sbl sbl' : SafeBrowsingList)
  (keys keys' : list LookupHash) :
  scan false urls sbl keys = Ok (Missed keys' sbl') -> keys' = keys.
Proof.
  revert sbl. induction urls as [|url urls IH]; simpl; intros sbl H.
  - now injection H as <- <-.
  - destruct (slice (getHash url) 0 PREFIX_4B_SZ) as [prefix| |]; simpl in H; try discriminate.
    destruct (Get (FullHashes _) (getHash url)); [discriminate|].
    destruct (Get (Lookup _) prefix); [discriminate|]. eapply IH, H.
Qed.

Lemma scan_no_error (m : bool) (urls : list bytes) (sbl : SafeBrowsingList)
  (keys : list LookupHash) (e : error) :
  scan m urls sbl keys <> Err e.
Proof.
  revert sbl keys. induction urls as [|url urls IH]; simpl; intros sbl keys; [discriminate|].
  unfold slice. destruct (_ && _); simpl; [|discriminate].
  destruct (Get (FullHashes _) (getHash url)); [discriminate|].
  destruct (Get (Lookup _) _); [|apply IH].
  destruct (negb m || OfflineMode); [discriminate|].
  destruct (Get (FullHashRequested _) _); apply IH.
Qed.

(** *** The request *)

Lemma writePrefixes_error (ps : list LookupHash) (buf : bytes) (n : Z) (e : error) :
  writePrefixes ps buf n = Err e -> e <> ErrOutOfDateHashes.
Proof.
  revert buf n. induction ps as [|p ps IH]; simpl; intros buf n H; [discriminate|].
  destruct (negb _); [injection H as <-; discriminate|]. eapply IH, H.
Qed.

Lemma markRequested_no_error (sb : SafeBrowsing) (listName : string)
  (ps : list LookupHash) (e : error) :
  markRequested sb listName ps <> Err e.
Proof.
  revert sb. induction ps as [|p ps IH]; simpl; intros sb; [discriminate|].
  destruct (aget (Lists sb) listName); [apply IH|discriminate].
Qed.

Lemma aget_setList (sb : SafeBrowsing) (listName : string) (sbl : SafeBrowsingList) :
  aget (Lists (setList sb listName sbl)) listName = Some sbl.
Proof. unfold setList. simpl. apply ChunkCodecFacts.aget_aset_same. Qed.

(** Marking: every prefix ends up marked, and the marks are the only
    events. *)
Lemma markRequested_Ok (sb : SafeBrowsing) (listName : string) (ps : list LookupHash) :
  is_Some (aget (Lists sb) listName) ->
  exists sb2,
    markRequested sb listName ps = Ok sb2 /\
    trace sb2 = trace sb ++ map (Marked listName) ps /\
    is_Some (aget (Lists sb2) listName) /\
    (forall p, Get (markedOf sb listName) p = true -> Get (markedOf sb2 listName) p = true) /\
    (forall p, p ∈ ps -> Get (markedOf sb2 listName) p = true).
Proof.
  revert sb. induction ps as [|q ps IH]; simpl; intros sb [sbl Hsbl].
  - exists sb. rewrite app_nil_r. repeat split; eauto. intros p Hp. inversion Hp.
  - rewrite Hsbl.
    set (sb1 := emit (setList sb listName _) (Marked listName q)).
    assert (H1 : aget (Lists sb1) listName
                 = Some (mkList (Lookup sbl) (Set_ (FullHashRequested sbl) q)
                                (FullHashes sbl) (Cache sbl)))
      by apply aget_setList.
    destruct (IH sb1) as (sb2 & Hm & Ht & Hs & Hmono & Hall); [rewrite H1; eauto|].
    exists sb2. split; [exact Hm|]. split; [|split; [exact Hs|split]].
    + rewrite Ht. simpl. now rewrite <- app_assoc.
    + intros p Hp. apply Hmono. unfold markedOf in *. rewrite H1. rewrite Hsbl in Hp.
      simpl. now apply Get_Set_true.
    + intros p Hp. apply elem_of_cons in Hp as [->|Hp]; [|now apply Hall].
      apply Hmono. unfold markedOf. rewrite H1. simpl. apply Get_Set_same.
Qed.

Lemma markRequested_trace (sb sb2 : SafeBrowsing) (listName : string) (ps : list LookupHash) :
  markRequested sb listName ps = Ok sb2 ->
  trace sb2 = trace sb ++ map (Marked listName) ps.
Proof.
  revert sb. induction ps as [|q ps IH]; simpl; intros sb H.
  - injection H as <-. now rewrite app_nil_r.
  - destruct (aget (Lists sb) listName); [|discriminate].
    apply IH in H. rewrite H. simpl. now rewrite <- app_assoc.
Qed.

(** The events [handleResponse] adds hold no request. *)
Lemma handleResponse_trace (sb : SafeBrowsing) (url : string) (body : bytes) (r : Response) :
  exists new,
    trace (snd (handleResponse processFullHashes sb url body r)) = trace sb ++ new /\
    Forall (fun ev => isRequest ev = false) new.
Proof.
  unfold handleResponse. destruct (negb (StatusCode r =? 200)).
  - destruct (StatusCode r =? 503); simpl.
    + eexists. split; [reflexivity|]. now repeat constructor.
    + exists []. now rewrite app_nil_r.
  - destruct (BodyErr r); simpl; [exists []; now rewrite app_nil_r|].
    destruct (processFullHashes (Body r) (Lists sb)); simpl; exists []; now rewrite app_nil_r.
Qed.

Lemma handleResponse_error (sb : SafeBrowsing) (url : string) (body : bytes) (r : Response) :
  fst (handleResponse processFullHashes sb url body r) <> Err ErrOutOfDateHashes.
Proof.
  unfold handleResponse. destruct (negb (StatusCode r =? 200)).
  - destruct (StatusCode r =? 503); simpl; discriminate.
  - destruct (BodyErr r); simpl; [discriminate|].
    destruct (processFullHashes (Body r) (Lists sb)); simpl; discriminate.
Qed.

Lemma requestFullHashes_error (sb : SafeBrowsing) (listName : string) (ps : list LookupHash) :
  fst (ask sb listName ps) <> Err ErrOutOfDateHashes.
Proof.
  unfold requestFullHashes. destruct ps as [|p ps]; [simpl; discriminate|].
  destruct (writePrefixes (p :: ps) [] 0) as [[buf n]|e|w] eqn:Hw; cbv zeta.
  - destruct (request _ _ _) as [r|msg]; [|cbn [fst]; discriminate].
    match goal with
    | |- context [markRequested ?s ?l ?q] =>
        destruct (markRequested s l q) as [sb2|e|w] eqn:Hm
    end.
    + apply handleResponse_error.
    + now apply markRequested_no_error in Hm.
    + cbn [fst]. discriminate.
  - cbn [fst]. intros H. injection H as ->. now apply writePrefixes_error in Hw.
  - cbn [fst]. discriminate.
Qed.

(** The events of one call of [requestFullHashes]: at most one request,
    for the prefixes it was given, issued while the marks were those of
    before the call. *)
Lemma requestFullHashes_trace (sb : SafeBrowsing) (listName : string) (ps : list LookupHash) :
  exists new,
    trace (snd (ask sb listName ps)) = trace sb ++ new /\
    forall l body qs marked, Requested l body qs marked ∈ new ->
                             qs = ps /\ marked = markedOf sb listName.
Proof.
  unfold requestFullHashes. destruct ps as [|p ps].
  { exists []. simpl. rewrite app_nil_r. split; [reflexivity|]. intros ? ? ? ? H. inversion H. }
  destruct (writePrefixes (p :: ps) [] 0) as [[buf n]|e|w] eqn:Hw; cbv zeta;
    try (exists []; cbn [snd]; rewrite app_nil_r; split; [reflexivity|];
         intros ? ? ? ? H; inversion H).
  set (ev := Requested listName (gethashBody buf n) (p :: ps) (markedOf sb listName)).
  assert (Hev : forall tail, Forall (fun e => isRequest e = false) tail ->
            forall l body qs marked, Requested l body qs marked ∈ ev :: tail ->
              qs = p :: ps /\ marked = markedOf sb listName).
  { intros tail Htail l body qs marked Hin. apply elem_of_cons in Hin as [Hin|Hin].
    - unfold ev in Hin. injection Hin as -> -> -> ->. auto.
    - rewrite Forall_forall in Htail. apply Htail in Hin. discriminate. }
  destruct (request _ _ _) as [r|msg].
  - destruct (markRequested (emit sb ev) listName (p :: ps)) as [sb2|e|w] eqn:Hm.
    + apply markRequested_trace in Hm.
      destruct (handleResponse_trace sb2 (gethashUrl sb) (gethashBody buf n) r)
        as (new & Ht & Hnew).
      exists (ev :: map (Marked listName) (p :: ps) ++ new). split.
      * rewrite Ht, Hm. cbn [trace emit]. rewrite <- !app_assoc. reflexivity.
      * apply Hev. apply Forall_app. split; [|exact Hnew].
        apply Forall_forall. intros e' He'. apply list_elem_of_fmap in He' as (q & -> & _).
        reflexivity.
    + exists [ev]. split; [reflexivity|]. apply Hev. constructor.
    + exists [ev]. split; [reflexivity|]. apply Hev. constructor.
  - exists [ev]. split; [reflexivity|]. apply Hev. constructor.
Qed.

(** *** The visit of the lists *)

Lemma visit_trace (m : bool) (urls : list bytes) (names : list string) (sb : SafeBrowsing) :
  exists new,
    trace (snd (visit m urls names sb)) = trace sb ++ new /\
    forall l body qs marked, Requested l body qs marked ∈ new ->
      forall p, p ∈ qs -> Get marked p = false.
Proof.
  revert sb. induction names as [|listName names IH]; intros sb; cbn [queryLists].
  { exists []. cbn [snd]. rewrite app_nil_r. split; [reflexivity|].
    intros ? ? ? ? H. inversion H. }
  destruct (aget (Lists sb) listName) as [sbl|]; [|apply IH].
  destruct (scan m urls sbl []) as [[hit sbl'|keys sbl']|e|w] eqn:Hscan;
    try (exists []; cbn [snd]; rewrite ?app_nil_r; split; [reflexivity|];
         intros ? ? ? ? H; inversion H).
  destruct keys as [|k keys].
  { destruct (IH (setList sb listName sbl')) as (new & Ht & Hnew). exists new. auto. }
  pose proof (scan_unmarked _ _ _ _ _ _ Hscan) as Hun.
  destruct (requestFullHashes_trace (setList sb listName sbl') listName (k :: keys))
    as (new1 & Ht1 & Hnew1).
  assert (Hall1 : forall l body qs marked, Requested l body qs marked ∈ new1 ->
            forall p, p ∈ qs -> Get marked p = false).
  { intros l body qs marked Hin p Hp. apply Hnew1 in Hin as [-> ->].
    unfold markedOf. rewrite aget_setList. apply Hun; [|exact Hp].
    intros q Hq. inversion Hq. }
  destruct (ask (setList sb listName sbl') listName (k :: keys)) as [[[]|e|w] sb1];
    cbn [snd] in Ht1;
    try solve [exists new1; split; [exact Ht1|exact Hall1]].
  destruct (recheck getHash sb1 listName urls).
  { exists new1. split; [exact Ht1|exact Hall1]. }
  destruct (IH sb1) as (new2 & Ht2 & Hnew2).
  exists (new1 ++ new2). split.
  - rewrite Ht2, Ht1. cbn [trace setList with_Lists]. now rewrite app_assoc.
  - intros l body qs marked Hin. apply elem_of_app in Hin as [Hin|Hin]; eauto.
Qed.

Lemma visit_error (m : bool) (urls : list bytes) (names : list string) (sb : SafeBrowsing) :
  fst (visit m urls names sb) <> Err ErrOutOfDateHashes.
Proof.
  revert sb. induction names as [|listName names IH]; intros sb; cbn [queryLists];
    [cbn [fst]; discriminate|].
  destruct (aget (Lists sb) listName) as [sbl|]; [|apply IH].
  destruct (scan m urls sbl []) as [[hit sbl'|keys sbl']|e|w] eqn:Hscan;
    try (cbn [fst]; discriminate).
  - destruct keys as [|k keys]; [apply IH|].
    pose proof (requestFullHashes_error (setList sb listName sbl') listName (k :: keys)) as He.
    destruct (ask (setList sb listName sbl') listName (k :: keys)) as [[[]|e|w] sb1];
      cbn [fst] in *; try discriminate.
    + destruct (recheck getHash sb1 listName urls); [cbn [fst]; discriminate|apply IH].
    + intros Hx. apply He. injection Hx as ->. reflexivity.
  - now apply scan_no_error in Hscan.
Qed.

(** A visit for [MightBeListed] asks the server nothing and returns no
    error. *)
Lemma visit_quick (urls : list bytes) (names : list string) (sb : SafeBrowsing) :
  (forall e, fst (visit false urls names sb) <> Err e) /\
  trace (snd (visit false urls names sb)) = trace sb.
Proof.
  revert sb. induction names as [|listName names IH]; intros sb; cbn [queryLists];
    [split; [cbn [fst]; discriminate|reflexivity]|].
  destruct (aget (Lists sb) listName) as [sbl|]; [|apply IH].
  destruct (scan false urls sbl []) as [[hit sbl'|keys sbl']|e|w] eqn:Hscan;
    try (split; [cbn [fst]; discriminate|reflexivity]).
  - apply scan_quick in Hscan. subst keys.
    destruct (IH (setList sb listName sbl')) as [H1 H2].
    split; [exact H1|]. rewrite H2. reflexivity.
  - now apply scan_no_error in Hscan.
Qed.

End Pipeline.

End QueryFacts.

(** ** The claims about lookups and full-hash requests *)

(** C4, as stated, fails: in offline mode [queryUrl(url, true)] returns the
    stale-lists error although the last update is only ten minutes old. *)
Lemma C4_counterexample_offline :
  fst (Query.queryUrl true (10 * Query.minute) Query.canonicalizeTestCom
         Query.candidatesTestCom Query.hashTestCom Query.unreachable Query.storesNothing
         Query.testClient (b "http://test.com/") true)
    = Err ErrOutOfDateHashes /\
  10 * Query.minute - Query.LastUpdated Query.testClient < 45 * Query.minute.
Proof. vm_compute. split; reflexivity. Qed.

(** C4, amended: [queryUrl(url, true)], and hence [IsListed], fails with
    the stale-lists error exactly when the client is in offline mode or
    the last successful update is at least 45 minutes old;
    [queryUrl(url, false)], that is [MightBeListed], returns no error at
    all and answers from the local index without a request to the
    server. *)
Theorem C4_staleness
  (OfflineMode : bool) (now : Z)
  (Canonicalize : bytes -> bytes) (GenerateTestCandidates : bytes -> list bytes)
  (getHash : bytes -> LookupHash)
  (request : nat -> string -> bytes -> Query.Response + string)
  (processFullHashes : bytes -> list (string * Query.SafeBrowsingList)
                       -> Query.Ext (list (string * Query.SafeBrowsingList)))
  (sb : Query.SafeBrowsing) (url : bytes) :
  (fst (Query.queryUrl OfflineMode now Canonicalize GenerateTestCandidates getHash
          request processFullHashes sb url true) = Err ErrOutOfDateHashes
   <-> OfflineMode = true \/ 45 * Query.minute <= now - Query.LastUpdated sb) /\
  (forall e, fst (Query.queryUrl OfflineMode now Canonicalize GenerateTestCandidates
                    getHash request processFullHashes sb url false) <> Err e) /\
  Query.trace (snd (Query.queryUrl OfflineMode now Canonicalize GenerateTestCandidates
                      getHash request processFullHashes sb url false))
    = Query.trace sb.
Proof.
  unfold Query.queryUrl, Query.IsUpToDate. split; [|cbn [andb]; apply QueryFacts.visit_quick].
  cbn [andb]. destruct OfflineMode; cbn [negb andb].
  - cbn [fst]. split; [now left|reflexivity].
  - destruct (Z.ltb_spec (now - Query.LastUpdated sb) (45 * Query.minute)) as [Hlt|Hge];
      cbn [negb].
    + split.
      * intros H. now apply QueryFacts.visit_error in H.
      * intros [H|H]; [discriminate|lia].
    + cbn [fst]. split; [now right|reflexivity].
Qed.

(** C5, as stated, fails.  With a transport that cannot reach the server,
    two calls of [IsListed] for one URL issue two [gethash] requests for
    the same list and prefix, each while the prefix is unmarked; and when
    the transport answers, the prefix is marked after the request has
    returned, not before. *)
Lemma C5_counterexample_repeated_request :
  let ask := fun tr sb =>
    Query.IsListed false (10 * Query.minute) Query.canonicalizeTestCom
      Query.candidatesTestCom Query.hashTestCom tr Query.storesNothing
      sb (b "http://test.com/") in
  let prefix := take 4 Query.hashOfTestCom in
  let body := b "4:4" ++ [ChunkCodec.newline] ++ prefix in
  let req := Query.Requested "googpub-phish-shavar" body [prefix] NewTrie in
  Query.trace (snd (ask Query.unreachable (snd (ask Query.unreachable Query.testClient))))
    = [req; req] /\
  Query.trace (snd (ask Query.answers200 Query.testClient))
    = [req; Query.Marked "googpub-phish-shavar" prefix].
Proof. vm_compute. split; reflexivity. Qed.

(** C5, amended: every [gethash] request that [queryUrl] issues is for
    prefixes that are all unmarked in [FullHashRequested] when the request
    is handed to the transport; [requestFullHashes] issues one request for
    the prefixes it is given and marks them after the transport has
    returned a response, whatever its status, and marks nothing when the
    transport returns an error, so that the prefix is requested again by
    a later query. *)
Theorem C5_requests_and_marks
  (OfflineMode : bool) (now : Z)
  (Canonicalize : bytes -> bytes) (GenerateTestCandidates : bytes -> list bytes)
  (getHash : bytes -> LookupHash)
  (request : nat -> string -> bytes -> Query.Response + string)
  (processFullHashes : bytes -> list (string * Query.SafeBrowsingList)
                       -> Query.Ext (list (string * Query.SafeBrowsingList)))
  (sb : Query.SafeBrowsing) (url : bytes) (matchFullHash : bool)
  (listName : string) (prefixes : list LookupHash) (buf : bytes) (n : Z) :
  prefixes <> [] ->
  Query.writePrefixes prefixes [] 0 = Ok (buf, n) ->
  is_Some (aget (Query.Lists sb) listName) ->
  (exists new,
     Query.trace (snd (Query.queryUrl OfflineMode now Canonicalize GenerateTestCandidates
                         getHash request processFullHashes sb url matchFullHash))
       = Query.trace sb ++ new /\
     forall l body qs marked, Query.Requested l body qs marked ∈ new ->
       forall p, p ∈ qs -> Get marked p = false) /\
  match request (Query.requestCount sb) (Query.gethashUrl sb) (Query.gethashBody buf n) with
  | inr msg =>
      Query.requestFullHashes request processFullHashes sb listName prefixes
      = (Err (ExtErr msg),
         Query.emit sb (Query.Requested listName (Query.gethashBody buf n) prefixes
                                        (Query.markedOf sb listName)))
  | inl response =>
      exists sb2,
        Query.requestFullHashes request processFullHashes sb listName prefixes
        = Query.handleResponse processFullHashes sb2 (Query.gethashUrl sb)
                               (Query.gethashBody buf n) response /\
        Query.trace sb2
        = Query.trace sb
          ++ Query.Requested listName (Query.gethashBody buf n) prefixes
                             (Query.markedOf sb listName)
             :: map (Query.Marked listName) prefixes /\
        forall p, p ∈ prefixes -> Get (Query.markedOf sb2 listName) p = true
  end.
Proof.
  intros Hne Hw Hlist. split.
  - unfold Query.queryUrl. destruct (matchFullHash && _).
    + exists []. cbn [snd]. rewrite app_nil_r. split; [reflexivity|].
      intros ? ? ? ? H. inversion H.
    + apply QueryFacts.visit_trace.
  - unfold Query.requestFullHashes. destruct prefixes as [|p ps]; [contradiction|].
    rewrite Hw. cbv zeta. destruct (request _ _ _) as [response|msg]; [|reflexivity].
    set (ev := Query.Requested listName (Query.gethashBody buf n) (p :: ps)
                               (Query.markedOf sb listName)).
    destruct (QueryFacts.markRequested_Ok (Query.emit sb ev) listName (p :: ps) Hlist)
      as (sb2 & Hm & Ht & _ & _ & Hall).
    exists sb2. rewrite Hm. split; [reflexivity|]. split; [|exact Hall].
    rewrite Ht. cbn [Query.trace Query.emit]. now rewrite <- app_assoc.
Qed.

Lemma C5_witness :
  exists sb2,
    Query.requestFullHashes Query.answers200 Query.storesNothing Query.testClient
      "googpub-phish-shavar" [take 4 Query.hashOfTestCom]
    = Query.handleResponse Query.storesNothing sb2 (Query.gethashUrl Query.testClient)
        (Query.gethashBody (take 4 Query.hashOfTestCom) 4) (Query.mkResponse 200 [] None) /\
    Query.trace sb2
    = Query.trace Query.testClient
      ++ Query.Requested "googpub-phish-shavar"
           (Query.gethashBody (take 4 Query.hashOfTestCom) 4) [take 4 Query.hashOfTestCom]
           (Query.markedOf Query.testClient "googpub-phish-shavar")
         :: map (Query.Marked "googpub-phish-shavar") [take 4 Query.hashOfTestCom] /\
    forall p, p ∈ [take 4 Query.hashOfTestCom] ->
              Get (Query.markedOf sb2 "googpub-phish-shavar") p = true.
Proof.
  exact (proj2 (C5_requests_and_marks false (10 * Query.minute) Query.canonicalizeTestCom
                  Query.candidatesTestCom Query.hashTestCom Query.answers200
                  Query.storesNothing Query.testClient (b "http://test.com/") true
                  "googpub-phish-shavar" [take 4 Query.hashOfTestCom]
                  (take 4 Query.hashOfTestCom) 4
                  ltac:(discriminate) ltac:(reflexivity) ltac:(vm_compute; eauto))).
Defined.

(** C10 fails on the code: whatever the arguments, the back-off task
    assigns [StatusCode] through the nil [response] it has just declared
    and panics before its first request. *)
Theorem C10_backoff_dereferences_nil
  (request : nat -> string -> bytes -> Query.Response + string)
  (processFullHashes : bytes -> list (string * Query.SafeBrowsingList)
                       -> Query.Ext (list (string * Query.SafeBrowsingList)))
  (retries : nat) (randomFloat : Q) (sb : Query.SafeBrowsing) (url : string) (body : bytes) :
  Query.doFullHashBackOffRequest request processFullHashes retries randomFloat sb url body
  = (Panic "invalid memory address or nil pointer dereference", sb).
Proof. destruct retries; reflexivity. Qed.

(** ** The claim about the redirect list *)

(** C6 fails on the code: on the redirect list of scenario 4 the update
    delay is read, but the redirects are stored with the scheme [http://]
    and every list is left with the empty delete sets of the map declared
    before the loop, which the [ad:] and [sd:] lines never write to. *)
Theorem C6_scenario4_on_the_code :
  exists ss,
    Redirects.processRedirectList Redirects.noReset Redirects.twoLists
      (Redirects.ScanLines Redirects.scenario4) None = Ok ss /\
    Redirects.UpdateDelay ss = 1200 /\
    Redirects.dataRedirectsOf ss "phish"
      = Some ["http://cache.example/first"; "http://cache.example/first_1"]%string /\
    Redirects.dataRedirectsOf ss "malware" = Some ["http://cache.example/second"]%string /\
    Redirects.deleteChunksOf ss "phish" CHUNK_TYPE_SUB = Some ∅ /\
    Redirects.deleteChunksOf ss "malware" CHUNK_TYPE_ADD = Some ∅ /\
    Redirects.deleteChunksOf ss "malware" CHUNK_TYPE_SUB = Some ∅.
Proof. eexists. vm_compute. repeat split; reflexivity. Qed.

(** * Further properties of the code *)

(** ** The chunk codec: cursor and shape of a decoded chunk *)

Module ChunkShapeFacts.

Import ChunkCodec ChunkCodecFacts ChunkShape.

Lemma readUntil_split (delim : ascii) (buf line rest : bytes) :
  readUntil delim buf = Some (line, rest) ->
  exists header, line = header ++ [delim] /\ buf = header ++ delim :: rest /\ delim ∉ header.
Proof.
  revert line rest. induction buf as [|c buf IH]; cbn [readUntil]; intros line rest H;
    [discriminate|].
  destruct (decide (c = delim)) as [->|Hne].
  - injection H as <- <-. exists []. repeat split. intros Hin. inversion Hin.
  - destruct (readUntil delim buf) as [[l r]|]; [|discriminate].
    injection H as <- <-. destruct (IH _ _ eq_refl) as (h & -> & -> & Hn).
    exists (c :: h). repeat split. intros Hin. apply elem_of_cons in Hin as [->|Hin]; auto.
Qed.

Lemma readUntil_app (delim : ascii) (buf line rest more : bytes) :
  readUntil delim buf = Some (line, rest) ->
  readUntil delim (buf ++ more) = Some (line, rest ++ more).
Proof.
  revert line rest. induction buf as [|c buf IH]; cbn [readUntil app]; intros line rest H;
    [discriminate|].
  destruct (decide (c = delim)) as [->|Hne].
  - now injection H as <- <-.
  - destruct (readUntil delim buf) as [[l r]|]; [|discriminate].
    injection H as <- <-. now rewrite (IH _ _ eq_refl).
Qed.

Lemma aget_aset_ne {K V} `{EqDecision K} (m : list (K * V)) (k k' : K) (v : V) :
  k' <> k -> aget (aset m k v) k' = aget m k'.
Proof.
  intros Hne. induction m as [|[k0 v0] m IH]; simpl.
  - now rewrite decide_False.
  - destruct (decide (k = k0)) as [->|Hk]; simpl.
    + destruct (decide (k' = k0)); [contradiction|reflexivity].
    + destruct (decide (k' = k0)); [reflexivity|exact IH].
Qed.

Lemma slice_length {A} (s r : list A) (lo hi : Z) :
  slice s lo hi = Ok r -> len r = hi - lo.
Proof.
  intros H. pose proof (slice_Ok_bounds _ _ _ _ H) as (H0 & H1 & H2).
  unfold slice in H. destruct (_ && _); [|discriminate]. injection H as <-.
  unfold len in *. rewrite length_take, length_drop. lia.
Qed.

Lemma bigEndian_bound (bs : bytes) (acc : N) :
  (bigEndian acc bs < (acc + 1) * 256 ^ N.of_nat (length bs))%N.
Proof.
  revert acc. induction bs as [|c bs IH]; intros acc; cbn [bigEndian length].
  - cbn. lia.
  - specialize (IH (acc * 256 + N_of_ascii c)%N).
    assert (N_of_ascii c < 256)%N by apply N_ascii_bounded.
    rewrite Nat2N.inj_succ, N.pow_succ_r'. nia.
Qed.

Lemma addi_nowrap (x k : Z) :
  0 <= x -> 0 <= k < 2 ^ 63 -> x <= addi x k -> addi x k = x + k.
Proof.
  intros Hx Hk Hle. unfold addi, wrap64 in *.
  destruct (Z.lt_ge_cases (x + k) (2 ^ 63)) as [Hs|Hb].
  - rewrite Z.mod_small by lia. lia.
  - exfalso.
    assert (Hr : (x + k + 2 ^ 63) mod 2 ^ 64 < 2 ^ 64) by (apply Z.mod_pos_bound; lia).
    assert (x < 2 ^ 63) by lia.
    replace (x + k + 2 ^ 63) with (x + k - 2 ^ 63 + 1 * 2 ^ 64) in Hle by lia.
    rewrite Z_mod_plus_full, Z.mod_small in Hle by lia. lia.
Qed.

Lemma readAddChunkNum_inv (chunk chunk' : Chunk) (chunkBytes : bytes) (hostKey : HostHash)
  (x x' : Z) :
  readAddChunkNum chunk chunkBytes hostKey x = Ok (chunk', x') ->
  (cChunkType chunk = CHUNK_TYPE_SUB /\
   exists n, (n < 2 ^ 32)%N /\
     chunk' = with_AddChunkNums chunk (appendTo (AddChunkNums chunk) hostKey n)) \/
  (cChunkType chunk <> CHUNK_TYPE_SUB /\ chunk' = chunk).
Proof.
  unfold readAddChunkNum, readChunkNumber.
  destruct (decide (cChunkType chunk = CHUNK_TYPE_SUB)) as [Hsub|Hadd].
  - destruct (addi x 4 >? len chunkBytes) eqn:Hgt; [discriminate|].
    destruct (slice chunkBytes x (addi x 4)) as [r|e0|w] eqn:Hs; cbn [bind]; try discriminate.
    intros H. injection H as <- <-. left. split; [exact Hsub|].
    exists (bigEndian 0 r). split; [|reflexivity].
    pose proof (slice_length _ _ _ _ Hs) as Hl.
    pose proof (slice_Ok_bounds _ _ _ _ Hs) as (H0 & H1 & H2).
    rewrite addi_nowrap in Hl by lia.
    pose proof (bigEndian_bound r 0) as Hb.
    replace (N.of_nat (length r)) with 4%N in Hb by (unfold len in Hl; lia).
    exact Hb.
  - intros H. injection H as <- <-. now right.
Qed.

Lemma wellFormed_entry (c c1 : Chunk) (h p : bytes) :
  wellFormed c -> len h = 4 ->
  p = h \/ len p = HashLen c ->
  ((cChunkType c = CHUNK_TYPE_SUB /\
    exists n, (n < 2 ^ 32)%N /\
      c1 = with_AddChunkNums c (appendTo (AddChunkNums c) h n)) \/
   (cChunkType c <> CHUNK_TYPE_SUB /\ c1 = c)) ->
  wellFormed (with_Hashes c1 (appendTo (Hashes c1) h p)).
Proof.
  intros [Hh Hp Ha Hn] Hlen Hpl Hc1.
  assert (Hhs : forall c0, Hashes c0 = Hashes c -> HashLen c0 = HashLen c ->
            forall h0 hs, aget (appendTo (Hashes c0) h p) h0 = Some hs ->
              len h0 = 4 /\ Forall (fun q => q = h0 \/ len q = HashLen c) hs).
  { intros c0 E1 E2 h0 hs. rewrite E1. unfold appendTo.
    destruct (decide (h0 = h)) as [->|Hne].
    - rewrite aget_aset_same. intros [= <-]. split; [exact Hlen|].
      apply Forall_app. split.
      + destruct (aget _ h) as [hs0|] eqn:E; simpl; [|constructor].
        exact (proj2 (Hh _ _ E)).
      + constructor; [exact Hpl|constructor].
    - rewrite aget_aset_ne by exact Hne. apply Hh. }
  destruct Hc1 as [(Hsub & n & Hlt & ->)|(Hadd & ->)].
  - constructor; cbn [Hashes AddChunkNums HashLen cChunkType with_Hashes with_AddChunkNums].
    + apply (Hhs c); reflexivity.
    + intros _ h0. unfold addChunkNumsOf, hashesOf.
      cbn [Hashes AddChunkNums with_Hashes with_AddChunkNums]. unfold appendTo.
      destruct (decide (h0 = h)) as [->|Hne].
      * rewrite !aget_aset_same. cbn. rewrite !length_app. cbn.
        specialize (Hp Hsub h). unfold addChunkNumsOf, hashesOf in Hp. f_equal. exact Hp.
      * rewrite !aget_aset_ne by exact Hne. apply (Hp Hsub h0).
    + intros Hx. contradiction.
    + intros h0 ns. unfold appendTo. destruct (decide (h0 = h)) as [->|Hne].
      * rewrite aget_aset_same. intros [= <-]. apply Forall_app. split.
        -- destruct (aget _ h) as [ns0|] eqn:E; simpl; [|constructor].
           exact (Hn _ _ E).
        -- constructor; [exact Hlt|constructor].
      * rewrite aget_aset_ne by exact Hne. apply Hn.
  - constructor; cbn [Hashes AddChunkNums HashLen cChunkType with_Hashes with_AddChunkNums].
    + apply (Hhs c); reflexivity.
    + intros Hx. contradiction.
    + exact Ha.
    + exact Hn.
Qed.

Lemma sameHeader_refl (c : Chunk) : sameHeader c c.
Proof. repeat split. Qed.

Lemma sameHeader_trans (c1 c2 c3 : Chunk) :
  sameHeader c1 c2 -> sameHeader c2 c3 -> sameHeader c1 c3.
Proof. unfold sameHeader. intros (?&?&?&?) (?&?&?&?). repeat split; congruence. Qed.

Lemma sameHeader_entry (c c1 : Chunk) (h p : bytes) :
  ((cChunkType c = CHUNK_TYPE_SUB /\
    exists n, (n < 2 ^ 32)%N /\
      c1 = with_AddChunkNums c (appendTo (AddChunkNums c) h n)) \/
   (cChunkType c <> CHUNK_TYPE_SUB /\ c1 = c)) ->
  sameHeader c (with_Hashes c1 (appendTo (Hashes c1) h p)).
Proof. intros [(_ & n & _ & ->)|(_ & ->)]; repeat split. Qed.

Lemma wrap64_range (z : Z) : - 2 ^ 63 <= wrap64 z < 2 ^ 63.
Proof.
  unfold wrap64. pose proof (Z.mod_pos_bound (z + 2 ^ 63) (2 ^ 64) ltac:(lia)). lia.
Qed.

Lemma readEntries_inv (count : nat) (chunk chunk' : Chunk) (chunkBytes : bytes)
  (hostKey : HostHash) (x x' : Z) :
  wellFormed chunk -> len hostKey = 4 ->
  - 2 ^ 63 <= HashLen chunk < 2 ^ 63 ->
  readEntries count chunk chunkBytes hostKey x = Ok (chunk', x') ->
  wellFormed chunk' /\ sameHeader chunk chunk'.
Proof.
  revert chunk x. induction count as [|count IH]; intros chunk x Hwf Hlen Hint;
    cbn [readEntries].
  - intros [= <- <-]. split; [exact Hwf|apply sameHeader_refl].
  - destruct (readAddChunkNum chunk chunkBytes hostKey x) as [[chunk1 x1]|e0|w] eqn:Hr;
      cbn [bind]; try discriminate.
    pose proof (readAddChunkNum_inv _ _ _ _ _ _ Hr) as Hc1.
    assert (Hhl : HashLen chunk1 = HashLen chunk).
    { destruct Hc1 as [(_ & n & _ & ->)|(_ & ->)]; reflexivity. }
    destruct (addi x1 (HashLen chunk1) >? len chunkBytes); [discriminate|].
    destruct (slice chunkBytes x1 (addi x1 (HashLen chunk1))) as [r|e0|w] eqn:Hs; cbn [bind];
      try discriminate.
    intros H.
    pose proof (slice_Ok_bounds _ _ _ _ Hs) as (H0 & H1 & H2).
    pose proof (slice_length _ _ _ _ Hs) as Hl.
    assert (Hpl : r = hostKey \/ len r = HashLen chunk).
    { pose proof (wrap64_range (x1 + HashLen chunk1)) as Hr1.
      destruct (Z.lt_ge_cases (HashLen chunk1) 0) as [Hneg|Hpos].
      - exfalso. unfold addi in H1. rewrite wrap64_small in H1; lia.
      - right. rewrite addi_nowrap in Hl by lia. lia. }
    apply IH in H as [Hwf' Hsame]; [| |exact Hlen|cbn [HashLen with_Hashes]; lia].
    + split; [exact Hwf'|].
      eapply sameHeader_trans; [|exact Hsame]. now apply sameHeader_entry.
    + now apply (wellFormed_entry chunk).
Qed.

Lemma readHostRecord_inv (chunk chunk' : Chunk) (chunkBytes : bytes) (x x' : Z) :
  wellFormed chunk -> - 2 ^ 63 <= HashLen chunk < 2 ^ 63 ->
  readHostRecord chunk chunkBytes x = Ok (chunk', x') ->
  wellFormed chunk' /\ sameHeader chunk chunk'.
Proof.
  intros Hwf Hint. unfold readHostRecord. cbv zeta.
  destruct (addi x 4 >? len chunkBytes); [discriminate|].
  destruct (slice chunkBytes x (addi x 4)) as [hostKey|e0|w] eqn:Hs; cbn [bind];
    try discriminate.
  pose proof (slice_Ok_bounds _ _ _ _ Hs) as (H0 & H1 & H2).
  pose proof (slice_length _ _ _ _ Hs) as Hl. rewrite addi_nowrap in Hl by lia.
  assert (Hlen : len hostKey = 4) by lia.
  rewrite addi_nowrap in * by lia.
  destruct (index chunkBytes (x + 4)) as [c|e0|w] eqn:Hi; cbn [bind]; try discriminate.
  match goal with
  | |- context [with_Hashes ?c0 (appendTo _ _ _)] => set (chunk0 := c0)
  end.
  assert (H00 : wellFormed chunk0 /\ sameHeader chunk chunk0).
  { unfold chunk0. destruct (aget (Hashes chunk) hostKey) eqn:E;
      [split; [exact Hwf|apply sameHeader_refl]|].
    destruct Hwf as [Hh Hp Ha Hn].
    destruct (decide (cChunkType chunk = CHUNK_TYPE_SUB)) as [Hsub|Hadd].
    - split; [|repeat split]. constructor;
        cbn [Hashes AddChunkNums HashLen cChunkType with_Hashes with_AddChunkNums].
      + intros h hs. destruct (decide (h = hostKey)) as [->|Hne].
        * rewrite aget_aset_same. intros [= <-]. split; [exact Hlen|constructor].
        * rewrite aget_aset_ne by exact Hne. apply Hh.
      + intros _ h. unfold addChunkNumsOf, hashesOf.
        cbn [Hashes AddChunkNums with_Hashes with_AddChunkNums].
        destruct (decide (h = hostKey)) as [->|Hne].
        * rewrite !aget_aset_same. reflexivity.
        * rewrite !aget_aset_ne by exact Hne. apply (Hp Hsub h).
      + intros Hx0. contradiction.
      + intros h ns. destruct (decide (h = hostKey)) as [->|Hne].
        * rewrite aget_aset_same. intros [= <-]. constructor.
        * rewrite aget_aset_ne by exact Hne. apply Hn.
    - split; [|repeat split]. constructor;
        cbn [Hashes AddChunkNums HashLen cChunkType with_Hashes with_AddChunkNums].
      + intros h hs. destruct (decide (h = hostKey)) as [->|Hne].
        * rewrite aget_aset_same. intros [= <-]. split; [exact Hlen|constructor].
        * rewrite aget_aset_ne by exact Hne. apply Hh.
      + intros Hx0. contradiction.
      + exact Ha.
      + exact Hn. }
  clearbody chunk0. destruct H00 as [Hwf0 Hsame0].
  assert (Hint0 : - 2 ^ 63 <= HashLen chunk0 < 2 ^ 63).
  { destruct Hsame0 as (_ & _ & -> & _). exact Hint. }
  destruct (byteVal c =? 0).
  - intros Hr. pose proof (readAddChunkNum_inv _ _ _ _ _ _ Hr) as Hc1.
    cbn [cChunkType with_Hashes AddChunkNums] in Hc1.
    assert (Hc2 : (cChunkType chunk0 = CHUNK_TYPE_SUB /\
               exists n, (n < 2 ^ 32)%N /\
                 chunk' = with_Hashes
                            (with_AddChunkNums chunk0 (appendTo (AddChunkNums chunk0) hostKey n))
                            (appendTo (Hashes chunk0) hostKey hostKey)) \/
              (cChunkType chunk0 <> CHUNK_TYPE_SUB /\
               chunk' = with_Hashes chunk0 (appendTo (Hashes chunk0) hostKey hostKey))).
    { destruct Hc1 as [(Hsub & n & Hlt & ->)|(Hadd & ->)]; [left|right]; split; try assumption.
      - exists n. split; [exact Hlt|reflexivity].
      - reflexivity. }
    clear Hc1. split.
    + destruct Hc2 as [(Hsub & n & Hlt & ->)|(Hadd & ->)].
      * apply (wellFormed_entry chunk0
                 (with_AddChunkNums chunk0 (appendTo (AddChunkNums chunk0) hostKey n)));
          try assumption; [now left|].
        left. split; [exact Hsub|]. exists n. split; [exact Hlt|reflexivity].
      * apply (wellFormed_entry chunk0 chunk0); try assumption; [now left|].
        right. split; [exact Hadd|reflexivity].
    + eapply sameHeader_trans; [exact Hsame0|].
      destruct Hc2 as [(_ & n & _ & ->)|(_ & ->)]; repeat split.
  - intros Hr. apply readEntries_inv in Hr as [Hwf' Hsame']; try assumption.
    split; [exact Hwf'|]. eapply sameHeader_trans; eassumption.
Qed.

Lemma readRecords_inv (fuel : nat) (chunk chunk' : Chunk) (chunkBytes : bytes) (x : Z) :
  wellFormed chunk -> - 2 ^ 63 <= HashLen chunk < 2 ^ 63 ->
  readRecords fuel chunk chunkBytes x = Ok chunk' ->
  wellFormed chunk' /\ sameHeader chunk chunk'.
Proof.
  revert chunk x. induction fuel as [|fuel IH]; intros chunk x Hwf Hint; cbn [readRecords];
    destruct (x <? ChunkLen chunk);
    try discriminate; try (intros [= <-]; split; [exact Hwf|apply sameHeader_refl]).
  destruct (readHostRecord chunk chunkBytes x) as [[chunk1 x1]|e0|w] eqn:Hr;
    cbn [bind fst snd]; try discriminate.
  apply readHostRecord_inv in Hr as [Hwf1 Hsame1]; try assumption.
  intros H. apply IH in H as [Hwf' Hsame']; try assumption.
  - split; [exact Hwf'|]. eapply sameHeader_trans; eassumption.
  - destruct Hsame1 as (_ & _ & -> & _). exact Hint.
Qed.

Lemma Atoi_range (s : bytes) (v : Z) : Atoi s = Ok v -> - 2 ^ 63 <= v < 2 ^ 63.
Proof.
  assert (H : forall neg s, parseDigits neg s = Ok v -> - 2 ^ 63 <= v < 2 ^ 63).
  { intros neg s0. unfold parseDigits. destruct s0; [discriminate|].
    destruct (digitsVal 0 _); [|discriminate].
    destruct (inInt _) eqn:E; [|discriminate]. intros [= <-].
    unfold inInt in E. apply andb_true_iff in E as [E1 E2].
    apply Z.leb_le in E1. apply Z.ltb_lt in E2. lia. }
  unfold Atoi. destruct s as [|c s]; [apply H|].
  destruct (decide _); [apply H|]. destruct (decide _); apply H.
Qed.

Lemma parseChunkHeader_Ok (header : bytes) (chunk : Chunk) :
  parseChunkHeader header = Ok chunk ->
  Hashes chunk = [] /\ AddChunkNums chunk = [] /\
  (cChunkNum chunk < 2 ^ 32)%N /\
  - 2 ^ 63 <= HashLen chunk < 2 ^ 63 /\ - 2 ^ 63 <= ChunkLen chunk < 2 ^ 63.
Proof.
  unfold parseChunkHeader.
  destruct (Split ":" (TrimSpace header)) as [|p1 [|p2 [|p3 [|p4 [|p5 ps]]]]]; try discriminate.
  destruct (ParseUint p2 32) as [n|e0|w] eqn:Hn; try discriminate.
  destruct (Atoi p3) as [hl|e0|w] eqn:Hh; try discriminate.
  destruct (Atoi p4) as [cl|e0|w] eqn:Hc; try discriminate.
  intros [= <-]. cbn. apply Atoi_range in Hh, Hc. repeat split; try lia.
  unfold ParseUint in Hn. destruct p2; [discriminate|].
  destruct (digitsVal 0 _) as [v|] eqn:Hd; [|discriminate].
  destruct (Z.ltb_spec v (2 ^ 32)); [|discriminate]. injection Hn as <-.
  assert (0 <= v).
  { clear -Hd. revert Hd. generalize (a :: p2). intros l.
    assert (G : forall acc, 0 <= acc -> digitsVal acc l = Some v -> 0 <= v).
    { induction l as [|c l IH]; intros acc Hacc; cbn [digitsVal].
      - intros [= <-]. exact Hacc.
      - unfold digitVal. destruct (_ && _) eqn:E; [|discriminate].
        apply andb_true_iff in E as [E1 E2]. apply Z.leb_le in E1.
        apply IH. lia. }
    apply G. lia. }
  lia.
Qed.

Lemma wellFormed_empty (c : Chunk) : Hashes c = [] -> AddChunkNums c = [] -> wellFormed c.
Proof.
  intros H1 H2. constructor.
  - rewrite H1. discriminate.
  - intros _ h. unfold addChunkNumsOf, hashesOf. now rewrite H1, H2.
  - intros _. exact H2.
  - rewrite H2. discriminate.
Qed.

Lemma ReadChunk_inv (buf : Reader) (chunk : Chunk) (rest : Reader) :
  ReadChunk buf = Ok (chunk, rest) ->
  exists header chunk0,
    buf = header ++ newline :: take (Z.to_nat (ChunkLen chunk)) (drop (S (length header)) buf)
                 ++ rest /\
    (newline ∉ header) /\
    0 <= ChunkLen chunk <= len (drop (S (length header)) buf) /\
    parseChunkHeader header = Ok chunk0 /\
    sameHeader chunk0 chunk /\ wellFormed chunk /\
    forall more, ReadChunk (buf ++ more) = Ok (chunk, rest ++ more).
Proof.
  unfold ReadChunk, ReadString. intros H.
  destruct (readUntil newline buf) as [[line buf1]|] eqn:Hr; [|discriminate].
  destruct (readUntil_split _ _ _ _ Hr) as (header & -> & -> & Hnl).
  destruct (slice (header ++ [newline]) 0 _) as [hdr|e0|w] eqn:Hs; cbn [bind] in H;
    try discriminate.
  assert (hdr = header) as ->.
  { unfold slice in Hs. destruct (_ && _); [|discriminate]. injection Hs as <-.
    unfold len. rewrite length_app. cbn [length].
    replace (Z.to_nat (Z.of_nat (length header + 1) - 1 - 0)) with (length header) by lia.
    change (Z.to_nat 0) with 0%nat. rewrite drop_0, take_app_length. reflexivity. }
  destruct (parseChunkHeader header) as [chunk0|e0|w] eqn:Hp; cbn [bind] in H; try discriminate.
  unfold readSlice in *.
  destruct (Z.ltb_spec (ChunkLen chunk0) 0) as [Hneg|Hpos]; [discriminate|].
  destruct (Nat.leb_spec (Z.to_nat (ChunkLen chunk0)) (length buf1)) as [Hle|Hgt];
    [|discriminate].
  destruct (readRecords _ chunk0 _ 0) as [chunk'|e0|w] eqn:Hrec; cbn [bind] in H;
    try discriminate.
  injection H as <- <-.
  pose proof (parseChunkHeader_Ok _ _ Hp) as (Hh0 & Ha0 & _ & Hint & _).
  pose proof (readRecords_inv _ _ _ _ _ (wellFormed_empty _ Hh0 Ha0) Hint Hrec) as [Hwf Hsame].
  assert (Hcl : ChunkLen chunk' = ChunkLen chunk0) by apply Hsame.
  exists header, chunk0.
  assert (Hd : drop (S (length header)) (header ++ newline :: buf1) = buf1).
  { change (newline :: buf1) with ([newline] ++ buf1). rewrite app_assoc.
    apply drop_app_length'. rewrite length_app. cbn. lia. }
  rewrite Hd.
  rewrite Hcl, take_drop.
  refine (conj eq_refl (conj Hnl (conj _ (conj Hp (conj _ (conj Hwf _)))))).
  - unfold len. lia.
  - destruct Hsame as (?&?&?&?). repeat split; congruence.
  - intros more. rewrite (readUntil_app _ _ _ _ more Hr). rewrite Hs. cbn [bind].
    rewrite Hp. cbn [bind].
    destruct (Z.ltb_spec (ChunkLen chunk0) 0); [lia|].
    destruct (Nat.leb_spec (Z.to_nat (ChunkLen chunk0)) (length (buf1 ++ more)));
      [|rewrite length_app in *; lia].
    rewrite take_app_le by lia. rewrite Hrec. cbn [bind].
    rewrite drop_app_le by lia. reflexivity.
Qed.


Lemma ReadChunk_shrinks (buf : Reader) (chunk : Chunk) (rest : Reader) :
  ReadChunk buf = Ok (chunk, rest) -> (length rest < length buf)%nat.
Proof.
  intros H. apply ReadChunk_inv in H as (header & c0 & Hb & _).
  apply (f_equal length) in Hb. rewrite length_app in Hb. cbn [length] in Hb.
  rewrite length_app in Hb. lia.
Qed.

End ChunkShapeFacts.

Import ChunkShape ChunkShapeFacts.

(** X1: [ReadChunk] leaves the cursor of the reader at the exact end of the
    chunk it has read: the input is the header line, as many bytes as the
    header announces and the bytes handed back, and whatever follows in
    the stream has no influence on the chunk, so that the function can be
    called again on the rest. *)
Theorem X1_ReadChunk_cursor (buf : Reader) (chunk : Chunk) (rest : Reader) :
  ReadChunk buf = Ok (chunk, rest) ->
  exists header body,
    buf = header ++ newline :: body ++ rest /\
    (newline ∉ header) /\
    len body = ChunkLen chunk /\
    forall more, ReadChunk (buf ++ more) = Ok (chunk, rest ++ more).
Proof.
  intros H. apply ReadChunk_inv in H as (header & c0 & Hb & Hnl & Hcl & _ & _ & _ & Hmore).
  exists header, (take (Z.to_nat (ChunkLen chunk)) (drop (S (length header)) buf)).
  split; [exact Hb|]. split; [exact Hnl|]. split; [|exact Hmore].
  unfold len in *. rewrite length_take. lia.
Qed.

Lemma X1_witness :
  exists header body,
    hostOnlySub = header ++ newline :: body ++ [] /\
    (newline ∉ header) /\
    len body = 9 /\
    forall more, ReadChunk (hostOnlySub ++ more) = Ok (hostOnlySubChunk, [] ++ more).
Proof.
  exact (X1_ReadChunk_cursor hostOnlySub hostOnlySubChunk [] ltac:(vm_compute; reflexivity)).
Defined.

(** X2: in a chunk that [ReadChunk] returns, the chunk number fits 32 bits,
    every host key is 4 bytes long and every entry recorded for a host is
    either the host key itself (a record with count 0) or has exactly the
    hash length of the header. *)
Theorem X2_ReadChunk_entries (buf : Reader) (chunk : Chunk) (rest : Reader) :
  ReadChunk buf = Ok (chunk, rest) ->
  (cChunkNum chunk < 2 ^ 32)%N /\
  forall h hs, aget (Hashes chunk) h = Some hs ->
    len h = 4 /\ Forall (fun p => p = h \/ len p = HashLen chunk) hs.
Proof.
  intros H. apply ReadChunk_inv in H as (header & c0 & _ & _ & _ & Hp & Hsame & Hwf & _).
  split; [|apply Hwf].
  apply parseChunkHeader_Ok in Hp as (_ & _ & Hn & _).
  destruct Hsame as (-> & _). exact Hn.
Qed.

Lemma X2_witness :
  (cChunkNum hostOnlySubChunk < 2 ^ 32)%N /\
  forall h hs, aget (Hashes hostOnlySubChunk) h = Some hs ->
    len h = 4 /\ Forall (fun p => p = h \/ len p = HashLen hostOnlySubChunk) hs.
Proof.
  exact (X2_ReadChunk_entries hostOnlySub hostOnlySubChunk [] ltac:(vm_compute; reflexivity)).
Defined.

(** X3: a SUB chunk that [ReadChunk] returns holds, for every host, as many
    origin add-chunk numbers as entries; a chunk of any other kind holds
    none; and every number read is below 2^32. *)
Theorem X3_ReadChunk_add_chunk_numbers (buf : Reader) (chunk : Chunk) (rest : Reader) :
  ReadChunk buf = Ok (chunk, rest) ->
  (cChunkType chunk = CHUNK_TYPE_SUB ->
     forall h, length (addChunkNumsOf chunk h) = length (hashesOf chunk h)) /\
  (cChunkType chunk <> CHUNK_TYPE_SUB -> AddChunkNums chunk = []) /\
  (forall h ns, aget (AddChunkNums chunk) h = Some ns ->
     Forall (fun n => (n < 2 ^ 32)%N) ns).
Proof.
  intros H. apply ReadChunk_inv in H as (header & c0 & _ & _ & _ & _ & _ & Hwf & _).
  destruct Hwf as [_ Hp Ha Hn]. auto.
Qed.

Lemma X3_witness :
  (cChunkType hostOnlySubChunk = CHUNK_TYPE_SUB ->
     forall h, length (addChunkNumsOf hostOnlySubChunk h)
               = length (hashesOf hostOnlySubChunk h)) /\
  (cChunkType hostOnlySubChunk <> CHUNK_TYPE_SUB -> AddChunkNums hostOnlySubChunk = []) /\
  (forall h ns, aget (AddChunkNums hostOnlySubChunk) h = Some ns ->
     Forall (fun n => (n < 2 ^ 32)%N) ns).
Proof.
  exact (X3_ReadChunk_add_chunk_numbers hostOnlySub hostOnlySubChunk []
           ltac:(vm_compute; reflexivity)).
Defined.



(** ** The list state engine: what a successful [load] leaves behind *)

Module LoadFacts.

Import HatTrie HatTrieFacts ListEngine ListEngineFacts Entries.

Lemma keepChunks_indexed (io : Faults) (a a' : Acc) (cs : list Chunk) :
  keepChunks io a cs = Continue a' ->
  (forall n, is_Some (addChunkIndexes a !! n) \/ numbered CHUNK_TYPE_ADD n (keptOf (a_ssl a) cs)
             -> is_Some (addChunkIndexes a' !! n)) /\
  (forall n, is_Some (subChunkIndexes a !! n) \/ numbered CHUNK_TYPE_SUB n (keptOf (a_ssl a) cs)
             -> is_Some (subChunkIndexes a' !! n)).
Proof.
  revert a. induction cs as [|c cs IH]; simpl; intros a H.
  - injection H as <-. unfold keptOf. rewrite filter_nil.
    split; intros n [Hn|(c0 & Hin & _)]; try exact Hn; inversion Hin.
  - unfold keepChunk in H. unfold keptOf in *.
    destruct (isDeleted (a_ssl a) c) eqn:Hdel.
    + rewrite filter_cons_False by (rewrite Hdel; discriminate). now apply IH.
    + rewrite filter_cons_True by exact Hdel.
      destruct (encode_err io (length (a_tmp a))); [discriminate|].
      destruct (updateLookupMap (a_ssl a) c) as [ssl1| |] eqn:Hup; try discriminate.
      apply updateLookupMap_Ok in Hup as (Hap & Hdc & Hcr).
      apply IH in H as (Hadd & Hsub). simpl in *.
      assert (Hf : filter (fun c0 => isDeleted ssl1 c0 = false) cs
                   = filter (fun c0 => isDeleted (a_ssl a) c0 = false) cs).
      { apply list_filter_iff. intros c0. now rewrite (isDeleted_ext ssl1 (a_ssl a)). }
      rewrite Hf in *. split.
      * intros n [Hn|(c0 & Hin & Ht & Hc)]; apply Hadd.
        -- left. destruct (decide (cChunkType c = CHUNK_TYPE_ADD)); [|exact Hn].
           destruct (decide (cChunkNum c = n)) as [->|Hne].
           ++ rewrite lookup_insert_eq. eauto.
           ++ now rewrite lookup_insert_ne.
        -- apply elem_of_cons in Hin as [->|Hin].
           ++ left. rewrite decide_True by exact Ht. rewrite Hc, lookup_insert_eq. eauto.
           ++ right. exists c0. auto.
      * intros n [Hn|(c0 & Hin & Ht & Hc)]; apply Hsub.
        -- left. destruct (decide (cChunkType c = CHUNK_TYPE_SUB)); [|exact Hn].
           destruct (decide (cChunkNum c = n)) as [->|Hne].
           ++ rewrite lookup_insert_eq. eauto.
           ++ now rewrite lookup_insert_ne.
        -- apply elem_of_cons in Hin as [->|Hin].
           ++ left. rewrite decide_True by exact Ht. rewrite Hc, lookup_insert_eq. eauto.
           ++ right. exists c0. auto.
Qed.

Lemma applyEntry_keeps (st st' : Z * hattrie_t * hattrie_t) (e : Entry) (k : bytes) :
  applyEntry st e = Ok st' ->
  ~ subsPrefixKey k e ->
  Get st.1.2 k = true -> Get st'.1.2 k = true.
Proof.
  destruct st as [[hpl lk] fh]. unfold applyEntry, applyHash, subsPrefixKey, entryKey.
  intros H Hns Hg. cbn [fst snd] in *.
  destruct (Z.eqb_spec (len (eHash e)) 32) as [H32|H32].
  - destruct (decide (eType e = CHUNK_TYPE_ADD)); [injection H as <-; exact Hg|].
    destruct (decide (eType e = CHUNK_TYPE_SUB)); injection H as <-; exact Hg.
  - destruct (if hpl =? 0 then _ else _) as [hpl'|e0|w]; cbn [bind] in H; try discriminate.
    destruct (decide (eType e = CHUNK_TYPE_ADD)).
    + injection H as <-. cbn [fst snd]. now apply QueryFacts.Get_Set_true.
    + destruct (decide (eType e = CHUNK_TYPE_SUB)) as [Hs|].
      * destruct (sweepFullHashes _ _ _) as [fh'|err|w]; cbn [bind] in H; try discriminate.
        injection H as <-. cbn [fst snd]. rewrite Get_Delete_other; [exact Hg|].
        intros E. apply Hns. auto.
      * injection H as <-. exact Hg.
Qed.

Lemma applyEntries_keeps (es : list Entry) (st st' : Z * hattrie_t * hattrie_t) (k : bytes) :
  applyEntries es st = Ok st' ->
  Forall (fun e => ~ subsPrefixKey k e) es ->
  Get st.1.2 k = true -> Get st'.1.2 k = true.
Proof.
  revert st. induction es as [|e es IH]; simpl; intros st H Hall Hg.
  - now injection H as <-.
  - destruct (applyEntry st e) as [st1|err|w] eqn:E; cbn [bind] in H; try discriminate.
    apply Forall_cons in Hall as [He Hes].
    eapply IH; eauto. eapply applyEntry_keeps; eauto.
Qed.

Lemma load_entries (io : Faults) (d : Disk) (ssl : SafeBrowsingList) (newChunks : list Chunk) :
  out_status (load io d ssl newChunks) = Returned None ->
  applyEntries (flat_map entriesOf (survivors ssl d newChunks)) (tries ssl)
  = Ok (tries (out_ssl (load io d ssl newChunks))).
Proof.
  intros Hok. destruct (load_success _ _ _ _ Hok) as (a & Hk & ->).
  apply keepChunks_Continue in Hk as (_ & _ & _ & Hap & _). exact Hap.
Qed.

Lemma applyEntry_hpl (st st' : Z * hattrie_t * hattrie_t) (e : Entry) :
  applyEntry st e = Ok st' -> st.1.1 <> 0 ->
  st'.1.1 = st.1.1 /\ (isPrefixEntry e -> eHashLen e = st.1.1).
Proof.
  destruct st as [[hpl lk] fh]. unfold applyEntry, applyHash, isPrefixEntry.
  cbn [fst snd]. intros H Hnz.
  destruct (Z.eqb_spec (len (eHash e)) 32) as [H32|H32].
  - split; [|intros Hx; contradiction].
    destruct (decide (eType e = CHUNK_TYPE_ADD)); [now injection H as <-|].
    destruct (decide (eType e = CHUNK_TYPE_SUB)); now injection H as <-.
  - destruct (Z.eqb_spec hpl 0); [contradiction|].
    destruct (Z.eqb_spec hpl (eHashLen e)) as [Heq|Hne]; cbn [negb bind] in H;
      [|discriminate].
    split; [|intros _; now symmetry].
    destruct (decide (eType e = CHUNK_TYPE_ADD)); [now injection H as <-|].
    destruct (decide (eType e = CHUNK_TYPE_SUB)).
    + destruct (sweepFullHashes _ _ _) as [fh'|err|w]; cbn [bind] in H; try discriminate.
      now injection H as <-.
    + now injection H as <-.
Qed.

Lemma applyEntries_hpl (es : list Entry) (st st' : Z * hattrie_t * hattrie_t) :
  applyEntries es st = Ok st' -> st.1.1 <> 0 ->
  st'.1.1 = st.1.1 /\ Forall (fun e => isPrefixEntry e -> eHashLen e = st.1.1) es.
Proof.
  revert st. induction es as [|e es IH]; simpl; intros st H Hnz.
  - injection H as <-. split; [reflexivity|constructor].
  - destruct (applyEntry st e) as [st1|err|w] eqn:E; cbn [bind] in H; try discriminate.
    apply applyEntry_hpl in E as [E1 E2]; [|exact Hnz].
    apply IH in H as [H1 H2]; [|congruence].
    split; [congruence|]. constructor; [exact E2|]. now rewrite <- E1.
Qed.

End LoadFacts.

Import Entries LoadFacts.

(** X5: after a successful [load] the range strings of the list are built
    from exactly the numbers of the chunks kept in the rewritten journal:
    a number is in the set behind [ChunkRanges[ADD]] (respectively
    [ChunkRanges[SUB]]) if and only if an ADD (respectively SUB) chunk
    with that number has survived. *)
Theorem X5_load_ranges_exact (io : Faults) (d : Disk) (ssl : SafeBrowsingList)
  (newChunks : list Chunk) :
  out_status (load io d ssl newChunks) = Returned None ->
  exists add sub : gmap ChunkNum bool,
    rangesOf (out_ssl (load io d ssl newChunks)) CHUNK_TYPE_ADD = Range.buildChunkRanges add /\
    rangesOf (out_ssl (load io d ssl newChunks)) CHUNK_TYPE_SUB = Range.buildChunkRanges sub /\
    (forall n, is_Some (add !! n) <-> numbered CHUNK_TYPE_ADD n (survivors ssl d newChunks)) /\
    (forall n, is_Some (sub !! n) <-> numbered CHUNK_TYPE_SUB n (survivors ssl d newChunks)).
Proof.
  intros Hok. destruct (load_success _ _ _ _ Hok) as (a & Hk & ->).
  pose proof (keepChunks_Continue _ _ _ _ Hk) as (_ & _ & _ & _ & Hadd & Hsub).
  pose proof (keepChunks_indexed _ _ _ _ Hk) as (Hadd' & Hsub').
  cbn [a_ssl addChunkIndexes subChunkIndexes] in *.
  exists (addChunkIndexes a), (subChunkIndexes a). unfold rangesOf, with_ranges, survivors.
  cbn [out_ssl ChunkRanges].
  rewrite lookup_insert_ne by discriminate. rewrite !lookup_insert_eq. cbn.
  repeat split.
  - intros Hn. destruct (Hadd n Hn) as [[x Hx]|H]; [now rewrite lookup_empty in Hx|exact H].
  - intros Hn. apply Hadd'. now right.
  - intros Hn. destruct (Hsub n Hn) as [[x Hx]|H]; [now rewrite lookup_empty in Hx|exact H].
  - intros Hn. apply Hsub'. now right.
Qed.

Lemma X5_witness :
  exists add sub : gmap ChunkNum bool,
    rangesOf (out_ssl (load no_faults scenario3Disk scenario3List [])) CHUNK_TYPE_ADD
      = Range.buildChunkRanges add /\
    rangesOf (out_ssl (load no_faults scenario3Disk scenario3List [])) CHUNK_TYPE_SUB
      = Range.buildChunkRanges sub /\
    (forall n, is_Some (add !! n)
               <-> numbered CHUNK_TYPE_ADD n (survivors scenario3List scenario3Disk [])) /\
    (forall n, is_Some (sub !! n)
               <-> numbered CHUNK_TYPE_SUB n (survivors scenario3List scenario3Disk [])).
Proof.
  exact (X5_load_ranges_exact no_faults scenario3Disk scenario3List []
           ltac:(vm_compute; reflexivity)).
Defined.

(** X6: [load] never resets the prefix trie.  A prefix that is a member of
    [Lookup] before a successful [load] is a member afterwards unless an
    entry of a SUB chunk that the load keeps subtracts it; in particular
    the prefixes of an ADD chunk that [DeleteChunks] marks stay in memory
    although the chunk is dropped from the journal. *)
Theorem X6_load_keeps_prefixes (io : Faults) (d : Disk) (ssl : SafeBrowsingList)
  (newChunks : list Chunk) (k : bytes) :
  out_status (load io d ssl newChunks) = Returned None ->
  Get (Lookup ssl) k = true ->
  Forall (fun e => ~ subsPrefixKey k e) (flat_map entriesOf (survivors ssl d newChunks)) ->
  Get (Lookup (out_ssl (load io d ssl newChunks))) k = true.
Proof.
  intros Hok Hg Hall. apply load_entries in Hok.
  exact (applyEntries_keeps _ _ _ k Hok Hall Hg).
Qed.

Lemma X6_witness :
  survivors staleList staleDisk [] = [] /\
  Get (Lookup (out_ssl (load no_faults staleDisk staleList []))) (b "test1234") = true.
Proof.
  split; [vm_compute; reflexivity|].
  exact (X6_load_keeps_prefixes no_faults staleDisk staleList [] (b "test1234")
           ltac:(vm_compute; reflexivity) ltac:(vm_compute; reflexivity)
           ltac:(vm_compute; constructor)).
Defined.

(** X7: a list keeps one prefix length.  When the prefix length of a list
    is established (not 0) and [load] returns successfully, the prefix
    length is unchanged and every entry applied that is a prefix (a hash
    of a length other than 32) comes from a chunk whose header announces
    that very hash length; a chunk with another one makes [load]
    panic. *)
Theorem X7_load_one_prefix_length (io : Faults) (d : Disk) (ssl : SafeBrowsingList)
  (newChunks : list Chunk) :
  out_status (load io d ssl newChunks) = Returned None ->
  HashPrefixLen ssl <> 0 ->
  HashPrefixLen (out_ssl (load io d ssl newChunks)) = HashPrefixLen ssl /\
  Forall (fun e => isPrefixEntry e -> eHashLen e = HashPrefixLen ssl)
         (flat_map entriesOf (survivors ssl d newChunks)).
Proof.
  intros Hok Hnz. apply load_entries in Hok.
  exact (applyEntries_hpl _ _ _ Hok Hnz).
Qed.

Lemma X7_witness :
  HashPrefixLen (out_ssl (load no_faults emptyDisk scenario3List [chunkSub2])) = 4 /\
  Forall (fun e => isPrefixEntry e -> eHashLen e = 4)
         (flat_map entriesOf (survivors scenario3List emptyDisk [chunkAdd1; chunkSub1])).
Proof.
  split.
  - exact (proj1 (X7_load_one_prefix_length no_faults emptyDisk scenario3List [chunkSub2]
                    ltac:(vm_compute; reflexivity) ltac:(vm_compute; discriminate))).
  - vm_compute. constructor.
Defined.

(** ** Downloading the redirects *)

Module DownloadFacts.

Import ChunkCodec ListEngine Downloads.

Lemma readChunks_fuel (fuel fuel' : nat) (buf : Reader) (acc : list Chunk) :
  (length buf < fuel)%nat -> (length buf < fuel')%nat ->
  readChunks fuel buf acc = readChunks fuel' buf acc.
Proof.
  revert fuel' buf acc. induction fuel as [|fuel IH]; intros fuel' buf acc H1 H2; [lia|].
  destruct fuel' as [|fuel']; [lia|]. cbn [readChunks].
  destruct (ReadChunk buf) as [[chunk rest]|e0|w] eqn:Hr; try reflexivity.
  apply ReadChunk_shrinks in Hr. apply IH; lia.
Qed.

Lemma readChunks_page (page : list (bytes * Chunk)) (fuel : nat) (acc : list Chunk) :
  Forall (fun ec => ReadChunk (fst ec) = Ok (snd ec, [])) page ->
  (length (concat (map fst page)) < fuel)%nat ->
  readChunks fuel (concat (map fst page)) acc = Ok (acc ++ map snd page).
Proof.
  revert fuel acc. induction page as [|[enc c] page IH]; intros fuel acc Hall Hf.
  - cbn. destruct fuel; cbn; now rewrite app_nil_r.
  - apply Forall_cons in Hall as [Hc Hall]. cbn [fst snd map concat] in *.
    destruct fuel as [|fuel]; [lia|]. cbn [readChunks].
    apply ReadChunk_inv in Hc as Hinv. destruct Hinv as (hd & c0 & _ & _ & _ & _ & _ & _ & Hmore).
    rewrite (Hmore (concat (map fst page))). cbn [app].
    apply ReadChunk_shrinks in Hc. rewrite length_app in Hf.
    rewrite IH by (auto; lia). now rewrite <- app_assoc.
Qed.

Lemma fetchRedirects_failure (request : string -> Query.Response + string)
  (urls : list string) (acc : list Chunk) (url : string) :
  url ∈ urls ->
  match request url with
  | inr _ => True
  | inl response => Query.StatusCode response <> 200
  end ->
  forall cs, fetchRedirects request urls acc <> Ok cs.
Proof.
  revert acc. induction urls as [|u urls IH]; intros acc Hin Hbad cs; [inversion Hin|].
  cbn [fetchRedirects]. apply elem_of_cons in Hin as [<-|Hin].
  - destruct (request url) as [r|msg]; [|discriminate].
    destruct (Z.eqb_spec (Query.StatusCode r) 200); [contradiction|discriminate].
  - destruct (request u) as [r|msg]; [|discriminate].
    destruct (negb _); [discriminate|].
    destruct (readChunks _ _ acc) as [acc'|e0|w]; cbn [bind]; try discriminate.
    now apply IH.
Qed.

Lemma fetchRedirects_pages (request : string -> Query.Response + string)
  (urls : list string) (pages : list (list (bytes * Chunk))) (acc : list Chunk) :
  Forall2 (fun url page =>
             (exists response, request url = inl response /\
                Query.StatusCode response = 200 /\
                Query.Body response = concat (map fst page)) /\
             Forall (fun ec => ReadChunk (fst ec) = Ok (snd ec, [])) page)
          urls pages ->
  fetchRedirects request urls acc = Ok (acc ++ map snd (concat pages)).
Proof.
  intros H. revert acc. induction H as [|url page urls pages [(r & Hr & Hs & Hb) Hp] _ IH];
    intros acc; cbn [fetchRedirects concat map].
  - now rewrite app_nil_r.
  - rewrite Hr, Hs. cbn [Z.eqb Pos.eqb negb]. rewrite Hb.
    rewrite readChunks_page by (auto; lia). cbn [bind].
    rewrite IH, map_app. now rewrite app_assoc.
Qed.

End DownloadFacts.

Import Downloads DownloadFacts.

(** X8: [loadDataFromRedirectLists] is all or nothing with respect to its
    downloads.  When one of the redirects of the list cannot be fetched
    (the transport fails or the server answers with a status other than
    200), the function does not return successfully and leaves the list
    and its journal exactly as they were, whatever the redirects before
    it delivered: [load] is not called. *)
Theorem X8_loadData_all_or_nothing (request : string -> Query.Response + string)
  (io : Faults) (d : Disk) (ssl : SafeBrowsingList) (url : string) :
  url ∈ DataRedirects ssl ->
  match request url with
  | inr _ => True
  | inl response => Query.StatusCode response <> 200
  end ->
  out_status (loadDataFromRedirectLists request io d ssl) <> Returned None /\
  out_disk (loadDataFromRedirectLists request io d ssl) = d /\
  out_ssl (loadDataFromRedirectLists request io d ssl) = ssl.
Proof.
  intros Hin Hbad. unfold loadDataFromRedirectLists.
  destruct (Z.ltb_spec (len (DataRedirects ssl)) 1) as [Hlt|_].
  - destruct (DataRedirects ssl); [inversion Hin|]. unfold len in Hlt. cbn in Hlt. lia.
  - pose proof (fetchRedirects_failure request _ [] url Hin Hbad) as Hf.
    destruct (fetchRedirects request (DataRedirects ssl) []) as [cs|e0|w];
      [now contradiction (Hf cs)| |]; cbn; repeat split; discriminate.
Qed.

Lemma X8_witness :
  out_status (loadDataFromRedirectLists answers404 no_faults emptyDisk pendingList)
    <> Returned None /\
  out_disk (loadDataFromRedirectLists answers404 no_faults emptyDisk pendingList) = emptyDisk /\
  out_ssl (loadDataFromRedirectLists answers404 no_faults emptyDisk pendingList) = pendingList.
Proof.
  exact (X8_loadData_all_or_nothing answers404 no_faults emptyDisk pendingList
           "http://cache.example/first"
           ltac:(vm_compute; constructor) ltac:(vm_compute; discriminate)).
Defined.

(** X9: when every redirect of the list answers 200 with a body that is a
    sequence of encoded chunks, each of which [ReadChunk] reads back on
    its own, [loadDataFromRedirectLists] is [load] applied to all these
    chunks, in the order of the redirects and, within a body, in the order
    of the encodings. *)
Theorem X9_loadData_in_order (request : string -> Query.Response + string)
  (io : Faults) (d : Disk) (ssl : SafeBrowsingList) (pages : list (list (bytes * Chunk))) :
  DataRedirects ssl <> [] ->
  Forall2 (fun url page =>
             (exists response, request url = inl response /\
                Query.StatusCode response = 200 /\
                Query.Body response = concat (map fst page)) /\
             Forall (fun ec => ReadChunk (fst ec) = Ok (snd ec, [])) page)
          (DataRedirects ssl) pages ->
  loadDataFromRedirectLists request io d ssl = load io d ssl (map snd (concat pages)).
Proof.
  intros Hne H. unfold loadDataFromRedirectLists.
  destruct (Z.ltb_spec (len (DataRedirects ssl)) 1) as [Hlt|_].
  - destruct (DataRedirects ssl); [contradiction|]. unfold len in Hlt. cbn in Hlt. lia.
  - now rewrite (fetchRedirects_pages _ _ _ [] H).
Qed.

Lemma X9_witness :
  loadDataFromRedirectLists answersTwoChunks no_faults emptyDisk pendingList
  = load no_faults emptyDisk pendingList [hostOnlyAddChunk; hostOnlySubChunk].
Proof.
  apply (X9_loadData_in_order answersTwoChunks no_faults emptyDisk pendingList
           [[(hostOnlyAdd, hostOnlyAddChunk); (hostOnlySub, hostOnlySubChunk)]]).
  - discriminate.
  - constructor; [|constructor]. split.
    + eexists. split; [reflexivity|]. split; [reflexivity|]. vm_compute. reflexivity.
    + repeat constructor.
Defined.

(** ** Ordering hashes by length *)

Module HashOrderFacts.

Import HashOrder.

Lemma shiftShorter_spec (value : LookupHash) (p : list LookupHash) :
  forall (y : LookupHash) (q suf : list LookupHash),
  Forall (fun x => len x < len value) q ->
  exists p1 y' q',
    shiftShorter (p ++ y :: q ++ suf) value (length p) = Ok (p1 ++ y' :: q' ++ suf, length p1) /\
    p ++ q = p1 ++ q' /\
    Forall (fun x => len x < len value) q' /\
    (p1 = [] \/ exists p0 z, p1 = p0 ++ [z] /\ len value <= len z).
Proof.
  induction p as [|z p IH] using rev_ind; intros y q suf Hq.
  - exists [], y, q. cbn. auto.
  - rewrite length_app. cbn [length]. replace (length p + 1)%nat with (S (length p)) by lia.
    cbn [shiftShorter]. unfold at_.
    rewrite <- app_assoc. cbn [app]. rewrite list_lookup_middle by reflexivity. cbn [bind].
    destruct (Z.ltb_spec (len z) (len value)) as [Hlt|Hge].
    + unfold assign.
      assert (Hl : (S (length p) <? length (p ++ z :: y :: q ++ suf))%nat = true).
      { apply Nat.ltb_lt. rewrite length_app. cbn. lia. }
      rewrite Hl. cbn [bind].
      replace (<[S (length p) := z]> (p ++ z :: y :: q ++ suf))
        with (p ++ z :: (z :: q) ++ suf).
      2:{ change (p ++ z :: y :: q ++ suf) with (p ++ [z] ++ y :: q ++ suf).
          rewrite app_assoc.
          rewrite (insert_app_r_alt (p ++ [z])) by (rewrite length_app; cbn; lia).
          rewrite length_app. cbn [length].
          replace (S (length p) - (length p + 1))%nat with 0%nat by lia.
          cbn. now rewrite <- app_assoc. }
      destruct (IH z (z :: q) suf) as (p1 & y' & q' & Hs & Hpq & Hq' & Hlast).
      { constructor; [exact Hlt|exact Hq]. }
      exists p1, y', q'. split; [exact Hs|]. split; [|auto].
      rewrite <- Hpq, <- app_assoc. reflexivity.
    + exists (p ++ [z]), y, q. rewrite <- app_assoc, length_app. cbn.
      replace (length p + 1)%nat with (S (length p)) by lia.
      repeat split; auto. right. exists p, z. auto.
Qed.

Lemma sorted_insert (value : LookupHash) (p1 q' : list LookupHash) :
  StronglySorted notShorter (p1 ++ q') ->
  Forall (fun x => len x < len value) q' ->
  (p1 = [] \/ exists p0 z, p1 = p0 ++ [z] /\ len value <= len z) ->
  StronglySorted notShorter (p1 ++ value :: q').
Proof.
  intros Hs Hq Hlast. apply StronglySorted_app in Hs as (Hx & H1 & H2).
  apply StronglySorted_app_2; [|exact H1|].
  - intros x1 x2 Hx1 Hx2. apply elem_of_cons in Hx2 as [->|Hx2]; [|now apply Hx].
    destruct Hlast as [->|(p0 & z & -> & Hz)]; [inversion Hx1|].
    unfold notShorter. apply elem_of_app in Hx1 as [Hx1|Hx1].
    + apply StronglySorted_app in H1 as (Hpz & _ & _).
      specialize (Hpz x1 z Hx1 ltac:(apply list_elem_of_singleton; reflexivity)).
      unfold notShorter in Hpz. lia.
    + apply list_elem_of_singleton in Hx1 as ->. exact Hz.
  - apply SSorted_cons; [exact H2|]. eapply Forall_impl; [exact Hq|].
    intros x Hlt. unfold notShorter. cbn beta in Hlt. lia.
Qed.

Lemma insertEach_spec (suf : list LookupHash) :
  forall pre : list LookupHash,
  StronglySorted notShorter pre ->
  exists a',
    insertEach (length suf) (length pre) (pre ++ suf) = Ok a' /\
    a' ≡ₚ pre ++ suf /\ StronglySorted notShorter a'.
Proof.
  induction suf as [|value suf IH]; intros pre Hs.
  - exists pre. rewrite app_nil_r. cbn. auto.
  - cbn [length insertEach]. unfold at_. rewrite list_lookup_middle by reflexivity.
    cbn [bind].
    destruct (shiftShorter_spec value pre value [] suf ltac:(constructor))
      as (p1 & y' & q' & Hsh & Hpq & Hq' & Hlast).
    cbn [app] in Hsh. rewrite Hsh. cbn [bind fst snd]. unfold assign.
    assert (Hl : (length p1 <? length (p1 ++ y' :: q' ++ suf))%nat = true).
    { apply Nat.ltb_lt. rewrite length_app. cbn. lia. }
    rewrite Hl. cbn [bind].
    replace (<[length p1 := value]> (p1 ++ y' :: q' ++ suf))
      with ((p1 ++ value :: q') ++ suf).
    2:{ rewrite insert_app_r_alt by lia. rewrite Nat.sub_diag. cbn.
        now rewrite <- app_assoc. }
    rewrite app_nil_r in Hpq.
    assert (Hlen : S (length pre) = length (p1 ++ value :: q')).
    { rewrite Hpq, !length_app. cbn. lia. }
    rewrite Hlen.
    destruct (IH (p1 ++ value :: q')) as (a' & Hi & Hperm & Hsorted).
    { apply sorted_insert; auto. now rewrite <- Hpq. }
    exists a'. split; [exact Hi|]. split; [|exact Hsorted].
    rewrite Hperm, Hpq. rewrite <- !app_assoc. cbn.
    apply Permutation_app_head. apply Permutation_middle.
Qed.

End HashOrderFacts.

Import HashOrder HashOrderFacts.

(** X10: [insertionSortHashLength] sorts: for every slice of hashes it ends
    without an index out of range, and the slice it leaves is a
    permutation of the one it was given in which no hash is followed,
    anywhere behind it, by a longer one. *)
Theorem X10_insertionSortHashLength_sorts (a : list LookupHash) :
  exists a',
    insertionSortHashLength a = Ok a' /\
    a' ≡ₚ a /\ StronglySorted notShorter a'.
Proof.
  unfold insertionSortHashLength. destruct a as [|x a].
  - exists []. cbn. repeat split; constructor.
  - cbn [length]. replace (S (length a) - 1)%nat with (length a) by lia.
    apply (insertEach_spec a [x]). repeat constructor.
Qed.

(** ** The list of lists *)

Module ListOfListsFacts.

Import ChunkCodec ListEngine ListOfLists.

Lemma addList_fold (lines : list bytes) (ss : SafeBrowsing) :
  Key (fold_left addList lines ss) = Key ss /\
  Client (fold_left addList lines ss) = Client ss /\
  AppVersion (fold_left addList lines ss) = AppVersion ss /\
  DataDir (fold_left addList lines ss) = DataDir ss /\
  forall name,
    Lists (fold_left addList lines ss) !! name =
    if decide (name ∈ map string_of_list_ascii lines /\ is_Some (SupportedLists !! name))
    then Some (newSafeBrowsingList name (DataDir ss +:+ "/" +:+ name +:+ ".dat")%string)
    else Lists ss !! name.
Proof.
  revert ss. induction lines as [|line lines IH]; intros ss; cbn [fold_left map].
  - do 4 (split; [reflexivity|]). intros name. rewrite decide_False; [reflexivity|].
    intros [H _]. inversion H.
  - destruct (IH (addList ss line)) as (Hk & Hc & Ha & Hd & Hl).
    assert (Hfields : Key (addList ss line) = Key ss /\ Client (addList ss line) = Client ss /\
              AppVersion (addList ss line) = AppVersion ss /\
              DataDir (addList ss line) = DataDir ss).
    { unfold addList. destruct (SupportedLists !! _); repeat split. }
    destruct Hfields as (Fk & Fc & Fa & Fd).
    do 4 (split; [congruence|]).
    intros name. rewrite Hl, Fd.
    destruct (decide (name ∈ map string_of_list_ascii lines /\ is_Some (SupportedLists !! name)))
      as [[Hin Hs]|Hn].
    + rewrite decide_True; [reflexivity|]. split; [now apply elem_of_cons; right|exact Hs].
    + destruct (decide (name = string_of_list_ascii line)) as [->|Hne].
      * unfold addList. cbv zeta.
        destruct (SupportedLists !! string_of_list_ascii line) as [v|] eqn:E.
        -- cbn [Lists]. rewrite lookup_insert_eq.
           rewrite decide_True; [reflexivity|]. split; [apply elem_of_cons; now left|].
           eauto.
        -- rewrite decide_False; [reflexivity|]. intros [_ [x Hx]]. congruence.
      * assert (Hl' : Lists (addList ss line) !! name = Lists ss !! name).
        { unfold addList. cbv zeta.
          destruct (SupportedLists !! string_of_list_ascii line); [|reflexivity].
          cbn [Lists]. now rewrite lookup_insert_ne. }
        rewrite Hl'. rewrite decide_False; [reflexivity|].
        intros [Hin Hs]. apply elem_of_cons in Hin as [Hin|Hin]; [contradiction|].
        apply Hn. auto.
Qed.

End ListOfListsFacts.

(** X11: [processSafeBrowsingLists] replaces every supported list that the
    answer of the server names on a line of its own by a brand-new list
    (empty tries, no ranges, the journal file [DataDir/name.dat]),
    whatever the client held under that name before; it adds no list that
    is not in [SupportedLists], and it leaves every other list and the
    data directory as they were. *)
Theorem X11_processSafeBrowsingLists_spec (ss : ListOfLists.SafeBrowsing) (body : bytes) :
  exists ss',
    ListOfLists.processSafeBrowsingLists ss body None = Ok ss' /\
    ListOfLists.DataDir ss' = ListOfLists.DataDir ss /\
    forall name,
      ListOfLists.Lists ss' !! name =
      if decide (name ∈ ListOfLists.namesIn body /\
                 is_Some (ListOfLists.SupportedLists !! name))
      then Some (ListEngine.newSafeBrowsingList name
                   (ListOfLists.DataDir ss +:+ "/" +:+ name +:+ ".dat")%string)
      else ListOfLists.Lists ss !! name.
Proof.
  eexists. split; [reflexivity|].
  destruct (ListOfListsFacts.addList_fold
              (ChunkCodec.Split ChunkCodec.newline (ChunkCodec.TrimSpace body)) ss)
    as (_ & _ & _ & Hd & Hl).
  split; [exact Hd|exact Hl].
Qed.

(** ** The redirect list *)

Module RedirectFacts.

Import ChunkCodec Redirects RedirectLines.

Lemma saveList_Lists (ss ss' : SafeBrowsing) (name name' : string) (r : list string) (p : nat) :
  saveList ss name r p = Ok ss' -> Lists ss !! name' = None -> Lists ss' !! name' = None.
Proof.
  unfold saveList. destruct (Lists ss !! name) eqn:E; [|discriminate].
  intros [= <-] Hn. cbn [Lists]. rewrite lookup_insert_ne; [exact Hn|]. congruence.
Qed.

Lemma setDeletes_Lists (ss ss' : SafeBrowsing) (name : string) (kind : ChunkType)
  (m : gmap ChunkNum bool) :
  setDeletes ss name kind m = Ok ss' -> Lists ss' = Lists ss /\ is_Some (Lists ss !! name).
Proof.
  unfold setDeletes. destruct (Lists ss !! name) eqn:E; [|discriminate].
  destruct (heap ss !! _); [|discriminate]. intros [= <-]. eauto.
Qed.

Lemma processLine_no_section (again : SafeBrowsing -> Res SafeBrowsing) (l l' : Locals)
  (line : bytes) :
  lineKey line <> Some (b "i") -> lineKey line <> Some (b "r") ->
  Lists (l_ss l) !! currentListName l = None ->
  processLine again l line = Goes l' ->
  currentListName l' = currentListName l /\ Lists (l_ss l') !! currentListName l' = None.
Proof.
  unfold lineKey, processLine. intros Hi Hr Hnone.
  destruct (SplitN2 ":" line) as [|key bits]; [discriminate|]. cbn [head] in Hi, Hr.
  destruct (decide (key = b "r")) as [->|_]; [contradiction|].
  destruct (decide (key = b "i")) as [->|_]; [contradiction|].
  unfold withArg.
  destruct (decide (key = b "u")).
  { destruct (index _ 1); try discriminate. intros [= <-]. cbn. auto. }
  destruct (decide (key = b "n")).
  { destruct (index _ 1); try discriminate. destruct (Atoi _); try discriminate.
    intros [= <-]. cbn. auto. }
  destruct (decide (key = b "e")).
  { destruct (index _ 1); discriminate. }
  destruct (decide (key = b "ad")).
  { destruct (index _ 1); try discriminate. destruct (parseChunkRange _); try discriminate.
    unfold goesWith. destruct (setDeletes _ _ _ _) as [ss1|e0|w] eqn:E; try discriminate.
    apply setDeletes_Lists in E as [_ [x Hx]]. congruence. }
  destruct (decide (key = b "sd")).
  { destruct (index _ 1); try discriminate. destruct (parseChunkRange _); try discriminate.
    unfold goesWith. destruct (setDeletes _ _ _ _) as [ss1|e0|w] eqn:E; try discriminate.
    apply setDeletes_Lists in E as [_ [x Hx]]. congruence. }
  intros [= <-]. auto.
Qed.

Lemma processLine_returns (again : SafeBrowsing -> Res SafeBrowsing) (l : Locals)
  (line : bytes) (r : Res SafeBrowsing) :
  lineKey line <> Some (b "r") ->
  processLine again l line = Returns r ->
  forall ss', r <> Ok ss'.
Proof.
  unfold lineKey, processLine. intros Hr.
  destruct (SplitN2 ":" line) as [|key bits]; [intros [= <-]; discriminate|].
  cbn [head] in Hr.
  destruct (decide (key = b "r")) as [->|_]; [contradiction|].
  unfold withArg, goesWith.
  repeat match goal with
         | |- context [decide (key = ?k)] => destruct (decide (key = k))
         | |- context [match ?x with _ => _ end] => destruct x
         end;
    try discriminate; intros [= <-]; discriminate.
Qed.

Lemma processLines_no_section (again : SafeBrowsing -> Res SafeBrowsing) (lines : list bytes) :
  forall l l',
  Forall (fun line => lineKey line <> Some (b "i") /\ lineKey line <> Some (b "r")) lines ->
  Lists (l_ss l) !! currentListName l = None ->
  processLines again l lines = Goes l' ->
  Lists (l_ss l') !! currentListName l' = None.
Proof.
  induction lines as [|line lines IH]; intros l l' Hall Hnone; cbn [processLines].
  - now intros [= <-].
  - apply Forall_cons in Hall as [[Hi Hr] Hall].
    destruct (processLine again l line) as [l1|r] eqn:E; [|discriminate].
    apply processLine_no_section in E as [_ E]; auto. now apply IH.
Qed.

Lemma processLines_returns (again : SafeBrowsing -> Res SafeBrowsing) (lines : list bytes) :
  forall l r,
  Forall (fun line => lineKey line <> Some (b "r")) lines ->
  processLines again l lines = Returns r ->
  forall ss', r <> Ok ss'.
Proof.
  induction lines as [|line lines IH]; intros l r Hall; cbn [processLines]; [discriminate|].
  apply Forall_cons in Hall as [Hr Hall].
  destruct (processLine again l line) as [l1|r1] eqn:E.
  - now apply IH.
  - intros [= <-]. eapply processLine_returns; eauto.
Qed.

End RedirectFacts.

(** X12: [processRedirectList] needs a list section.  When no line of the
    redirect list is an [i:] line (and none is an [r:] line, which hands
    over to a new request), the function never returns successfully
    unless the client holds a list with the empty name: an [ad:] or [sd:]
    line, and at the latest the store of the final section,
    dereferences [ss.Lists[""]], so that an answer that only carries the
    next polling delay is not processed successfully. *)
Theorem X12_processRedirectList_needs_a_list
  (again : Redirects.SafeBrowsing -> Res Redirects.SafeBrowsing)
  (ss : Redirects.SafeBrowsing) (lines : list bytes) (scanErr : option error) :
  Redirects.Lists ss !! ""%string = None ->
  Forall (fun line => RedirectLines.lineKey line <> Some (b "i") /\
                      RedirectLines.lineKey line <> Some (b "r")) lines ->
  forall ss', Redirects.processRedirectList again ss lines scanErr <> Ok ss'.
Proof.
  intros Hnone Hall ss'. unfold Redirects.processRedirectList.
  destruct (Redirects.processLines again _ lines) as [l|r] eqn:E.
  - apply RedirectFacts.processLines_no_section in E; auto.
    unfold Redirects.saveList. rewrite E. discriminate.
  - eapply RedirectFacts.processLines_returns; [|exact E].
    eapply Forall_impl; [exact Hall|]. now intros line [_ H].
Qed.

Lemma X12_witness :
  Redirects.Lists Redirects.twoLists !! ""%string = None /\
  Redirects.processRedirectList Redirects.noReset Redirects.twoLists [b "n:1200"] None
  <> Ok Redirects.twoLists.
Proof.
  split; [vm_compute; reflexivity|].
  apply X12_processRedirectList_needs_a_list.
  - vm_compute. reflexivity.
  - constructor; [|constructor]. split; vm_compute; discriminate.
Defined.

(** ** The answer to a full-hash request *)

Module FullHashResponseFacts.

Import HatTrie HatTrieFacts ChunkCodec ChunkCodecFacts Query FullHashResponse.

Lemma IndexByte_range (s : bytes) (c : ascii) : -1 <= IndexByte s c < len s.
Proof.
  unfold len. induction s as [|d s IH]; cbn [IndexByte length]; [lia|].
  destruct (decide (d = c)); [lia|]. destruct (Z.eqb_spec (IndexByte s c) (-1)); lia.
Qed.

Lemma IndexByte_app (h rest : bytes) (c : ascii) :
  c ∉ h -> IndexByte (h ++ c :: rest) c = len h.
Proof.
  unfold len. induction h as [|d h IH]; intros Hn; cbn [IndexByte app length].
  - now rewrite decide_True.
  - rewrite decide_False by (intros ->; apply Hn; left).
    rewrite IH by (intros H; apply Hn; now right).
    destruct (Z.eqb_spec (Z.of_nat (length h)) (-1)); lia.
Qed.

Lemma IndexByte_none (s : bytes) (c : ascii) : c ∉ s -> IndexByte s c = -1.
Proof.
  induction s as [|d s IH]; intros Hn; cbn [IndexByte]; [reflexivity|].
  rewrite decide_False by (intros ->; apply Hn; left).
  rewrite IH by (intros H; apply Hn; now right). reflexivity.
Qed.

Lemma slice_from (s : bytes) (lo : Z) :
  0 <= lo <= len s -> slice s lo (len s) = Ok (drop (Z.to_nat lo) s).
Proof.
  intros H. unfold slice, len in *.
  rewrite (proj2 (Z.leb_le 0 lo)), (proj2 (Z.leb_le lo _)), Z.leb_refl by lia. cbn [andb].
  f_equal. apply take_ge. rewrite length_drop. lia.
Qed.

Lemma slice_mid (x y z : bytes) (lo hi : Z) :
  lo = len x -> hi = len x + len y -> slice (x ++ y ++ z) lo hi = Ok y.
Proof.
  intros -> ->. unfold slice, len. rewrite !length_app.
  rewrite (proj2 (Z.leb_le 0 _)), (proj2 (Z.leb_le _ _)), (proj2 (Z.leb_le _ _)) by lia.
  cbn [andb]. f_equal. rewrite Nat2Z.id.
  rewrite drop_app_length.
  replace (Z.to_nat (Z.of_nat (length x) + Z.of_nat (length y) - Z.of_nat (length x)))
    with (length y) by lia.
  now rewrite take_app_length.
Qed.

Section StoreHashes.
Variable now : Z.

Lemma storeHashes_spec (hs : list LookupHash) :
  forall (fuel : nat) (done : bytes) (ls : list (string * SafeBrowsingList))
         (name : string) (L : Z) (sbl : SafeBrowsingList),
  Forall (fun h => len h = 32) hs ->
  (length hs < fuel)%nat ->
  len (done ++ concat hs) + 32 < 2 ^ 63 ->
  aget ls name = Some sbl ->
  exists ls' sbl',
    storeHashes now fuel (Some ls) (done ++ concat hs) name L (len done) = (Ok tt, Some ls') /\
    aget ls' name = Some sbl' /\
    (forall other, other <> name -> aget ls' other = aget ls other) /\
    storedIn now hs L sbl sbl'.
Proof.
  induction hs as [|h hs IH]; intros fuel done ls name L sbl Hall Hfuel Hbig Hget.
  - cbn [concat] in *. rewrite app_nil_r in *.
    assert (E : addi (len done) 32 = len done + 32) by (apply wrap64_small; unfold len in *; lia).
    destruct fuel; cbn [storeHashes]; rewrite E;
      (destruct (Z.leb_spec (len done + 32) (len done)); [lia|]);
      exists ls, sbl; (split; [reflexivity|]); (split; [exact Hget|]);
      (split; [reflexivity|]); unfold storedIn;
      (split; [reflexivity|]); (split; [reflexivity|]);
      (split; [intros k Hin; inversion Hin|]); split; auto.
  - apply Forall_cons in Hall as [Hh Hall]. cbn [concat] in *.
    destruct fuel as [|fuel]; [cbn in Hfuel; lia|]. cbn [storeHashes].
    assert (Hlen : len (done ++ h ++ concat hs) = len done + 32 + len (concat hs)).
    { unfold len in *. rewrite !length_app. lia. }
    assert (E : addi (len done) 32 = len done + 32).
    { apply wrap64_small. unfold len in *. lia. }
    rewrite E. destruct (Z.leb_spec (len done + 32) (len (done ++ h ++ concat hs))) as [_|Hx];
      [|unfold len in *; lia].
    rewrite (slice_mid done h (concat hs)) by lia. rewrite Hget.
    set (sbl1 := mkList (Lookup sbl) (FullHashRequested sbl) (Set_ (FullHashes sbl) h)
                        (<[h := newFullHashCache now L]> (Cache sbl))).
    destruct (IH fuel (done ++ h) (aset ls name sbl1) name L sbl1 Hall ltac:(cbn in Hfuel; lia))
      as (ls' & sbl' & Hs & Hg & Hother & Hl & Hr & Hin & Hmono & Hcache).
    { rewrite <- app_assoc. exact Hbig. }
    { apply aget_aset_same. }
    rewrite <- app_assoc in Hs.
    replace (len (done ++ h)) with (len done + 32) in Hs
      by (unfold len in *; rewrite length_app; lia).
    exists ls', sbl'. split; [exact Hs|]. split; [exact Hg|]. split.
    { intros other Hne. rewrite Hother by exact Hne. now apply ChunkShapeFacts.aget_aset_ne. }
    split; [exact Hl|]. split; [exact Hr|]. split.
    + intros k Hk. apply elem_of_cons in Hk as [->|Hk]; [|now apply Hin].
      split.
      * apply Hmono. apply Get_Set_same.
      * apply Hcache. cbn [Cache sbl1]. apply lookup_insert_eq.
    + split.
      * intros k Hk. apply Hmono. cbn [FullHashes sbl1]. now apply QueryFacts.Get_Set_true.
      * intros k Hk. apply Hcache. cbn [Cache sbl1].
        destruct (decide (k = h)) as [->|Hne]; [apply lookup_insert_eq|].
        now rewrite lookup_insert_ne.
Qed.
End StoreHashes.

Section OneRecord.
Variable now : Z.

Lemma slice_take_drop (s : bytes) (lo hi : Z) :
  0 <= lo -> lo <= hi -> hi <= len s ->
  slice s lo hi = Ok (take (Z.to_nat (hi - lo)) (drop (Z.to_nat lo) s)).
Proof.
  intros H0 H1 H2. unfold slice. fold (len s).
  now rewrite (proj2 (Z.leb_le 0 lo)), (proj2 (Z.leb_le lo hi)), (proj2 (Z.leb_le hi _)).
Qed.

(** A record without metadata at offset [len pre]. *)
Lemma processRecord_plain (lists : ListsMap) (pre header rest : bytes) (L n : Z)
  (fname f1 count : bytes) :
  newline ∉ header ->
  Split ":"%char header = [fname; f1; count] ->
  Atoi count = Ok n -> 0 < n ->
  len pre + 32 * n <= len (pre ++ header ++ newline :: rest) ->
  len (pre ++ header ++ newline :: rest) < 2 ^ 62 ->
  processRecord now lists (pre ++ header ++ newline :: rest) L (len pre) =
  match slice (pre ++ header ++ newline :: rest) (len header + 1) (len header + 1 + 32 * n) with
  | Ok hashes =>
      match readFullHashChunk now lists hashes (string_of_list_ascii fname) L with
      | (Panic w, lists') => (Panic w, lists')
      | (_, lists') => (Ok (len pre + len header + 1 + 32 * n), lists')
      end
  | Err e => (Err e, lists)
  | Panic w => (Panic w, lists)
  end.
Proof.
  intros Hnl Hsplit Hcount Hn Hfit Hbig.
  set (data := pre ++ header ++ newline :: rest) in *.
  assert (Hlen : len data = len pre + len header + 1 + len rest).
  { unfold data, len. rewrite !length_app. cbn [length]. lia. }
  assert (Hp : 0 <= len pre) by (unfold len; lia).
  assert (Hh : 0 <= len header) by (unfold len; lia).
  assert (Hr : 0 <= len rest) by (unfold len; lia).
  unfold processRecord.
  rewrite slice_from by lia. unfold len at 1. rewrite Nat2Z.id.
  unfold data at 1. rewrite drop_app_length.
  cbn [bind]. rewrite IndexByte_app by exact Hnl.
  destruct (Z.eqb_spec (-1) (len header)); [lia|].
  assert (E1 : addi (len pre) (len header) = len pre + len header)
    by (apply wrap64_small; lia).
  rewrite E1. unfold data at 1.
  rewrite (slice_mid pre header (newline :: rest)) by lia. cbn [bind].
  rewrite Hsplit.
  change (len [fname; f1; count]) with 3.
  change (index [fname; f1; count] 2) with (Ok count : Res bytes).
  change (index [fname; f1; count] 0) with (Ok fname : Res bytes).
  change (3 =? 3) with true. change (4 =? 3) with false. cbn [negb andb bind].
  rewrite Hcount. cbn [bind].
  assert (Z.of_nat (length rest) = len rest) by reflexivity.
  destruct (Z.geb_spec 0 n); [lia|].
  assert (E2 : muli n 32 = 32 * n).
  { unfold muli. rewrite wrap64_small by lia. lia. }
  rewrite E2.
  assert (E3 : addi (len pre) (32 * n) = len pre + 32 * n) by (apply wrap64_small; lia).
  rewrite E3. rewrite gtb_false by exact Hfit.
  assert (E4 : addi (len header) 1 = len header + 1) by (apply wrap64_small; lia).
  rewrite E4.
  assert (E5 : addi (len header + 1) (32 * n) = len header + 1 + 32 * n).
  { apply wrap64_small. lia. }
  rewrite E5.
  destruct (slice data (len header + 1) (len header + 1 + 32 * n)) as [hashes|e0|w];
    cbn [bind]; try reflexivity.
  assert (E6 : addi (addi (len pre + len header) 1) (32 * n) = len pre + len header + 1 + 32 * n).
  { unfold addi. rewrite (wrap64_small (len pre + len header + 1)) by lia.
    apply wrap64_small. lia. }
  rewrite E6. reflexivity.
Qed.
End OneRecord.

Section Head.
Variable now : Z.

Lemma processFullHashes_head (fuel : nat) (lists : ListsMap) (life data' : bytes) (L : Z) :
  newline ∉ life -> Atoi life = Ok L ->
  len (life ++ newline :: data') < 2 ^ 62 ->
  processFullHashes now fuel lists (life ++ newline :: data')
  = processRecords now fuel lists data' L 0.
Proof.
  intros Hnl Hlife Hbig. unfold processFullHashes.
  rewrite IndexByte_app by exact Hnl. cbv zeta.
  assert (Hl : 0 <= len life) by (unfold len; lia).
  assert (Hlen : len (life ++ newline :: data') = len life + 1 + len data').
  { unfold len. rewrite length_app. cbn [length]. lia. }
  assert (Hd : 0 <= len data') by (unfold len; lia).
  destruct (Z.eqb_spec (-1) (len life)); [lia|].
  rewrite (slice_mid [] life (newline :: data')) by (unfold len; cbn [length]; lia). cbn [bind].
  rewrite Hlife. cbn [bind].
  assert (E : addi (len life) 1 = len life + 1) by (apply wrap64_small; lia).
  rewrite E, slice_from by lia. cbn [bind].
  replace (Z.to_nat (len life + 1)) with (length (life ++ [newline]))
    by (rewrite length_app; unfold len; cbn; lia).
  change (newline :: data') with ([newline] ++ data'). rewrite app_assoc, drop_app_length.
  reflexivity.
Qed.

Lemma concat_length32 (hs : list LookupHash) :
  Forall (fun h => len h = 32) hs -> len (concat hs) = 32 * len hs.
Proof.
  unfold len. induction 1 as [|h hs Hh _ IH]; cbn [concat length]; [lia|].
  rewrite length_app. unfold len in Hh. lia.
Qed.

End Head.

Section Records.
Variable now : Z.

Lemma storeHashes_no_panic (fuel : nat) :
  forall (lists : ListsMap) (hashes : bytes) (name : string) (L i : Z) (w : string),
  0 <= i <= len hashes -> len hashes + 32 < 2 ^ 63 ->
  len hashes - i < 32 * Z.of_nat fuel ->
  fst (storeHashes now fuel lists hashes name L i) <> Panic w.
Proof.
  induction fuel as [|fuel IH]; intros lists hashes name L i w Hi Hbig Hfuel;
    cbn [storeHashes];
    (assert (E : addi i 32 = i + 32) by (apply wrap64_small; lia)); rewrite E;
    destruct (Z.leb_spec (i + 32) (len hashes)) as [Hle|Hgt]; try discriminate; [lia|].
  rewrite slice_take_drop by lia.
  destruct lists as [ls|]; [|discriminate].
  destruct (aget ls name); [|discriminate].
  apply IH; lia.
Qed.

Lemma readFullHashChunk_no_panic (lists : ListsMap) (hashes : bytes) (name : string) (L : Z)
  (w : string) :
  len hashes + 32 < 2 ^ 63 ->
  fst (readFullHashChunk now lists hashes name L) <> Panic w.
Proof.
  intros Hbig. unfold readFullHashChunk. destruct (_ || _); [discriminate|].
  apply storeHashes_no_panic; unfold len in *; lia.
Qed.

Lemma readFullHashChunk_missing (lists : ListsMap) (hashes : bytes) (name : string) (L : Z) :
  missing lists name ->
  snd (readFullHashChunk now lists hashes name L) = lists.
Proof.
  intros Hm. unfold readFullHashChunk. destruct (_ || _); [reflexivity|].
  cbn [storeHashes]. destruct (_ <=? _); [|reflexivity].
  destruct (slice _ _ _); try reflexivity.
  destruct lists as [ls|]; [|reflexivity]. cbn in Hm. now rewrite Hm.
Qed.

(** The record at the head of [data'] parsed, the loop goes on behind it. *)
Lemma processRecords_plain (fuel : nat) (lists : ListsMap) (pre header rest : bytes) (L n : Z)
  (fname f1 count hashes : bytes) :
  newline ∉ header ->
  Split ":"%char header = [fname; f1; count] ->
  Atoi count = Ok n -> 0 < n ->
  len pre + 32 * n <= len (pre ++ header ++ newline :: rest) ->
  len (pre ++ header ++ newline :: rest) < 2 ^ 62 ->
  slice (pre ++ header ++ newline :: rest) (len header + 1) (len header + 1 + 32 * n)
    = Ok hashes ->
  processRecords now (S fuel) lists (pre ++ header ++ newline :: rest) L (len pre)
  = processRecords now fuel
      (snd (readFullHashChunk now lists hashes (string_of_list_ascii fname) L))
      (pre ++ header ++ newline :: rest) L
      (len pre + (len pre + len header + 1 + 32 * n)).
Proof.
  intros Hnl Hsplit Hcount Hn Hfit Hbig Hsl. cbn [processRecords].
  set (data := pre ++ header ++ newline :: rest) in *.
  assert (Hlen : len data = len pre + len header + 1 + len rest).
  { unfold data, len. rewrite !length_app. cbn [length]. lia. }
  assert (Hp : 0 <= len pre) by (unfold len; lia).
  assert (Hh : 0 <= len header) by (unfold len; lia).
  assert (Hr : 0 <= len rest) by (unfold len; lia).
  destruct (Z.ltb_spec (len pre) (len data)) as [_|Hx]; [|lia].
  unfold data. rewrite (processRecord_plain now lists pre header rest L n fname f1 count)
    by assumption.
  fold data. rewrite Hsl.
  pose proof (readFullHashChunk_no_panic lists hashes (string_of_list_ascii fname) L) as Hnp.
  assert (Hhl : len hashes + 32 < 2 ^ 63).
  { apply ChunkShapeFacts.slice_length in Hsl. lia. }
  destruct (readFullHashChunk now lists hashes (string_of_list_ascii fname) L) as [r lists'].
  cbn [fst snd] in *.
  assert (E : addi (len pre) (len pre + len header + 1 + 32 * n)
              = len pre + (len pre + len header + 1 + 32 * n)).
  { apply wrap64_small. lia. }
  destruct r as [[]|e0|w]; [now rewrite E|now rewrite E|].
  now contradiction (Hnp w).
Qed.

Lemma processRecords_done (fuel : nat) (lists : ListsMap) (data : bytes) (L pos : Z) :
  len data <= pos -> processRecords now fuel lists data L pos = Some (Ok tt, lists).
Proof.
  intros H. destruct fuel; cbn [processRecords];
    (destruct (Z.ltb_spec pos (len data)); [lia|reflexivity]).
Qed.

End Records.

Section Stall.
Variable now : Z.

Lemma processRecord_stall (lists : ListsMap) (header fname f1 count hash meta rest : bytes)
  (L : Z) :
  newline ∉ header -> Split ":"%char header = [fname; f1; count; b "m"] ->
  Atoi count = Ok 1 -> len hash = 32 ->
  newline ∉ meta -> Atoi meta = Ok (- (len header + 1 + 32 + len meta + 1)) ->
  len (header ++ newline :: hash ++ meta ++ newline :: rest) < 2 ^ 62 ->
  processRecord now lists (header ++ newline :: hash ++ meta ++ newline :: rest) L 0
  = (Ok 0, snd (readFullHashChunk now lists hash (string_of_list_ascii fname) L)).
Proof.
  intros Hnl Hsplit Hcount Hhash Hnm Hmeta Hbig.
  set (data := header ++ newline :: hash ++ meta ++ newline :: rest) in *.
  assert (Hlen : len data = len header + 1 + 32 + len meta + 1 + len rest).
  { unfold data, len in *. rewrite !length_app. cbn [length]. rewrite !length_app.
    cbn [length]. lia. }
  assert (Hh : 0 <= len header) by (unfold len; lia).
  assert (Hm : 0 <= len meta) by (unfold len; lia).
  assert (Hr : 0 <= len rest) by (unfold len; lia).
  unfold processRecord.
  rewrite slice_from by lia. change (Z.to_nat 0) with 0%nat. rewrite drop_0.
  cbn [bind].
  assert (HI : IndexByte data newline = len header) by (apply IndexByte_app; exact Hnl).
  rewrite !HI.
  destruct (Z.eqb_spec (-1) (len header)); [lia|].
  assert (E1 : addi 0 (len header) = len header) by (apply wrap64_small; lia).
  rewrite E1. unfold data at 1.
  rewrite (slice_mid [] header (newline :: hash ++ meta ++ newline :: rest))
    by (unfold len; cbn [length]; lia).
  cbn [bind]. rewrite Hsplit.
  change (len [fname; f1; count; b "m"]) with 4.
  change (index [fname; f1; count; b "m"] 2) with (Ok count : Res bytes).
  change (index [fname; f1; count; b "m"] 3) with (Ok (b "m") : Res bytes).
  change (index [fname; f1; count; b "m"] 0) with (Ok fname : Res bytes).
  change (3 =? 4) with false. change (4 =? 4) with true. cbn [negb andb bind].
  rewrite Hcount. cbn [bind]. change (0 >=? 1) with false. cbv iota.
  change (muli 1 32) with 32. change (addi 0 32) with 32.
  rewrite gtb_false by lia.
  assert (E2 : addi (len header) 1 = len header + 1) by (apply wrap64_small; lia).
  rewrite E2.
  assert (E3 : addi (len header + 1) 32 = len header + 1 + 32) by (apply wrap64_small; lia).
  rewrite E3.
  assert (Hsl : slice data (len header + 1) (len header + 1 + 32) = Ok hash).
  { unfold data.
    replace (header ++ newline :: hash ++ meta ++ newline :: rest)
      with ((header ++ [newline]) ++ hash ++ (meta ++ newline :: rest))
      by (rewrite <- app_assoc; reflexivity).
    apply slice_mid; unfold len in *; rewrite length_app; cbn [length]; lia. }
  rewrite Hsl. cbn [bind].
  rewrite bool_decide_eq_true_2 by reflexivity. cbn [negb].
  change (Z.to_nat 1) with 1%nat. cbn [skipMetadata].
  assert (E4 : addi 0 (len header + 1 + 32) = len header + 1 + 32) by (apply wrap64_small; lia).
  rewrite E4.
  rewrite slice_from by lia.
  assert (Hdrop : drop (Z.to_nat (len header + 1 + 32)) data = meta ++ newline :: rest).
  { unfold data.
    replace (header ++ newline :: hash ++ meta ++ newline :: rest)
      with ((header ++ [newline] ++ hash) ++ meta ++ newline :: rest)
      by (rewrite <- !app_assoc; reflexivity).
    apply drop_app_length'. unfold len in *. rewrite !length_app. cbn [length]. lia. }
  rewrite Hdrop. cbn [bind]. rewrite IndexByte_app by exact Hnm.
  destruct (Z.eqb_spec (-1) (len meta)); [lia|].
  assert (E5 : addi (len header + 1 + 32) (len meta) = len header + 1 + 32 + len meta)
    by (apply wrap64_small; lia).
  rewrite E5.
  assert (Hsm : slice data (len header + 1 + 32) (len header + 1 + 32 + len meta) = Ok meta).
  { unfold data.
    replace (header ++ newline :: hash ++ meta ++ newline :: rest)
      with ((header ++ [newline] ++ hash) ++ meta ++ newline :: rest)
      by (rewrite <- !app_assoc; reflexivity).
    apply slice_mid; unfold len in *; rewrite !length_app; cbn [length]; lia. }
  rewrite Hsm. cbn [bind]. rewrite Hmeta. cbn [bind].
  assert (E6 : addi (len header + 1 + 32 + len meta)
                    (- (len header + 1 + 32 + len meta + 1)) = -1)
    by (unfold addi; rewrite wrap64_small; lia).
  rewrite E6. rewrite gtb_false by lia.
  assert (E7 : addi (len header + 1 + 32)
                 (addi (addi (len meta) 1) (- (len header + 1 + 32 + len meta + 1))) = 0).
  { unfold addi. rewrite (wrap64_small (len meta + 1)) by lia.
    rewrite (wrap64_small (len meta + 1 + _)) by lia. rewrite wrap64_small; lia. }
  rewrite E7. cbn [bind].
  pose proof (readFullHashChunk_no_panic now lists hash (string_of_list_ascii fname) L) as Hnp.
  destruct (readFullHashChunk now lists hash (string_of_list_ascii fname) L) as [r lists'].
  cbn [fst snd] in *. destruct r as [[]|e0|w]; try reflexivity.
  now contradiction (Hnp w ltac:(lia)).
Qed.

End Stall.

End FullHashResponseFacts.

Import HatTrie HatTrieFacts ChunkCodec ChunkCodecFacts Query.
Import FullHashResponse FullHashResponseFacts.

(** X13: an answer with one well-formed record for a list the client
    holds is stored.  [processFullHashes] returns nil, and afterwards every
    hash of the record is a member of the [FullHashes] trie of the named
    list and has a [Cache] entry made of the instant of the call and the
    cache life time of the first line of the answer; the [Lookup] and
    [FullHashRequested] tries of that list, the members its [FullHashes]
    trie already had, and every other list are as before. *)
Theorem X13_processFullHashes_stores (now : Z) (fuel : nat) (ls : list (string * SafeBrowsingList))
  (sbl : SafeBrowsingList) (life header fname f1 count : bytes) (hs : list LookupHash) (L : Z) :
  newline ∉ life -> Atoi life = Ok L ->
  newline ∉ header -> Split ":"%char header = [fname; f1; count] ->
  Atoi count = Ok (len hs) -> hs <> [] -> Forall (fun h => len h = 32) hs ->
  string_of_list_ascii fname <> ""%string ->
  aget ls (string_of_list_ascii fname) = Some sbl ->
  len (life ++ newline :: header ++ newline :: concat hs) < 2 ^ 62 ->
  exists ls' sbl',
    processFullHashes now (S fuel) (Some ls) (life ++ newline :: header ++ newline :: concat hs)
    = Some (Ok tt, Some ls') /\
    aget ls' (string_of_list_ascii fname) = Some sbl' /\
    (forall other, other <> string_of_list_ascii fname -> aget ls' other = aget ls other) /\
    Lookup sbl' = Lookup sbl /\
    FullHashRequested sbl' = FullHashRequested sbl /\
    (forall h, h ∈ hs ->
       Get (FullHashes sbl') h = true /\
       Cache sbl' !! h = Some (newFullHashCache now L)) /\
    (forall k, Get (FullHashes sbl) k = true -> Get (FullHashes sbl') k = true).
Proof.
  intros Hnl Hlife Hnh Hsplit Hcount Hne Hall Hname Hget Hbig.
  rewrite (processFullHashes_head _ _ _ _ _ L) by assumption.
  set (data' := header ++ newline :: concat hs).
  assert (Hlen' : len data' = len header + 1 + 32 * len hs).
  { unfold data', len. rewrite length_app. cbn [length].
    pose proof (concat_length32 hs Hall) as Hc. unfold len in Hc. lia. }
  assert (Hbig' : len data' < 2 ^ 62).
  { unfold len in *. rewrite length_app in Hbig. cbn [length] in Hbig. fold data' in Hbig. lia. }
  assert (Hpos : 0 < len hs) by (destruct hs; [contradiction|unfold len; cbn; lia]).
  assert (Hh : 0 <= len header) by (unfold len; lia).
  cbn [processRecords]. destruct (Z.ltb_spec 0 (len data')) as [_|Hx]; [|lia].
  pose proof (processRecord_plain now (Some ls) [] header (concat hs) L (len hs)
                fname f1 count Hnh Hsplit Hcount Hpos) as Hrec.
  cbn [app] in Hrec. fold data' in Hrec. change (len []) with 0 in Hrec.
  rewrite Hrec by lia. clear Hrec.
  assert (Hsl : slice data' (len header + 1) (len header + 1 + 32 * len hs)
                = Ok (concat hs)).
  { replace data' with ((header ++ [newline]) ++ concat hs ++ [])
      by (unfold data'; rewrite app_nil_r, <- app_assoc; reflexivity).
    pose proof (concat_length32 hs Hall) as Hc.
    apply slice_mid; unfold len in *; rewrite length_app; cbn [length]; lia. }
  rewrite Hsl.
  unfold readFullHashChunk.
  assert (Hcne : concat hs <> []).
  { intros E. pose proof (concat_length32 hs Hall) as Hc. rewrite E in Hc.
    unfold len in Hc, Hpos. cbn in Hc. lia. }
  rewrite bool_decide_eq_false_2 by exact Hcne.
  rewrite bool_decide_eq_false_2 by exact Hname. cbn [orb].
  destruct (storeHashes_spec now hs (S (length (concat hs))) [] ls
              (string_of_list_ascii fname) L sbl Hall)
    as (ls' & sbl' & Hs & Hg & Hother & Hl & Hr & Hin & Hmono & _); try assumption.
  { pose proof (concat_length32 hs Hall) as Hc. unfold len in Hc. lia. }
  { cbn [app]. pose proof (concat_length32 hs Hall) as Hc. unfold len in *. lia. }
  cbn [app] in Hs. change (len []) with 0 in Hs. rewrite Hs.
  replace (addi 0 (0 + len header + 1 + 32 * len hs)) with (len data')
    by (unfold addi; rewrite wrap64_small; lia).
  assert (Hend : forall f, processRecords now f (Some ls') data' L (len data')
                           = Some (Ok tt, Some ls')).
  { intros f. destruct f; cbn [processRecords]; rewrite Z.ltb_irrefl; reflexivity. }
  rewrite Hend. exists ls', sbl'. repeat split; auto; apply Hin; assumption.
Qed.

Lemma X13_witness :
  exists ls' sbl',
    processFullHashes 0 1 (Some malwareOnly) oneRecord = Some (Ok tt, Some ls') /\
    aget ls' "goog-malware-shavar"%string = Some sbl' /\
    (forall other, other <> "goog-malware-shavar"%string ->
                   aget ls' other = aget malwareOnly other) /\
    Lookup sbl' = Lookup emptyList /\
    FullHashRequested sbl' = FullHashRequested emptyList /\
    (forall h, h ∈ [hashAs] ->
       Get (FullHashes sbl') h = true /\
       Cache sbl' !! h = Some (newFullHashCache 0 600)) /\
    (forall k, Get (FullHashes emptyList) k = true -> Get (FullHashes sbl') k = true).
Proof.
  exact (X13_processFullHashes_stores 0 0 malwareOnly emptyList (b "600")
           (b "goog-malware-shavar:32:1") (b "goog-malware-shavar") (b "32") (b "1")
           [hashAs] 600
           ltac:(apply (bool_decide_unpack _); vm_compute; exact I)
           ltac:(vm_compute; reflexivity)
           ltac:(apply (bool_decide_unpack _); vm_compute; exact I)
           ltac:(vm_compute; reflexivity)
           ltac:(vm_compute; reflexivity)
           ltac:(discriminate)
           ltac:(repeat constructor)
           ltac:(vm_compute; discriminate)
           ltac:(vm_compute; reflexivity)
           ltac:(vm_compute; reflexivity)).
Defined.

(** X14: the error of [readFullHashChunk] never leaves
    [processFullHashes].  The loop assigns it to the [err] that
    [num_resp, err := strconv.Atoi(...)] declares in the body of the loop,
    and the function returns the [err] of its own scope.  So an answer
    whose record names a list the client does not hold (or that arrives
    while [sb.Lists] is nil) is reported as a success, with nothing
    stored. *)
Theorem X14_processFullHashes_swallows_errors (now : Z) (fuel : nat) (lists : ListsMap)
  (life header fname f1 count : bytes) (hs : list LookupHash) (L : Z) :
  newline ∉ life -> Atoi life = Ok L ->
  newline ∉ header -> Split ":"%char header = [fname; f1; count] ->
  Atoi count = Ok (len hs) -> hs <> [] -> Forall (fun h => len h = 32) hs ->
  missing lists (string_of_list_ascii fname) ->
  len (life ++ newline :: header ++ newline :: concat hs) < 2 ^ 62 ->
  processFullHashes now (S fuel) lists (life ++ newline :: header ++ newline :: concat hs)
  = Some (Ok tt, lists).
Proof.
  intros Hnl Hlife Hnh Hsplit Hcount Hne Hall Hmiss Hbig.
  rewrite (processFullHashes_head _ _ _ _ _ L) by assumption.
  pose proof (concat_length32 hs Hall) as Hc.
  assert (Hpos : 0 < len hs) by (destruct hs; [contradiction|unfold len; cbn; lia]).
  assert (Hlen' : len (header ++ newline :: concat hs) = len header + 1 + 32 * len hs).
  { unfold len in *. rewrite length_app. cbn [length]. lia. }
  assert (Hbig' : len (header ++ newline :: concat hs) < 2 ^ 62).
  { unfold len in *. rewrite length_app in Hbig. cbn [length] in Hbig. lia. }
  assert (Hh : 0 <= len header) by (unfold len; lia).
  pose proof (processRecords_plain now fuel lists [] header (concat hs) L (len hs) fname f1 count
                (concat hs)) as Hrec.
  cbn [app] in Hrec. change (len []) with 0 in Hrec.
  rewrite Hrec; try assumption.
  - rewrite readFullHashChunk_missing by exact Hmiss.
    apply processRecords_done. lia.
  - lia.
  - replace (header ++ newline :: concat hs) with ((header ++ [newline]) ++ concat hs ++ [])
      by (rewrite app_nil_r, <- app_assoc; reflexivity).
    apply slice_mid; unfold len in *; rewrite length_app; cbn [length]; lia.
Qed.

Lemma X14_witness :
  processFullHashes 0 1 (Some malwareOnly)
    (b "600" ++ newline :: b "goog-phish-shavar:32:1" ++ newline :: concat [hashAs])
  = Some (Ok tt, Some malwareOnly).
Proof.
  exact (X14_processFullHashes_swallows_errors 0 0 (Some malwareOnly) (b "600")
           (b "goog-phish-shavar:32:1") (b "goog-phish-shavar") (b "32") (b "1")
           [hashAs] 600
           ltac:(apply (bool_decide_unpack _); vm_compute; exact I)
           ltac:(vm_compute; reflexivity)
           ltac:(apply (bool_decide_unpack _); vm_compute; exact I)
           ltac:(vm_compute; reflexivity)
           ltac:(vm_compute; reflexivity)
           ltac:(discriminate)
           ltac:(repeat constructor)
           ltac:(vm_compute; reflexivity)
           ltac:(vm_compute; reflexivity)).
Defined.

(** X15: a record cut short panics.  The length check compares
    [pos + num_resp*32], without the header, with [len(data)]; when the
    bytes behind the header are fewer than the [32 * n] the header
    announces, but header and bytes together are not, the check passes and
    [data[nl_pos+1 : nl_pos+1+(num_resp*32)]] is out of range. *)
Theorem X15_processFullHashes_truncated (now : Z) (fuel : nat) (lists : ListsMap)
  (life header fname f1 count body : bytes) (L n : Z) :
  newline ∉ life -> Atoi life = Ok L ->
  newline ∉ header -> Split ":"%char header = [fname; f1; count] ->
  Atoi count = Ok n -> 0 < n ->
  len body < 32 * n <= len header + 1 + len body ->
  len (life ++ newline :: header ++ newline :: body) < 2 ^ 62 ->
  processFullHashes now (S fuel) lists (life ++ newline :: header ++ newline :: body)
  = Some (Panic "slice bounds out of range", lists).
Proof.
  intros Hnl Hlife Hnh Hsplit Hcount Hn Hcut Hbig.
  rewrite (processFullHashes_head _ _ _ _ _ L) by assumption.
  assert (Hlen' : len (header ++ newline :: body) = len header + 1 + len body).
  { unfold len in *. rewrite length_app. cbn [length]. lia. }
  assert (Hbig' : len (header ++ newline :: body) < 2 ^ 62).
  { unfold len in *. rewrite length_app in Hbig. cbn [length] in Hbig. lia. }
  assert (Hh : 0 <= len header) by (unfold len; lia).
  cbn [processRecords]. destruct (Z.ltb_spec 0 (len (header ++ newline :: body))); [|lia].
  pose proof (processRecord_plain now lists [] header body L n fname f1 count
                Hnh Hsplit Hcount Hn) as Hrec.
  cbn [app] in Hrec. change (len []) with 0 in Hrec. rewrite Hrec by lia.
  unfold slice. fold (len (header ++ newline :: body)).
  destruct (Z.leb_spec (len header + 1 + 32 * n) (len (header ++ newline :: body))); [lia|].
  rewrite andb_false_r. reflexivity.
Qed.

Lemma X15_witness :
  processFullHashes 0 1 (Some malwareOnly) cutRecord
  = Some (Panic "slice bounds out of range", Some malwareOnly).
Proof.
  exact (X15_processFullHashes_truncated 0 0 (Some malwareOnly) (b "600")
           (b "goog-malware-shavar:32:1") (b "goog-malware-shavar") (b "32") (b "1")
           (take 31 hashAs) 600 1
           ltac:(apply (bool_decide_unpack _); vm_compute; exact I)
           ltac:(vm_compute; reflexivity)
           ltac:(apply (bool_decide_unpack _); vm_compute; exact I)
           ltac:(vm_compute; reflexivity)
           ltac:(vm_compute; reflexivity)
           ltac:(lia)
           ltac:(vm_compute; split; [reflexivity|discriminate])
           ltac:(vm_compute; reflexivity)).
Defined.

(** X16: the hashes of a second record are not read.  [hashes] is sliced
    from [nl_pos+1], an offset from the start of [data] and not from
    [pos]: for an answer of two records whose headers have the same length
    and announce the same number of hashes, the list the second header
    names receives the hashes of the first record once more; the hashes
    the second record carries are stored nowhere. *)
Theorem X16_processFullHashes_second_record (now : Z) (fuel : nat) (lists : ListsMap)
  (life h1 name1 x1 c1 h2 name2 x2 c2 : bytes) (hs1 hs2 : list LookupHash) (L : Z) :
  newline ∉ life -> Atoi life = Ok L ->
  newline ∉ h1 -> Split ":"%char h1 = [name1; x1; c1] -> Atoi c1 = Ok (len hs1) ->
  hs1 <> [] -> Forall (fun h => len h = 32) hs1 ->
  newline ∉ h2 -> Split ":"%char h2 = [name2; x2; c2] -> Atoi c2 = Ok (len hs2) ->
  Forall (fun h => len h = 32) hs2 ->
  len h2 = len h1 -> len hs2 = len hs1 ->
  len (life ++ newline :: h1 ++ newline :: concat hs1 ++ h2 ++ newline :: concat hs2) < 2 ^ 62 ->
  processFullHashes now (S (S fuel)) lists
    (life ++ newline :: h1 ++ newline :: concat hs1 ++ h2 ++ newline :: concat hs2)
  = Some (Ok tt,
          snd (readFullHashChunk now
                 (snd (readFullHashChunk now lists (concat hs1) (string_of_list_ascii name1) L))
                 (concat hs1) (string_of_list_ascii name2) L)).
Proof.
  intros Hnl Hlife Hn1 Hs1 Hc1 Hne1 Hall1 Hn2 Hs2 Hc2 Hall2 Hhl Hcl Hbig.
  rewrite (processFullHashes_head _ _ _ _ _ L) by assumption.
  pose proof (concat_length32 hs1 Hall1) as Hk1.
  pose proof (concat_length32 hs2 Hall2) as Hk2.
  assert (Hpos : 0 < len hs1) by (destruct hs1; [contradiction|unfold len; cbn; lia]).
  set (data := h1 ++ newline :: concat hs1 ++ h2 ++ newline :: concat hs2) in *.
  assert (Hlen : len data = len h1 + 1 + 32 * len hs1 + len h2 + 1 + 32 * len hs2).
  { unfold data, len in *. rewrite !length_app. cbn [length]. rewrite !length_app.
    cbn [length]. lia. }
  assert (Hbig' : len data < 2 ^ 62).
  { unfold len in *. rewrite length_app in Hbig. cbn [length] in Hbig. lia. }
  assert (Hh1 : 0 <= len h1) by (unfold len; lia).
  (* the first record *)
  pose proof (processRecords_plain now (S fuel) lists [] h1
                (concat hs1 ++ h2 ++ newline :: concat hs2) L (len hs1) name1 x1 c1
                (concat hs1) Hn1 Hs1 Hc1 Hpos) as Hrec1.
  cbn [app] in Hrec1. fold data in Hrec1. change (len []) with 0 in Hrec1.
  rewrite Hrec1; [| lia | lia |]. clear Hrec1.
  2:{ unfold data.
      replace (h1 ++ newline :: concat hs1 ++ h2 ++ newline :: concat hs2)
        with ((h1 ++ [newline]) ++ concat hs1 ++ (h2 ++ newline :: concat hs2))
        by (rewrite <- app_assoc; reflexivity).
      apply slice_mid; unfold len in *; rewrite length_app; cbn [length]; lia. }
  (* the second record *)
  set (lists1 := snd (readFullHashChunk now lists (concat hs1) (string_of_list_ascii name1) L)).
  set (pre := h1 ++ newline :: concat hs1).
  assert (Hdata : data = pre ++ h2 ++ newline :: concat hs2).
  { unfold data, pre. rewrite <- app_assoc. reflexivity. }
  assert (Hpre : len pre = len h1 + 1 + 32 * len hs1).
  { unfold pre, len in *. rewrite length_app. cbn [length]. lia. }
  replace (0 + (0 + len h1 + 1 + 32 * len hs1)) with (len pre) by lia.
  pose proof (processRecords_plain now fuel lists1 pre h2 (concat hs2) L (len hs2)
                name2 x2 c2 (concat hs1) Hn2 Hs2 Hc2) as Hrec2.
  rewrite <- Hdata in Hrec2. rewrite Hrec2; [| lia | lia | exact Hbig' |]. clear Hrec2.
  - apply processRecords_done. lia.
  - rewrite Hhl, Hcl. unfold data.
    replace (h1 ++ newline :: concat hs1 ++ h2 ++ newline :: concat hs2)
      with ((h1 ++ [newline]) ++ concat hs1 ++ (h2 ++ newline :: concat hs2))
      by (rewrite <- app_assoc; reflexivity).
    apply slice_mid; unfold len in *; rewrite length_app; cbn [length]; lia.
Qed.

Lemma X16_witness :
  processFullHashes 0 2 (Some malwareOnly) twoRecords
  = Some (Ok tt,
          snd (readFullHashChunk 0
                 (snd (readFullHashChunk 0 (Some malwareOnly) (concat [hashAs])
                         "goog-malware-shavar" 600))
                 (concat [hashAs]) "goog-phish-shavar" 600)).
Proof.
  exact (X16_processFullHashes_second_record 0 0 (Some malwareOnly) (b "600")
           (b "goog-malware-shavar:32:1") (b "goog-malware-shavar") (b "32") (b "1")
           (b "goog-phish-shavar:0032:1") (b "goog-phish-shavar") (b "0032") (b "1")
           [hashAs] [hashBs] 600
           ltac:(apply (bool_decide_unpack _); vm_compute; exact I)
           ltac:(vm_compute; reflexivity)
           ltac:(apply (bool_decide_unpack _); vm_compute; exact I)
           ltac:(vm_compute; reflexivity)
           ltac:(vm_compute; reflexivity)
           ltac:(discriminate)
           ltac:(repeat constructor)
           ltac:(apply (bool_decide_unpack _); vm_compute; exact I)
           ltac:(vm_compute; reflexivity)
           ltac:(vm_compute; reflexivity)
           ltac:(repeat constructor)
           ltac:(vm_compute; reflexivity)
           ltac:(vm_compute; reflexivity)
           ltac:(vm_compute; reflexivity)).
Defined.

(** X17: a negative metadata length can stop the loop from advancing.
    The length field of a metadata record is only checked from above;
    when it is the negative of the bytes of the record read so far,
    [rec_len] ends at 0, [pos += rec_len] leaves [pos] where it was, and
    the same record is processed again: whatever number of turns one
    allows, the loop is still running. *)
Theorem X17_processFullHashes_never_returns (now : Z) (fuel : nat) (lists : ListsMap)
  (life header fname f1 count hash meta rest : bytes) (L : Z) :
  newline ∉ life -> Atoi life = Ok L ->
  newline ∉ header -> Split ":"%char header = [fname; f1; count; b "m"] ->
  Atoi count = Ok 1 -> len hash = 32 ->
  newline ∉ meta -> Atoi meta = Ok (- (len header + 1 + 32 + len meta + 1)) ->
  len (life ++ newline :: header ++ newline :: hash ++ meta ++ newline :: rest) < 2 ^ 62 ->
  processFullHashes now fuel lists
    (life ++ newline :: header ++ newline :: hash ++ meta ++ newline :: rest) = None.
Proof.
  intros Hnl Hlife Hnh Hsplit Hcount Hhash Hnm Hmeta Hbig.
  rewrite (processFullHashes_head _ _ _ _ _ L) by assumption.
  set (data := header ++ newline :: hash ++ meta ++ newline :: rest) in *.
  assert (Hbig' : len data < 2 ^ 62).
  { unfold len in *. rewrite length_app in Hbig. cbn [length] in Hbig. lia. }
  assert (Hlen : 0 < len data).
  { unfold data, len. rewrite length_app. cbn [length]. lia. }
  revert lists. induction fuel as [|fuel IH]; intros lists; cbn [processRecords];
    (destruct (Z.ltb_spec 0 (len data)); [|lia]); [reflexivity|].
  unfold data.
  rewrite (processRecord_stall now lists header fname f1 count hash meta rest L) by assumption.
  change (addi 0 0) with 0. apply IH.
Qed.

Lemma X17_witness :
  processFullHashes 0 1000 (Some malwareOnly) negativeMetadata = None.
Proof.
  exact (X17_processFullHashes_never_returns 0 1000 (Some malwareOnly) (b "600")
           (b "goog-malware-shavar:32:1:m") (b "goog-malware-shavar") (b "32") (b "1")
           hashAs (b "-63") [] 600
           ltac:(apply (bool_decide_unpack _); vm_compute; exact I)
           ltac:(vm_compute; reflexivity)
           ltac:(apply (bool_decide_unpack _); vm_compute; exact I)
           ltac:(vm_compute; reflexivity)
           ltac:(vm_compute; reflexivity)
           ltac:(vm_compute; reflexivity)
           ltac:(apply (bool_decide_unpack _); vm_compute; exact I)
           ltac:(vm_compute; reflexivity)
           ltac:(vm_compute; reflexivity)).
Defined.

(** ** What a query answers and asks *)

Module QueryAnswerFacts.

Import HatTrie HatTrieFacts Query QueryFacts.

Section Pipeline.

Variable OfflineMode : bool.
Variable now : Z.
Variable Canonicalize : bytes -> bytes.
Variable GenerateTestCandidates : bytes -> list bytes.
Variable getHash : bytes -> LookupHash.
Variable request : nat -> string -> bytes -> Response + string.
Variable processFullHashes :
  bytes -> list (string * SafeBrowsingList) -> Ext (list (string * SafeBrowsingList)).

Local Abbreviation scan := (scanCandidates OfflineMode now getHash).
Local Abbreviation visit := (queryLists OfflineMode now getHash request processFullHashes).

Lemma evictStale_Lookup (h p : bytes) (sbl : SafeBrowsingList) :
  Lookup (evictStale now h p sbl) = Lookup sbl.
Proof.
  unfold evictStale. destruct (Cache sbl !! h) as [fhc|]; [|reflexivity].
  destruct (checkValidity now fhc); reflexivity.
Qed.

(** A scan that meets no prefix of the list hands on what it was given. *)
Lemma scan_no_prefix (m : bool) (urls : list bytes) (sbl : SafeBrowsingList)
  (keys : list LookupHash) :
  (forall c p, c ∈ urls -> slice (getHash c) 0 PREFIX_4B_SZ = Ok p ->
               Get (Lookup sbl) p = false) ->
  match scan m urls sbl keys with
  | Ok (Found hit sbl') => hit = true /\ Lookup sbl' = Lookup sbl
  | Ok (Missed keys' sbl') => keys' = keys /\ Lookup sbl' = Lookup sbl
  | _ => True
  end.
Proof.
  revert sbl. induction urls as [|url urls IH]; intros sbl Hno; cbn [scanCandidates].
  - split; reflexivity.
  - destruct (slice (getHash url) 0 PREFIX_4B_SZ) as [prefix|e|w] eqn:Hs; cbn [bind];
      [|exact I|exact I].
    set (sbl1 := evictStale now (getHash url) prefix sbl).
    assert (HL : Lookup sbl1 = Lookup sbl) by apply evictStale_Lookup.
    destruct (Get (FullHashes sbl1) (getHash url)); [split; [reflexivity|exact HL]|].
    rewrite HL, (Hno url prefix) by (try exact Hs; apply elem_of_cons; now left).
    specialize (IH sbl1). rewrite HL in IH. apply IH.
    intros c p Hc Hp. apply (Hno c p); [apply elem_of_cons; now right|exact Hp].
Qed.

Lemma visit_no_prefix (m : bool) (urls : list bytes) (names : list string) (sb : SafeBrowsing) :
  (forall name sbl c p, aget (Lists sb) name = Some sbl -> c ∈ urls ->
     slice (getHash c) 0 PREFIX_4B_SZ = Ok p -> Get (Lookup sbl) p = false) ->
  trace (snd (visit m urls names sb)) = trace sb.
Proof.
  revert sb. induction names as [|listName names IH]; intros sb Hno; cbn [queryLists];
    [reflexivity|].
  destruct (aget (Lists sb) listName) as [sbl|] eqn:Hget; [|now apply IH].
  pose proof (scan_no_prefix m urls sbl [] (fun c p => Hno listName sbl c p Hget)) as Hscan.
  destruct (scan m urls sbl []) as [[hit sbl'|keys sbl']|e|w]; try reflexivity.
  destruct Hscan as [-> HL].
  rewrite IH; [reflexivity|].
  intros name s c p Hs Hc Hp. cbn [setList with_Lists Lists] in Hs.
  destruct (decide (name = listName)) as [->|Hne].
  - rewrite ChunkCodecFacts.aget_aset_same in Hs. injection Hs as <-.
    rewrite HL. now apply (Hno listName sbl c p).
  - rewrite ChunkShapeFacts.aget_aset_ne in Hs by exact Hne. now apply (Hno name s c p).
Qed.

(** What a hit of the scan rests on. *)
Lemma scan_found (m : bool) (urls : list bytes) (sbl sbl' : SafeBrowsingList)
  (keys : list LookupHash) (hit : bool) :
  scan m urls sbl keys = Ok (Found hit sbl') ->
  exists c, c ∈ urls /\
    if hit then Get (FullHashes sbl') (getHash c) = true
    else exists p, slice (getHash c) 0 PREFIX_4B_SZ = Ok p /\ Get (Lookup sbl') p = true.
Proof.
  revert sbl keys. induction urls as [|url urls IH]; intros sbl keys; cbn [scanCandidates];
    [discriminate|].
  destruct (slice (getHash url) 0 PREFIX_4B_SZ) as [prefix|e|w] eqn:Hs; cbn [bind];
    try discriminate.
  set (sbl1 := evictStale now (getHash url) prefix sbl).
  assert (Hrest : forall k, scan m urls sbl1 k = Ok (Found hit sbl') ->
            exists c, c ∈ url :: urls /\
              if hit then Get (FullHashes sbl') (getHash c) = true
              else exists p, slice (getHash c) 0 PREFIX_4B_SZ = Ok p /\
                             Get (Lookup sbl') p = true).
  { intros k Hk. destruct (IH _ _ Hk) as (c & Hc & H). exists c.
    split; [apply elem_of_cons; now right|exact H]. }
  destruct (Get (FullHashes sbl1) (getHash url)) eqn:Hfull.
  { intros [= <- <-]. exists url. split; [apply elem_of_cons; now left|exact Hfull]. }
  destruct (Get (Lookup sbl1) prefix) eqn:Hlook; [|apply Hrest].
  destruct (negb m || OfflineMode).
  { intros [= <- <-]. exists url. split; [apply elem_of_cons; now left|]. eauto. }
  destruct (Get (FullHashRequested sbl1) prefix); apply Hrest.
Qed.

Lemma visit_found (m : bool) (urls : list bytes) (names : list string) (sb : SafeBrowsing)
  (listName : string) (hit : bool) :
  fst (visit m urls names sb) = Ok (listName, hit) ->
  (listName, hit) = (""%string, false) \/
  exists sbl c,
    aget (Lists (snd (visit m urls names sb))) listName = Some sbl /\ c ∈ urls /\
    if hit then Get (FullHashes sbl) (getHash c) = true
    else exists p, slice (getHash c) 0 PREFIX_4B_SZ = Ok p /\ Get (Lookup sbl) p = true.
Proof.
  revert sb. induction names as [|name names IH]; intros sb; cbn [queryLists].
  { cbn [fst]. intros [= <- <-]. now left. }
  destruct (aget (Lists sb) name) as [sbl|] eqn:Hget; [|apply IH].
  destruct (scan m urls sbl []) as [[h sbl'|keys sbl']|e|w] eqn:Hscan;
    cbn [fst snd]; try discriminate.
  - intros [= <- <-]. right. destruct (scan_found _ _ _ _ _ _ Hscan) as (c & Hc & H).
    exists sbl', c. split; [apply aget_setList|]. split; [exact Hc|exact H].
  - destruct keys as [|k keys]; [apply IH|].
    destruct (requestFullHashes request processFullHashes (setList sb name sbl') name
                (k :: keys)) as [[[]|e|w] sb1]; cbn [fst snd]; try discriminate.
    destruct (recheck getHash sb1 name urls) eqn:Hre; cbn [fst snd]; [|apply IH].
    intros [= <- <-]. right. unfold recheck in Hre.
    destruct (aget (Lists sb1) name) as [s|]; [|discriminate].
    apply existsb_exists in Hre as (c & Hc & H).
    exists s, c. split; [reflexivity|]. split; [now apply list_elem_of_In|exact H].
Qed.

End Pipeline.

End QueryAnswerFacts.

(** X18: a URL none of whose candidates has its prefix in the [Lookup] trie
    of a list of the client is never sent to the server: [queryUrl], with
    either value of [matchFullHash], issues no [gethash] request, marks no
    prefix as requested and starts no back-off task. *)
Theorem X18_queryUrl_no_prefix_no_request
  (OfflineMode : bool) (now : Z)
  (Canonicalize : bytes -> bytes) (GenerateTestCandidates : bytes -> list bytes)
  (getHash : bytes -> LookupHash)
  (request : nat -> string -> bytes -> Query.Response + string)
  (processFullHashes : bytes -> list (string * Query.SafeBrowsingList)
                       -> Query.Ext (list (string * Query.SafeBrowsingList)))
  (sb : Query.SafeBrowsing) (url : bytes) (matchFullHash : bool) :
  (forall name sbl c p,
     aget (Query.Lists sb) name = Some sbl ->
     c ∈ GenerateTestCandidates (Canonicalize url) ->
     slice (getHash c) 0 Query.PREFIX_4B_SZ = Ok p ->
     Get (Query.Lookup sbl) p = false) ->
  Query.trace (snd (Query.queryUrl OfflineMode now Canonicalize GenerateTestCandidates
                      getHash request processFullHashes sb url matchFullHash))
  = Query.trace sb.
Proof.
  intros Hno. unfold Query.queryUrl.
  destruct (matchFullHash && negb (Query.IsUpToDate OfflineMode now sb)); [reflexivity|].
  cbv zeta. now apply QueryAnswerFacts.visit_no_prefix.
Qed.

Lemma X18_witness :
  Query.trace (snd (Query.queryUrl false (10 * Query.minute) Query.canonicalizeTestCom
                      Query.candidatesTestCom (fun _ => repeat "000"%char 32)
                      Query.answers200 Query.storesNothing Query.testClient
                      (b "http://test.com/") true))
  = Query.trace Query.testClient.
Proof.
  apply X18_queryUrl_no_prefix_no_request.
  intros name sbl c p Hget _ Hp. vm_compute in Hp. injection Hp as <-.
  cbn in Hget. destruct (decide (name = "googpub-phish-shavar"%string)); [|discriminate].
  injection Hget as <-. vm_compute. reflexivity.
Defined.

(** X19: a positive answer of [queryUrl] is backed by the list it names.
    When the answer is a list with [fullHashMatch] true, the [FullHashes]
    trie of that list holds, when the call returns, the hash of one of the
    candidates of the URL; when it is a list with [fullHashMatch] false,
    the [Lookup] trie of that list holds the prefix of the hash of one of
    the candidates.  The only other successful answer is the empty
    name with [fullHashMatch] false. *)
Theorem X19_queryUrl_hit_is_backed
  (OfflineMode : bool) (now : Z)
  (Canonicalize : bytes -> bytes) (GenerateTestCandidates : bytes -> list bytes)
  (getHash : bytes -> LookupHash)
  (request : nat -> string -> bytes -> Query.Response + string)
  (processFullHashes : bytes -> list (string * Query.SafeBrowsingList)
                       -> Query.Ext (list (string * Query.SafeBrowsingList)))
  (sb : Query.SafeBrowsing) (url : bytes) (matchFullHash : bool)
  (listName : string) (hit : bool) :
  fst (Query.queryUrl OfflineMode now Canonicalize GenerateTestCandidates
         getHash request processFullHashes sb url matchFullHash) = Ok (listName, hit) ->
  (listName, hit) = (""%string, false) \/
  exists sbl c,
    aget (Query.Lists (snd (Query.queryUrl OfflineMode now Canonicalize
                              GenerateTestCandidates getHash request processFullHashes
                              sb url matchFullHash))) listName = Some sbl /\
    c ∈ GenerateTestCandidates (Canonicalize url) /\
    if hit then Get (Query.FullHashes sbl) (getHash c) = true
    else exists p, slice (getHash c) 0 Query.PREFIX_4B_SZ = Ok p /\
                   Get (Query.Lookup sbl) p = true.
Proof.
  unfold Query.queryUrl.
  destruct (matchFullHash && negb (Query.IsUpToDate OfflineMode now sb));
    [cbn [fst]; discriminate|].
  cbv zeta. apply QueryAnswerFacts.visit_found.
Qed.

Lemma X19_witness :
  ("googpub-phish-shavar"%string, false) = (""%string, false) \/
  exists sbl c,
    aget (Query.Lists (snd (Query.queryUrl false (10 * Query.minute)
                              Query.canonicalizeTestCom Query.candidatesTestCom
                              Query.hashTestCom Query.answers200 Query.storesNothing
                              Query.testClient (b "http://test.com/") false)))
         "googpub-phish-shavar"%string = Some sbl /\
    c ∈ Query.candidatesTestCom (Query.canonicalizeTestCom (b "http://test.com/")) /\
    exists p, slice (Query.hashTestCom c) 0 Query.PREFIX_4B_SZ = Ok p /\
              Get (Query.Lookup sbl) p = true.
Proof.
  exact (X19_queryUrl_hit_is_backed false (10 * Query.minute) Query.canonicalizeTestCom
           Query.candidatesTestCom Query.hashTestCom Query.answers200 Query.storesNothing
           Query.testClient (b "http://test.com/") false "googpub-phish-shavar" false
           ltac:(vm_compute; reflexivity)).
Defined.
